(** * grepmarx: project and rule utilities

    A shallow embedding of [app/projects/util.py] and
    [grepmarx/rules/util.py], and the properties of the risk scorer, the
    line-count aggregator, the access resolver, the severity classifier and
    the rule synchronizer.

    Conventions of the embedding:
    - a Python [int] is a [Z]; a [str] is a [string] where the functions
      only store, compare, split or join the text (there [str.lower] and
      [str.upper] act on the ASCII range), and a sequence of Unicode code
      points where the result depends on the classes of the characters: in
      the severity classifier and in the check of the rule pack forms,
      whose regular expressions match any decimal digit;
    - an attribute that may hold [None] is an [option];
    - ORM rows are records; a table with a primary key is a finite map from
      the key to the row, or a list of rows where the row order matters;
    - the constants of [app.constants] and [grepmarx.constants], which the
      two modules import, are parameters gathered in a class. *)

From Stdlib Require Import ZArith List Ascii String Sorting.Sorted Sorting.Permutation.
From stdpp Require Import base decidable option list sorting gmap strings fin_maps.

Local Open Scope Z_scope.

(** ** Python dictionaries with string keys

    A [dict] keeps its keys in insertion order; assigning to a key that is
    already present keeps the key in its place and replaces the value. The
    display [{k1: v1, ..., kn: vn}] assigns the pairs from left to right. *)
Module PyDict.

Definition t (V : Type) : Type := list (string * V).

Fixpoint setitem {V : Type} (k : string) (v : V) (d : t V) : t V :=
  match d with
  | [] => [(k, v)]
  | (k', v') :: d' =>
      if String.eqb k' k then (k', v) :: d' else (k', v') :: setitem k v d'
  end.

Definition display {V : Type} (pairs : list (string * V)) : t V :=
  fold_left (fun d kv => setitem (fst kv) (snd kv) d) pairs [].

Fixpoint getitem {V : Type} (k : string) (d : t V) : option V :=
  match d with
  | [] => None
  | (k', v') :: d' => if String.eqb k' k then Some v' else getitem k d'
  end.

Definition keys {V : Type} (d : t V) : list string := map fst d.

End PyDict.

(** ** Python string methods, on ASCII strings *)
Module PyStr.

Definition is_upper (c : ascii) : bool :=
  (65 <=? nat_of_ascii c)%nat && (nat_of_ascii c <=? 90)%nat.

Definition is_lower (c : ascii) : bool :=
  (97 <=? nat_of_ascii c)%nat && (nat_of_ascii c <=? 122)%nat.

(** The ASCII digits: the characters of the class [\d] in the ASCII
    range. *)
Definition is_digit (c : ascii) : bool :=
  (48 <=? nat_of_ascii c)%nat && (nat_of_ascii c <=? 57)%nat.

Definition lower_ascii (c : ascii) : ascii :=
  if is_upper c then ascii_of_nat (nat_of_ascii c + 32) else c.

Definition upper_ascii (c : ascii) : ascii :=
  if is_lower c then ascii_of_nat (nat_of_ascii c - 32) else c.

(** [s.lower()] *)
Fixpoint lower (s : string) : string :=
  match s with
  | EmptyString => EmptyString
  | String c s' => String (lower_ascii c) (lower s')
  end.

(** [s.upper()] *)
Fixpoint upper (s : string) : string :=
  match s with
  | EmptyString => EmptyString
  | String c s' => String (upper_ascii c) (upper s')
  end.

(** The scan of [s.replace(old, "")] for a non-empty [old]: [skip] counts
    the characters of an occurrence that are still to be dropped. *)
Fixpoint remove_scan (old : string) (skip : nat) (s : string) : string :=
  match s with
  | EmptyString => EmptyString
  | String c s' =>
      match skip with
      | S k => remove_scan old k s'
      | O =>
          if String.prefix old s then remove_scan old (String.length old - 1) s'
          else String c (remove_scan old 0 s')
      end
  end.

(** [s.replace(old, "")]: every occurrence of [old] is removed, from left to
    right, occurrences not overlapping; an empty [old] changes nothing. *)
Definition replace_by_empty (s old : string) : string :=
  match old with
  | EmptyString => s
  | _ => remove_scan old 0 s
  end.

(** [s.split(sep)] for a separator of one character. *)
Fixpoint split (sep : ascii) (s : string) : list string :=
  match s with
  | EmptyString => [EmptyString]
  | String c s' =>
      if Ascii.eqb c sep then EmptyString :: split sep s'
      else
        match split sep s' with
        | [] => [String c EmptyString]
        | x :: xs => String c x :: xs
        end
  end.

(** [sep.join(l)] *)
Fixpoint join (sep : string) (l : list string) : string :=
  match l with
  | [] => EmptyString
  | [x] => x
  | x :: xs => x +:+ sep +:+ join sep xs
  end.

End PyStr.

(** ** Python text: a [str] as the sequence of its Unicode code points *)
Module PyUnicode.

Definition str : Type := list N.

(** What the Unicode database of the interpreter gives for a code point.
    The tables are those of the interpreter, not of the repository:
    [isdecimal] is [str.isdecimal] on the character, the class [\d] of a
    [str] pattern; [tolower] is the simple lower case, which
    [re.IGNORECASE] compares; [toupper_full] is the upper case of the
    character in [str.upper], one character or more. *)
Class Database := {
  isdecimal : N -> bool;
  tolower : N -> N;
  toupper_full : N -> list N
}.

(** [s.upper()] *)
Definition upper `{Database} (s : str) : str := flat_map toupper_full s.

(** The text of an ASCII literal. *)
Definition of_ascii (c : ascii) : N := N_of_ascii c.

Definition of_string (s : string) : str := map of_ascii (list_ascii_of_string s).

End PyUnicode.

(** ** Python's [sorted] and slices *)
Module PyList.

Section Sorted.
Context {A : Type} (key : A -> Z).

(** Insertion in front of the first element whose key is not smaller: a new
    element goes before the elements that compare equal to it. *)
Fixpoint insert_by (x : A) (l : list A) : list A :=
  match l with
  | [] => [x]
  | y :: l' => if key x <=? key y then x :: y :: l' else y :: insert_by x l'
  end.

(** A stable ascending sort by [key] (the order CPython's list sort
    computes): elements with equal keys keep their relative order. *)
Fixpoint stable_sort (l : list A) : list A :=
  match l with
  | [] => []
  | x :: l' => insert_by x (stable_sort l')
  end.

(** [sorted(l, key=key, reverse=reverse)]: a new list. With [reverse] the
    list is reversed, sorted, and reversed again, which is how CPython keeps
    the sort stable in descending order. *)
Definition sorted (l : list A) (reverse : bool) : list A :=
  if reverse then rev (stable_sort (rev l)) else stable_sort l.

(** Ascending and descending order of the keys, and the elements with one
    key, in the order of the list. *)
Definition key_le (x y : A) : Prop := key x <= key y.
Definition key_ge (x y : A) : Prop := key y <= key x.
Definition with_key (k : Z) (l : list A) : list A := filter (fun x => key x = k) l.

End Sorted.

(** [l[:stop]] for an [int] stop: a negative stop counts from the end. *)
Definition slice_to {A : Type} (l : list A) (stop : Z) : list A :=
  if 0 <=? stop then take (Z.to_nat stop) l
  else take (Z.to_nat (Z.of_nat (length l) + stop)) l.

End PyList.

(** ** [app/projects/util.py] *)
Module Projects.

(** The constants the module imports from [app.constants]. *)
Class Constants := {
  SEVERITY_CRITICAL : string;
  SEVERITY_HIGH : string;
  SEVERITY_MEDIUM : string;
  SEVERITY_LOW : string
}.

(** The four severity constants are different strings. *)
Definition distinct_severities {K : Constants} : Prop :=
  NoDup [SEVERITY_CRITICAL; SEVERITY_HIGH; SEVERITY_MEDIUM; SEVERITY_LOW].

(** *** Data model

    The model classes of [app.projects.models], [app.rules.models] and
    [app.base.models] are not among the sources. Each record below has the
    attributes the functions of the module read. *)

(** Modelled from the spec: an occurrence record of a vulnerability
    (section 3, Analysis); only the number of occurrences is read. *)
Record Occurence := { occurence_id : Z }.

(** Modelled from the spec: a SAST finding, with a severity tier and its
    occurrence records (section 3, Analysis). *)
Record Vulnerability := {
  vuln_severity : string;
  occurences : list Occurence
}.

(** Modelled from the spec: an SCA finding, with a severity tier
    (section 3, Analysis). *)
Record VulnerableDependency := {
  dep_severity : string
}.

(** Modelled from the spec: the result of the scanners, a collection of
    vulnerabilities and one of vulnerable dependencies (section 3). *)
Record Analysis := {
  vulnerabilities : list Vulnerability;
  vulnerable_dependencies : list VulnerableDependency
}.

(** Modelled from the spec: the six counters of one language (section 3,
    ProjectLinesCount). *)
Record LanguageLinesCount := {
  language : string;
  file_count : Z;
  line_count : Z;
  blank_count : Z;
  comment_count : Z;
  code_count : Z;
  complexity_count : Z
}.

(** Modelled from the spec: the six totals and the ordered
    [LanguageLinesCount] entries of a project (section 3). *)
Record ProjectLinesCount := {
  total_file_count : Z;
  total_line_count : Z;
  total_blank_count : Z;
  total_comment_count : Z;
  total_code_count : Z;
  total_complexity_count : Z;
  language_lines_counts : list LanguageLinesCount
}.

(** Modelled from the spec: a project owns zero or one [Analysis] and zero
    or one [ProjectLinesCount] (section 3). *)
Record Project := {
  name : string;
  analysis : option Analysis;
  project_lines_count : option ProjectLinesCount
}.

(** One element of the deserialized output of scc: an object with the
    seven fields of the line-counting tool contract. *)
Record SccEntry := {
  Name : string;
  Count : Z;
  Lines : Z;
  Blank : Z;
  Comment : Z;
  Code : Z;
  Complexity : Z
}.

(** *** Occurrences *)

(** The loop of [count_occurences] over the vulnerabilities, with the
    running count. *)
Fixpoint count_occurences_loop (vulns : list Vulnerability) (occurences_count : Z) : Z :=
  match vulns with
  | [] => occurences_count
  | c_vulnerability :: rest =>
      count_occurences_loop rest
        (occurences_count + Z.of_nat (length (occurences c_vulnerability)))
  end.

Definition count_occurences (project : Project) : Z :=
  let occurences_count := 0 in
  match analysis project with
  | Some a => count_occurences_loop (vulnerabilities a) occurences_count
  | None => occurences_count
  end.

(** *** Risk level *)

Fixpoint has_severity_loop (severities : list string) (severity_level : string) : bool :=
  match severities with
  | [] => false
  | s :: rest => if String.eqb s severity_level then true else has_severity_loop rest severity_level
  end.

Definition has_vuln_with_severity (a : Analysis) (severity_level : string) : bool :=
  has_severity_loop (map vuln_severity (vulnerabilities a)) severity_level.

Definition has_vuln_dep_with_severity (a : Analysis) (severity_level : string) : bool :=
  has_severity_loop (map dep_severity (vulnerable_dependencies a)) severity_level.

Section RiskLevel.
Context {K : Constants}.

(** [s2rl[s]] for a key [s] the loop stands on; the key is in the
    dictionary, so the lookup does not fail. *)
Definition s2rl_at (s2rl : PyDict.t Z) (s : string) : Z :=
  match PyDict.getitem s s2rl with
  | Some v => v
  | None => 0
  end.

(** The first loop over the keys of [s2rl]: the first key with a
    vulnerability sets the level and leaves the loop ([break]). *)
Fixpoint base_loop (a : Analysis) (s2rl : PyDict.t Z) (keys : list string)
    (risk_level : Z) : Z :=
  match keys with
  | [] => risk_level
  | s :: rest =>
      if has_vuln_with_severity a s then s2rl_at s2rl s
      else base_loop a s2rl rest risk_level
  end.

(** The second loop over the keys of [s2rl]: every key with a vulnerable
    dependency adds its value; the loop has no [break]. *)
Fixpoint adjust_loop (a : Analysis) (s2rl : PyDict.t Z) (keys : list string)
    (risk_level : Z) : Z :=
  match keys with
  | [] => risk_level
  | s :: rest =>
      adjust_loop a s2rl rest
        (if has_vuln_dep_with_severity a s then risk_level + s2rl_at s2rl s
         else risk_level)
  end.

Definition s2rl_base : PyDict.t Z :=
  PyDict.display
    [(SEVERITY_CRITICAL, 75); (SEVERITY_HIGH, 60); (SEVERITY_MEDIUM, 40); (SEVERITY_LOW, 20)].

Definition s2rl_adjust : PyDict.t Z :=
  PyDict.display
    [(SEVERITY_CRITICAL, 10); (SEVERITY_HIGH, 8); (SEVERITY_MEDIUM, 5); (SEVERITY_LOW, 2)].

Definition calculate_risk_level (project : Project) : Z :=
  let risk_level := 0 in
  match analysis project with
  | Some a =>
      match project_lines_count project with
      | Some plc =>
          if 0 <? total_code_count plc then
            let risk_level := base_loop a s2rl_base (PyDict.keys s2rl_base) risk_level in
            adjust_loop a s2rl_adjust (PyDict.keys s2rl_adjust) risk_level
          else risk_level
      | None => risk_level
      end
  | None => risk_level
  end.

End RiskLevel.

(** *** The score in the words of the specification *)

Section RiskLevelSpec.
Context {K : Constants}.

(** Some vulnerability, or vulnerable dependency, carries the severity. *)
Definition tier_present (severities : list string) (s : string) : bool :=
  bool_decide (s ∈ severities).

Definition vuln_severities (a : Analysis) : list string :=
  map vuln_severity (vulnerabilities a).

Definition dep_severities (a : Analysis) : list string :=
  map dep_severity (vulnerable_dependencies a).

(** The base value of the highest tier among the vulnerabilities. *)
Definition base_score (a : Analysis) : Z :=
  if tier_present (vuln_severities a) SEVERITY_CRITICAL then 75
  else if tier_present (vuln_severities a) SEVERITY_HIGH then 60
  else if tier_present (vuln_severities a) SEVERITY_MEDIUM then 40
  else if tier_present (vuln_severities a) SEVERITY_LOW then 20
  else 0.

(** One increment, that of the highest tier among the vulnerable
    dependencies. *)
Definition highest_tier_increment (a : Analysis) : Z :=
  if tier_present (dep_severities a) SEVERITY_CRITICAL then 10
  else if tier_present (dep_severities a) SEVERITY_HIGH then 8
  else if tier_present (dep_severities a) SEVERITY_MEDIUM then 5
  else if tier_present (dep_severities a) SEVERITY_LOW then 2
  else 0.

(** The increments of all the tiers present among the vulnerable
    dependencies, added up. *)
Definition summed_increments (a : Analysis) : Z :=
  (if tier_present (dep_severities a) SEVERITY_CRITICAL then 10 else 0)
  + (if tier_present (dep_severities a) SEVERITY_HIGH then 8 else 0)
  + (if tier_present (dep_severities a) SEVERITY_MEDIUM then 5 else 0)
  + (if tier_present (dep_severities a) SEVERITY_LOW then 2 else 0).

End RiskLevelSpec.

(** *** Lines counts *)

Definition top_language_lines_counts (project_lc : ProjectLinesCount) (top_number : Z)
  : list LanguageLinesCount :=
  PyList.slice_to
    (PyList.sorted code_count (language_lines_counts project_lc) true)
    top_number.

(** The [LanguageLinesCount] the loop creates for one element. *)
Definition new_language_lines_count (c : SccEntry) : LanguageLinesCount :=
  {| language := Name c;
     file_count := Count c;
     line_count := Lines c;
     blank_count := Blank c;
     comment_count := Comment c;
     code_count := Code c;
     complexity_count := Complexity c |}.

(** One turn of the loop of [load_project_lines_count]: the new
    [LanguageLinesCount] is appended and the six totals are updated. *)
Definition load_step (project_lc : ProjectLinesCount) (c : SccEntry) : ProjectLinesCount :=
  let language_lines_count := new_language_lines_count c in
  {| language_lines_counts := language_lines_counts project_lc ++ [language_lines_count];
     total_file_count := total_file_count project_lc + Count c;
     total_line_count := total_line_count project_lc + Lines c;
     total_blank_count := total_blank_count project_lc + Blank c;
     total_comment_count := total_comment_count project_lc + Comment c;
     total_code_count := total_code_count project_lc + Code c;
     total_complexity_count := total_complexity_count project_lc + Complexity c |}.

(** The empty [ProjectLinesCount] the function starts from. *)
Definition empty_project_lines_count : ProjectLinesCount :=
  {| total_file_count := 0;
     total_line_count := 0;
     total_blank_count := 0;
     total_comment_count := 0;
     total_code_count := 0;
     total_complexity_count := 0;
     language_lines_counts := [] |}.

Definition load_project_lines_count (scc_result : list SccEntry) : ProjectLinesCount :=
  fold_left load_step scc_result empty_project_lines_count.

(** The sum of one counter over the entries of a lines count. *)
Definition sum_counter (counter : LanguageLinesCount -> Z) (l : list LanguageLinesCount) : Z :=
  fold_right (fun x acc => counter x + acc) 0 l.

(** The totals agree with the entries. *)
Definition totals_agree (plc : ProjectLinesCount) : Prop :=
  total_file_count plc = sum_counter file_count (language_lines_counts plc)
  ∧ total_line_count plc = sum_counter line_count (language_lines_counts plc)
  ∧ total_blank_count plc = sum_counter blank_count (language_lines_counts plc)
  ∧ total_comment_count plc = sum_counter comment_count (language_lines_counts plc)
  ∧ total_code_count plc = sum_counter code_count (language_lines_counts plc)
  ∧ total_complexity_count plc = sum_counter complexity_count (language_lines_counts plc).

(** Descending order of the code counts. *)
Definition code_count_ge (x y : LanguageLinesCount) : Prop :=
  code_count y <= code_count x.

(** The entries of a list with a given code count, in the order of the list. *)
Definition with_code_count (k : Z) (l : list LanguageLinesCount) : list LanguageLinesCount :=
  filter (fun x => code_count x = k) l.

(** *** Access *)

Section Access.
(** The values of the [role] attribute, and the constant [ROLE_ADMIN] of
    [app.constants]; roles are compared with [==]. *)
Context {Role : Type} `{!EqDecision Role} (ROLE_ADMIN : Role).

(** Modelled from the spec: a user, with the username the queries filter
    on and a role. *)
Record User := {
  username : string;
  role : Role
}.

(** Modelled from the spec: a team, a named collection of users and of
    projects (section 3). *)
Record Team := {
  members : list User;
  projects : list Project
}.

(** [Team.members.any(username=u)] on one row. *)
Definition members_any (t : Team) (u : string) : bool :=
  existsb (fun m => String.eqb (username m) u) (members t).

(** [Team.projects.any(name=n)] on one row. *)
Definition projects_any (t : Team) (n : string) : bool :=
  existsb (fun p => String.eqb (name p) n) (projects t).

(** [set(Team.query.filter(cond).all())]: the rows of the table that satisfy
    the condition, as a set; a row is identified by its primary key. *)
Definition query_filter_set (table : gmap Z Team) (cond : Team -> bool) : gset Z :=
  dom (filter (fun kt => cond (snd kt) = true) table).

Definition has_access (table : gmap Z Team) (current_user : User) (project : Project) : bool :=
  if decide (role current_user = ROLE_ADMIN) then true
  else
    let user_teams := query_filter_set table (fun t => members_any t (username current_user)) in
    let project_teams := query_filter_set table (fun t => projects_any t (name project)) in
    if decide (user_teams ## project_teams) then false else true.

(** The user is a member of the team: the query identifies a user by the
    username. *)
Definition is_member (u : User) (t : Team) : Prop :=
  ∃ m, m ∈ members t ∧ username m = username u.


(** What the second query tests on a team: some project of the team has
    the name. *)
Definition has_project_named (n : string) (t : Team) : Prop :=
  ∃ q, q ∈ projects t ∧ name q = n.


End Access.

End Projects.

(** ** [grepmarx/rules/util.py] *)
Module Rules.

(** The constants the module imports from [grepmarx.constants], and the
    path separator of the platform ([os.path.sep], one character). The type
    of the severity levels is left open: the module only stores them. *)
Class Constants (Severity : Type) := {
  RULES_PATH : string;
  SEVERITY_LOW : Severity;
  SEVERITY_MEDIUM : Severity;
  TOP40_CWE_SEVERITIES : gmap string Severity;
  os_path_sep : ascii
}.

(** *** The regular expression [(CWE-\d+)] with [re.IGNORECASE] *)

(** A character matches a letter of the pattern when both have the same
    lower case. *)
Definition ieq (c pat : ascii) : bool :=
  Ascii.eqb (PyStr.lower_ascii c) (PyStr.lower_ascii pat).

(** The longest run of digits at the start of a string ([\d+] is greedy). *)
Fixpoint digits_prefix (s : string) : string :=
  match s with
  | EmptyString => EmptyString
  | String c s' => if PyStr.is_digit c then String c (digits_prefix s') else EmptyString
  end.

(** The text the pattern matches at the start of [s], if it matches there. *)
Definition match_cwe_here (s : string) : option string :=
  match s with
  | String c1 (String c2 (String c3 (String c4 rest))) =>
      if ieq c1 "C" && ieq c2 "W" && ieq c3 "E" && Ascii.eqb c4 "-" then
        match digits_prefix rest with
        | EmptyString => None
        | ds => Some (String c1 (String c2 (String c3 (String c4 ds))))
        end
      else None
  | _ => None
  end.

(** [re.search]: the match at the leftmost position where the pattern
    matches; the result is [match.group(1)]. *)
Fixpoint search_cwe (s : string) : option string :=
  match match_cwe_here s with
  | Some m => Some m
  | None =>
      match s with
      | EmptyString => None
      | String _ s' => search_cwe s'
      end
  end.

(** *** Occurrences of the pattern, in the words of the specification *)

Fixpoint all_digits (s : string) : bool :=
  match s with
  | EmptyString => true
  | String c s' => PyStr.is_digit c && all_digits s'
  end.

(** [s] reads [pre], then [CWE-] in any case of the letters, then the
    digits [ds], then [post]. *)
Definition cwe_occurrence (s pre pfx ds post : string) : Prop :=
  s = pre +:+ pfx +:+ ds +:+ post
  ∧ PyStr.upper pfx = "CWE-"%string
  ∧ ds ≠ EmptyString
  ∧ all_digits ds = true.

(** No occurrence starts further to the left. *)
Definition leftmost (s pre : string) : Prop :=
  ∀ pre' pfx' ds' post',
    cwe_occurrence s pre' pfx' ds' post' → (String.length pre <= String.length pre')%nat.

(** The digits are all the digits that follow the prefix. *)
Definition digits_end (post : string) : Prop :=
  match post with
  | EmptyString => True
  | String c _ => PyStr.is_digit c = false
  end.

(** *** Data model of the rules *)

(** Modelled from the spec: a canonical language name (section 3); the
    attribute is [name]. *)
Record SupportedLanguage := { sl_name : string }.

(** Modelled from the spec: a named source of rule files (section 3); the
    attribute is [name]. *)
Record RuleRepository := { repo_name : string }.

(** The exceptions the synchronization can leave with. *)
Inductive exn := YAMLError | IndexError | AttributeError.

Inductive outcome := Returned | Raised (e : exn).

(** The value of [metadata.owasp]: one string or a list of strings. *)
Inductive owasp_value := OwaspStr (s : string) | OwaspList (l : list string).

Record Metadata := {
  md_cwe : option string;
  md_owasp : option owasp_value
}.

(** One element of the [rules] list of a rule file; an optional key is an
    [option]. *)
Record RuleEntry := {
  entry_id : string;
  entry_languages : option (list string);
  entry_metadata : option Metadata
}.

(** What [safe_load] does on a rule file: it raises [YAMLError], or returns
    a mapping, which has a [rules] key or not. *)
Inductive safe_load_result := ParseFailure | Parsed (rules : option (list RuleEntry)).

Section Sync.
Context {Severity : Type} `{!Constants Severity}.

(** The classifier as the model of the synchronizer calls it, on the
    strings the rule entries hold. [RulesText.generate_severity] below is
    the classifier on a text of any characters; the two agree on the texts
    of strings. *)
Definition generate_severity (cwe_string : option string) : Severity :=
  let ret := SEVERITY_LOW in
  match cwe_string with
  | Some cwe_string =>
      match search_cwe cwe_string with
      | Some m =>
          let cwe_id := PyStr.upper m in
          match TOP40_CWE_SEVERITIES !! cwe_id with
          | Some tier => tier
          | None => SEVERITY_MEDIUM
          end
      | None => ret
      end
  | None => ret
  end.

(** Modelled from the spec: a rule (section 3), with the attributes
    [sync_db] reads and writes. [rule_id] is the primary key, [repository]
    is the owning repository, or [None] when the lookup by name found none,
    and [languages] is the collection [rule.languages] as the session holds
    it, to which [sync_db] appends with [rule.languages.append]: a list.
    The languages associated with the rule are the elements of the list:
    the rule of the specification has them as a set. *)
Record Rule := {
  rule_id : Z;
  title : string;
  file_path : string;
  repository : option RuleRepository;
  category : string;
  cwe : option string;
  owasp : option string;
  severity : option Severity;
  languages : list SupportedLanguage
}.

Definition set_languages (r : Rule) (v : list SupportedLanguage) : Rule :=
  {| rule_id := rule_id r; title := title r; file_path := file_path r;
     repository := repository r; category := category r; cwe := cwe r;
     owasp := owasp r; severity := severity r; languages := v |}.

Definition set_cwe (r : Rule) (v : option string) : Rule :=
  {| rule_id := rule_id r; title := title r; file_path := file_path r;
     repository := repository r; category := category r; cwe := v;
     owasp := owasp r; severity := severity r; languages := languages r |}.

Definition set_owasp (r : Rule) (v : option string) : Rule :=
  {| rule_id := rule_id r; title := title r; file_path := file_path r;
     repository := repository r; category := category r; cwe := cwe r;
     owasp := v; severity := severity r; languages := languages r |}.

Definition set_severity (r : Rule) (v : option Severity) : Rule :=
  {| rule_id := rule_id r; title := title r; file_path := file_path r;
     repository := repository r; category := category r; cwe := cwe r;
     owasp := owasp r; severity := v; languages := languages r |}.

(** The rules as the database holds them ([committed]) and as the session
    of the run sees them ([session]): the committed rows with the changes
    of the open transaction. A query flushes the session first, so it sees
    the rules added since the last commit. *)
Record RuleStore := {
  committed : list Rule;
  session : list Rule
}.

(** [db.session.commit()] *)
Definition commit (db : RuleStore) : RuleStore :=
  {| committed := session db; session := session db |}.

(** [db.session.rollback()] *)
Definition rollback (db : RuleStore) : RuleStore :=
  {| committed := committed db; session := committed db |}.

Definition with_session (db : RuleStore) (rules : list Rule) : RuleStore :=
  {| committed := committed db; session := rules |}.

(** [Rule.query.filter_by(file_path=p).first()], with the position of the
    row found. *)
Fixpoint first_by_path (p : string) (rules : list Rule) : option (nat * Rule) :=
  match rules with
  | [] => None
  | r :: rest =>
      if String.eqb (file_path r) p then Some (0%nat, r)
      else
        match first_by_path p rest with
        | Some (i, r') => Some (S i, r')
        | None => None
        end
  end.

(** The primary key the database gives a new row: one that no row has. *)
Definition fresh_id (rules : list Rule) : Z :=
  1 + fold_right Z.max 0 (map rule_id rules).

(** The two loops over the language tokens of an entry and over the
    supported languages. *)
Definition append_languages (supported_languages : list SupportedLanguage)
    (tokens : list string) (ls : list SupportedLanguage) : list SupportedLanguage :=
  fold_left
    (fun ls c_language =>
       fold_left
         (fun ls c_sl =>
            if String.eqb (PyStr.lower (sl_name c_sl)) (PyStr.lower c_language)
            then ls ++ [c_sl] else ls)
         supported_languages ls)
    tokens ls.

(** The [metadata] block of the loop body; an empty [owasp] list raises
    [IndexError] at [[0]], after the CWE is stored. *)
Definition apply_metadata (c_rule : RuleEntry) (rule : Rule) : outcome * Rule :=
  match entry_metadata c_rule with
  | None => (Returned, rule)
  | Some md =>
      let rule :=
        match md_cwe md with
        | Some c => set_cwe rule (Some c)
        | None => rule
        end in
      match md_owasp md with
      | None => (Returned, rule)
      | Some (OwaspStr o) => (Returned, set_owasp rule (Some o))
      | Some (OwaspList (o :: _)) => (Returned, set_owasp rule (Some o))
      | Some (OwaspList []) => (Raised IndexError, rule)
      end
  end.

(** The languages an entry appends, and the rule after they are appended
    (the block under [if "languages" in c_rule]). *)
Definition entry_languages_matched (supported_languages : list SupportedLanguage)
    (c_rule : RuleEntry) : list SupportedLanguage :=
  match entry_languages c_rule with
  | Some tokens => append_languages supported_languages tokens []
  | None => []
  end.

Definition after_languages (supported_languages : list SupportedLanguage)
    (c_rule : RuleEntry) (r : Rule) : Rule :=
  match entry_languages c_rule with
  | Some tokens =>
      set_languages r (append_languages supported_languages tokens (languages r))
  | None => r
  end.

(** What the loop body does to the rule it holds, after the lookup: the
    languages, the metadata, the severity, and the log line, which reads
    [rule.repository.name] and raises [AttributeError] when the rule has no
    repository. The second component is the rule when the body is left. *)
Definition update_rule (supported_languages : list SupportedLanguage)
    (c_rule : RuleEntry) (rule : Rule) : outcome * Rule :=
  let rule := after_languages supported_languages c_rule rule in
  match apply_metadata c_rule rule with
  | (Raised e, rule) => (Raised e, rule)
  | (Returned, rule) =>
      let rule := set_severity rule (Some (generate_severity (cwe rule))) in
      match repository rule with
      | Some _ => (Returned, rule)
      | None => (Raised AttributeError, rule)
      end
  end.

Section File.
(** The rows of the tables the function only reads. *)
Variable supported_languages : list SupportedLanguage.
Variable rule_repositories : list RuleRepository.

(** [Rule(title=..., file_path=..., repository=..., category=...)]: the
    other columns are empty, and the key is the one the database gives. *)
Definition new_rule (file_path0 repository0 category0 : string) (c_rule : RuleEntry)
    (rules : list Rule) : Rule :=
  {| rule_id := fresh_id rules;
     title := entry_id c_rule;
     file_path := file_path0;
     repository :=
       List.find (fun r => String.eqb (repo_name r) repository0) rule_repositories;
     category := category0;
     cwe := None;
     owasp := None;
     severity := None;
     languages := [] |}.

(** One turn of the loop over the rules of a file: the rule is looked up by
    its file path; when there is none, a new rule is added to the session.
    The turn then updates the rule it holds, in its place [i]. *)
Definition sync_rule (file_path0 repository0 category0 : string)
    (c_rule : RuleEntry) (rules : list Rule) : outcome * list Rule :=
  let '(i, rule, rules) :=
    match first_by_path file_path0 rules with
    | Some (i, rule) => (i, rule, rules)
    | None =>
        let rule := new_rule file_path0 repository0 category0 c_rule rules in
        (length rules, rule, rules ++ [rule])
    end in
  let '(o, rule) := update_rule supported_languages c_rule rule in
  (o, <[i := rule]> rules).

Fixpoint sync_rules (file_path0 repository0 category0 : string)
    (entries : list RuleEntry) (rules : list Rule) : outcome * list Rule :=
  match entries with
  | [] => (Returned, rules)
  | c_rule :: rest =>
      match sync_rule file_path0 repository0 category0 c_rule rules with
      | (Returned, rules) => sync_rules file_path0 repository0 category0 rest rules
      | (Raised e, rules) => (Raised e, rules)
      end
  end.

(** The path of a rule file relative to the rules root, and the repository
    and category read off it. *)
Definition file_path_of (c_filename : string) : string :=
  PyStr.replace_by_empty c_filename RULES_PATH.

Definition repository_of (file_path0 : string) : string :=
  List.hd EmptyString (PyStr.split os_path_sep file_path0).

Definition category_of (file_path0 : string) : string :=
  PyStr.join "." (removelast (List.tl (PyStr.split os_path_sep file_path0))).

(** The body of the loop over the files: [YAMLError] rolls the session back
    and is raised again; any other exception leaves the function with the
    session as it is; without exception the session is committed. *)
Definition sync_file (f : string * safe_load_result) (db : RuleStore) : outcome * RuleStore :=
  let '(c_filename, loaded) := f in
  match loaded with
  | ParseFailure => (Raised YAMLError, rollback db)
  | Parsed yml_rules =>
      let file_path0 := file_path_of c_filename in
      let repository0 := repository_of file_path0 in
      let category0 := category_of file_path0 in
      match yml_rules with
      | None => (Returned, commit db)
      | Some entries =>
          match sync_rules file_path0 repository0 category0 entries (session db) with
          | (Returned, rules) => (Returned, commit (with_session db rules))
          | (Raised e, rules) => (Raised e, with_session db rules)
          end
      end
  end.

(** [sync_db]: [rules_filenames] stands for the files [glob] finds under the
    folder, in its order, each with what [safe_load] does on it. *)
Fixpoint sync_db (rules_filenames : list (string * safe_load_result)) (db : RuleStore)
  : outcome * RuleStore :=
  match rules_filenames with
  | [] => (Returned, db)
  | f :: rest =>
      match sync_file f db with
      | (Returned, db) => sync_db rest db
      | (Raised e, db) => (Raised e, db)
      end
  end.

End File.

(** *** Relations between rule tables, for the statements *)

(** The fields the synchronization never writes after the creation. *)
Definition static_eq (r r' : Rule) : Prop :=
  rule_id r' = rule_id r ∧ title r' = title r ∧ file_path r' = file_path r
  ∧ repository r' = repository r ∧ category r' = category r.

(** The rules of [old] are in [new] at their positions, with the fields
    above; unique file paths and unique identifiers stay unique. *)
Definition keeps (old new : list Rule) : Prop :=
  (∀ i r, old !! i = Some r → ∃ r', new !! i = Some r' ∧ static_eq r r')
  ∧ (NoDup (file_path <$> old) → NoDup (file_path <$> new))
  ∧ (NoDup (rule_id <$> old) → NoDup (rule_id <$> new)).

(** The file paths of the files of a run that have a rule entry. *)
Definition entry_paths (rules_filenames : list (string * safe_load_result)) : list string :=
  flat_map
    (fun f =>
       match snd f with
       | Parsed (Some (_ :: _)) => [file_path_of (fst f)]
       | _ => []
       end)
    rules_filenames.

(** The rules of [old] are in [new] at their positions, with the fields
    above; a rule that [new] has more has one of the file paths [paths],
    and no rule of [old] has its file path or its identifier. *)
Definition grows (paths : list string) (old new : list Rule) : Prop :=
  (∀ i r, old !! i = Some r → ∃ r', new !! i = Some r' ∧ static_eq r r')
  ∧ ∀ j r', new !! j = Some r' → (length old <= j)%nat →
      file_path r' ∈ paths
      ∧ ∀ r, r ∈ old → file_path r ≠ file_path r' ∧ rule_id r ≠ rule_id r'.

(** The session holds the committed rules, possibly updated, and new ones. *)
Definition store_ok (db : RuleStore) : Prop := keeps (committed db) (session db).

(** The severity is the one the classifier gives for the stored CWE. *)
Definition sev_ok (r : Rule) : Prop :=
  severity r = Some (generate_severity (cwe r)).

(** How a rule changes in the turns of a run that returns. *)
Definition evolves (r r' : Rule) : Prop :=
  static_eq r r' ∧ languages r `prefix_of` languages r' ∧ (sev_ok r → sev_ok r').

Definition mono (a a' : list Rule) : Prop :=
  ∀ i r, a !! i = Some r → ∃ r', a' !! i = Some r' ∧ evolves r r'.

(** The second run, turn by turn beside the first. [r1] is a rule after
    the first run, [ra] the rule during the first run and [rb] the rule
    during the second run, at the same turn: a field the turns so far have
    written is the same in [ra] and [rb], a field they have not written is
    in [rb] as the first run left it. *)
Definition rerun (r1 ra rb : Rule) : Prop :=
  static_eq ra rb
  ∧ (cwe rb = cwe ra ∨ cwe rb = cwe r1)
  ∧ (owasp rb = owasp ra ∨ owasp rb = owasp r1)
  ∧ (severity rb = severity ra ∨ severity rb = severity r1)
  ∧ ∃ extra, languages rb = languages r1 ++ extra ∧ ∀ x, x ∈ extra → x ∈ languages r1.

Definition lockstep (w1 a b : list Rule) : Prop :=
  length b = length w1
  ∧ ∀ i r1, w1 !! i = Some r1 →
      ∃ rb, b !! i = Some rb
            ∧ match a !! i with
              | Some ra => rerun r1 ra rb
              | None => rb = r1
              end.

(** The rule of the specification (section 3) has a set of associated
    languages: two rules have the same field values when their attributes
    are the same and the same languages are associated. *)
Definition same_fields (r1 r2 : Rule) : Prop :=
  rule_id r2 = rule_id r1 ∧ title r2 = title r1 ∧ file_path r2 = file_path r1
  ∧ repository r2 = repository r1 ∧ category r2 = category r1
  ∧ cwe r2 = cwe r1 ∧ owasp r2 = owasp r1 ∧ severity r2 = severity r1
  ∧ ∀ x, x ∈ languages r2 ↔ x ∈ languages r1.

(** A rule after a second run, beside the rule after the first run, in the
    session: every field is the same but the collection of the languages,
    to which the second run has appended languages it already had. *)
Definition resynchronized (r1 r2 : Rule) : Prop :=
  rule_id r2 = rule_id r1 ∧ title r2 = title r1 ∧ file_path r2 = file_path r1
  ∧ repository r2 = repository r1 ∧ category r2 = category r1
  ∧ cwe r2 = cwe r1 ∧ owasp r2 = owasp r1 ∧ severity r2 = severity r1
  ∧ ∃ extra, languages r2 = languages r1 ++ extra ∧ ∀ x, x ∈ extra → x ∈ languages r1.

End Sync.

End Rules.

(** ** The severity classifier, on Unicode text *)
Module RulesText.
Import PyUnicode.

(** The constants of [grepmarx.constants] the classifier reads; the keys of
    the table are texts. *)
Class Constants (Severity : Type) := {
  SEVERITY_LOW : Severity;
  SEVERITY_MEDIUM : Severity;
  TOP40_CWE_SEVERITIES : gmap str Severity
}.

Section Classifier.
Context `{Database} {Severity : Type} `{!Constants Severity}.

(** *** The regular expression [(CWE-\d+)] with [re.IGNORECASE] *)

(** A character matches a letter of the pattern when both have the same
    simple lower case. *)
Definition ieq (c pat : N) : bool := N.eqb (tolower c) (tolower pat).

(** The longest run of decimal digits at the start of a text ([\d+] is
    greedy). *)
Fixpoint digits_prefix (s : str) : str :=
  match s with
  | [] => []
  | c :: s' => if isdecimal c then c :: digits_prefix s' else []
  end.

(** The text the pattern matches at the start of [s], if it matches there;
    [-] has no case and is compared as it is. *)
Definition match_cwe_here (s : str) : option str :=
  match s with
  | c1 :: c2 :: c3 :: c4 :: rest =>
      if ieq c1 (of_ascii "C") && ieq c2 (of_ascii "W") && ieq c3 (of_ascii "E")
         && N.eqb c4 (of_ascii "-") then
        match digits_prefix rest with
        | [] => None
        | ds => Some (c1 :: c2 :: c3 :: c4 :: ds)
        end
      else None
  | _ => None
  end.

(** [re.search]: the match at the leftmost position where the pattern
    matches; the result is [match.group(1)]. *)
Fixpoint search_cwe (s : str) : option str :=
  match match_cwe_here s with
  | Some m => Some m
  | None =>
      match s with
      | [] => None
      | _ :: s' => search_cwe s'
      end
  end.

Definition generate_severity (cwe_string : option str) : Severity :=
  let ret := SEVERITY_LOW in
  match cwe_string with
  | Some cwe_string =>
      match search_cwe cwe_string with
      | Some m =>
          let cwe_id := upper m in
          match TOP40_CWE_SEVERITIES !! cwe_id with
          | Some tier => tier
          | None => SEVERITY_MEDIUM
          end
      | None => ret
      end
  | None => ret
  end.

(** *** Occurrences of the pattern, in the words of the specification *)

(** [CWE-] with the letters in any case. *)
Definition cwe_prefix (pfx : str) : Prop :=
  ∃ c1 c2 c3,
    pfx = [c1; c2; c3; of_ascii "-"]
    ∧ ieq c1 (of_ascii "C") = true ∧ ieq c2 (of_ascii "W") = true
    ∧ ieq c3 (of_ascii "E") = true.

(** [s] reads [pre], then [CWE-] in any case of the letters, then the
    decimal digits [ds], then [post]. *)
Definition cwe_occurrence (s pre pfx ds post : str) : Prop :=
  s = pre ++ pfx ++ ds ++ post
  ∧ cwe_prefix pfx
  ∧ ds ≠ []
  ∧ forallb isdecimal ds = true.

(** No occurrence starts further to the left. *)
Definition leftmost (s pre : str) : Prop :=
  ∀ pre' pfx' ds' post',
    cwe_occurrence s pre' pfx' ds' post' → (length pre <= length pre')%nat.

(** The digits are all the digits that follow the prefix. *)
Definition digits_end (post : str) : Prop :=
  match post with
  | [] => True
  | c :: _ => isdecimal c = false
  end.

(** The characters of an identifier have the upper case one expects: a
    character that matches a letter of the prefix has this letter as its
    upper case, and [-] and the decimal digits are their own upper case. *)
Definition plain_upper : Prop :=
  (∀ c pat, pat ∈ of_string "CWE" → ieq c pat = true → toupper_full c = [pat])
  ∧ toupper_full (of_ascii "-") = [of_ascii "-"]
  ∧ ∀ d, isdecimal d = true → toupper_full d = [d].

End Classifier.

End RulesText.

(** ** The other functions of [app/projects/util.py] *)
Module ProjectsRest.
Import Projects.

(** *** Archives *)

(** What the zip library gives for a path: [is_zipfile] is false, or it is
    true and [ZipFile(zip_path, "r")] raises [BadZipFile] (the file has the
    signature of an archive and cannot be read), or [infolist()] gives the
    entries, of which the function reads the [flag_bits]. *)
Inductive zip_view := NotZip | Unreadable | Entries (flag_bits : list Z).

(** The loop over the entries: the first entry with bit 0 of its flags set
    sets the error and leaves the loop ([break]). *)
Fixpoint check_entries (infolist : list Z) (error : bool) (msg : string) : bool * string :=
  match infolist with
  | [] => (error, msg)
  | flag_bits :: rest =>
      if Z.land flag_bits 1 =? 0 then check_entries rest error msg
      else (true, "encrypted zip file"%string)
  end.

(** [check_zipfile]: the pair [(error, msg)], or [None] when the library
    raises. *)
Definition check_zipfile (zip : zip_view) : option (bool * string) :=
  let error := false in
  let msg := EmptyString in
  match zip with
  | NotZip => Some (true, "invalid zip file"%string)
  | Unreadable => None
  | Entries infolist => Some (check_entries infolist error msg)
  end.

(** *** Supported languages of a project *)

(** The two loops of [top_supported_language_lines_counts]. *)
Definition append_supported (supported_languages : list Rules.SupportedLanguage)
    (languages : list LanguageLinesCount) (ret : list Rules.SupportedLanguage)
  : list Rules.SupportedLanguage :=
  fold_left
    (fun ret c_lang =>
       fold_left
         (fun ret c_sl =>
            if String.eqb (PyStr.lower (Rules.sl_name c_sl)) (PyStr.lower (language c_lang))
            then ret ++ [c_sl] else ret)
         supported_languages ret)
    languages ret.

(** [supported_languages] stands for [SupportedLanguage.query.all()]. *)
Definition top_supported_language_lines_counts
    (supported_languages : list Rules.SupportedLanguage) (project_lc : ProjectLinesCount)
  : list Rules.SupportedLanguage :=
  let ret := [] in
  let languages := PyList.sorted code_count (language_lines_counts project_lc) true in
  append_supported supported_languages languages ret.

(** *** Projects of a user *)

Section UserProjects.
Context {Role : Type}.
(** The [id] attribute of a project row, which the record of the data model
    does not carry. *)
Variable project_id : Project -> Z.

(** [Team.query.filter(Team.members.any(username=u)).all()]: the rows of
    the table that have the member, in the order of the table. *)
Definition user_teams_all (table : gmap Z (@Team Role)) (u : string) : list (@Team Role) :=
  snd <$> map_to_list (filter (fun kt => members_any (snd kt) u = true) table).

(** [get_user_projects_ids]. [list(set(l))] is a list of the elements of
    the set, each once, in an order the language does not fix; the model
    has the order of [elements]. *)
Definition get_user_projects_ids (table : gmap Z (@Team Role)) (current_user : @User Role)
  : list Z :=
  let user_teams := user_teams_all table (username current_user) in
  let projects_id_list :=
    flat_map (fun team => List.map project_id (projects team)) user_teams in
  elements (list_to_set projects_id_list : gset Z).

End UserProjects.

End ProjectsRest.

(** ** The other functions of [grepmarx/rules/util.py] *)
Module RulesRest.
Import PyUnicode.

(** *** Regular expressions, for [re.search] as a test *)

(** The expressions the pattern of [validate_languages_rules] is made of:
    [\d] is the class of the decimal digits, [Chr c] a character without
    case. *)
Inductive regex :=
| Void
| Eps
| Digit
| Chr (c : N)
| Cat (r1 r2 : regex)
| Alt (r1 r2 : regex)
| Star (r : regex).

Fixpoint nullable (r : regex) : bool :=
  match r with
  | Void => false
  | Eps => true
  | Digit => false
  | Chr _ => false
  | Cat r1 r2 => nullable r1 && nullable r2
  | Alt r1 r2 => nullable r1 || nullable r2
  | Star _ => true
  end.

(** [r+] *)
Definition Plus (r : regex) : regex := Cat r (Star r).

(** An expression that has [Void] where it needs a string: its language is
    empty. *)
Fixpoint void (r : regex) : bool :=
  match r with
  | Void => true
  | Eps | Digit | Chr _ | Star _ => false
  | Cat r1 r2 => void r1 || void r2
  | Alt r1 r2 => void r1 && void r2
  end.

(** The pattern [(\d+,)*\d+] of [validate_languages_rules]. *)
Definition rules_pattern : regex :=
  Cat (Star (Cat (Plus Digit) (Chr (of_ascii ",")))) (Plus Digit).

(** *** Rule pack forms *)

Definition no_language_message : string :=
  "Please define at least one associated language for the rule pack".

Definition no_rule_message : string :=
  "Please define at least one rule for the rule pack".

Section Forms.
Context `{Database}.

Fixpoint deriv (r : regex) (c : N) : regex :=
  match r with
  | Void => Void
  | Eps => Void
  | Digit => if isdecimal c then Eps else Void
  | Chr c' => if N.eqb c' c then Eps else Void
  | Cat r1 r2 =>
      if nullable r1 then Alt (Cat (deriv r1 c) r2) (deriv r2 c)
      else Cat (deriv r1 c) r2
  | Alt r1 r2 => Alt (deriv r1 c) (deriv r2 c)
  | Star r1 => Cat (deriv r1 c) (Star r1)
  end.

(** The text has a decimal digit. *)
Definition has_digit (s : str) : Prop :=
  ∃ pre d post, s = pre ++ d :: post ∧ isdecimal d = true.

(** Some prefix of [s] is in the language of [r]. *)
Fixpoint match_prefix (r : regex) (s : str) : bool :=
  nullable r ||
  match s with
  | [] => false
  | c :: s' => match_prefix (deriv r c) s'
  end.

(** [bool(re.search(r, s))] *)
Fixpoint search (r : regex) (s : str) : bool :=
  match_prefix r s ||
  match s with
  | [] => false
  | _ :: s' => search r s'
  end.

(** [validate_languages_rules]: [languages] is [form.languages.data] and
    [rules] is [form.rules.data], a text. *)
Definition validate_languages_rules {A : Type} (languages : list A) (rules : str)
  : option string :=
  let err := None in
  let err := if (length languages <=? 0)%nat then Some no_language_message else err in
  let err := if negb (search rules_pattern rules) then Some no_rule_message else err in
  err.

End Forms.

(** [sub in s]: [sub] occurs in [s]. *)
Fixpoint occurs (sub s : string) : bool :=
  String.prefix sub s ||
  match s with
  | EmptyString => false
  | String _ s' => occurs sub s'
  end.

Section CommaSeparated.
(** The builtin [int] on a string: the integer, or [None] for [ValueError]. *)
Variable int : string -> option Z.

(** [filter(None, l)] on strings keeps the strings that are not empty. *)
Definition filter_none (l : list string) : list string :=
  List.filter (fun x => negb (String.eqb x EmptyString)) l.

(** [dict.fromkeys(l)]: the keys in the order of their first occurrence,
    each with the value [None]. *)
Definition fromkeys (l : list string) : PyDict.t unit :=
  fold_left (fun d k => PyDict.setitem k tt d) l [].

(** The loop that replaces each element by its integer; the first element
    that is no integer raises. *)
Fixpoint to_integers (r_list : list string) : option (list Z) :=
  match r_list with
  | [] => Some []
  | x :: rest =>
      match int x with
      | Some n =>
          match to_integers rest with
          | Some l => Some (n :: l)
          | None => None
          end
      | None => None
      end
  end.

Definition comma_separated_to_list (comma_separated : string) : option (list Z) :=
  let r_list := PyDict.keys (fromkeys (filter_none (PyStr.split "," comma_separated))) in
  to_integers r_list.

End CommaSeparated.

End RulesRest.

(** ** Sample values, for the instances the theorems are applied to *)
Module Samples.

Definition severities : Projects.Constants :=
  {| Projects.SEVERITY_CRITICAL := "critical";
     Projects.SEVERITY_HIGH := "high";
     Projects.SEVERITY_MEDIUM := "medium";
     Projects.SEVERITY_LOW := "low" |}.

Definition lines (n : string) (code : Z) : Projects.LanguageLinesCount :=
  {| Projects.language := n;
     Projects.file_count := 1;
     Projects.line_count := code + 2;
     Projects.blank_count := 1;
     Projects.comment_count := 1;
     Projects.code_count := code;
     Projects.complexity_count := 0 |}.

Definition three_languages : Projects.ProjectLinesCount :=
  {| Projects.total_file_count := 3;
     Projects.total_line_count := 29;
     Projects.total_blank_count := 3;
     Projects.total_comment_count := 3;
     Projects.total_code_count := 23;
     Projects.total_complexity_count := 0;
     Projects.language_lines_counts := [lines "Python" 7; lines "C" 9; lines "Go" 7] |}.

(** No vulnerability, and vulnerable dependencies at two tiers. *)
Definition two_tiers : Projects.Analysis :=
  {| Projects.vulnerabilities := [];
     Projects.vulnerable_dependencies :=
       [ {| Projects.dep_severity := "high" |};
         {| Projects.dep_severity := "critical" |} ] |}.

(** Vulnerabilities and vulnerable dependencies at one tier, and an analysis
    that has these and more. *)
Definition one_tier : Projects.Analysis :=
  {| Projects.vulnerabilities :=
       [ {| Projects.vuln_severity := "high"; Projects.occurences := [] |} ];
     Projects.vulnerable_dependencies := [ {| Projects.dep_severity := "high" |} ] |}.

Definition more_tiers : Projects.Analysis :=
  {| Projects.vulnerabilities :=
       [ {| Projects.vuln_severity := "critical"; Projects.occurences := [] |};
         {| Projects.vuln_severity := "high"; Projects.occurences := [] |} ];
     Projects.vulnerable_dependencies :=
       [ {| Projects.dep_severity := "low" |}; {| Projects.dep_severity := "high" |} ] |}.

Definition scanned : Projects.Project :=
  {| Projects.name := "demo";
     Projects.analysis := Some two_tiers;
     Projects.project_lines_count := Some three_languages |}.

Definition unscanned : Projects.Project :=
  {| Projects.name := "demo";
     Projects.analysis := None;
     Projects.project_lines_count := Some three_languages |}.



(** Constants and a small checkout for the rule synchronizer. *)
Definition rule_constants : Rules.Constants string :=
  {| Rules.RULES_PATH := "/data/rules/";
     Rules.SEVERITY_LOW := "low";
     Rules.SEVERITY_MEDIUM := "medium";
     Rules.TOP40_CWE_SEVERITIES := {[ "CWE-79"%string := "high"%string ]};
     Rules.os_path_sep := "/" |}.

Definition known_languages : list Rules.SupportedLanguage :=
  [ {| Rules.sl_name := "Python" |}; {| Rules.sl_name := "Go" |} ].

Definition known_repositories : list Rules.RuleRepository :=
  [ {| Rules.repo_name := "community" |} ].

Definition xss_entry : Rules.RuleEntry :=
  {| Rules.entry_id := "xss";
     Rules.entry_languages := Some ["python"%string];
     Rules.entry_metadata :=
       Some {| Rules.md_cwe := Some "CWE-79: Cross-site scripting"%string;
               Rules.md_owasp := Some (Rules.OwaspList ["A7:2017"%string; "A3:2021"%string]) |} |}.

Definition xss_file : string * Rules.safe_load_result :=
  ("/data/rules/community/python/xss.yaml"%string, Rules.Parsed (Some [xss_entry])).

Definition broken_file : string * Rules.safe_load_result :=
  ("/data/rules/community/python/broken.yaml"%string, Rules.ParseFailure).

Definition empty_store : Rules.RuleStore (Severity := string) :=
  {| Rules.committed := []; Rules.session := [] |}.

(** The rule the synchronization of [xss_file] creates in the empty store. *)
Definition xss_rule : Rules.Rule (Severity := string) :=
  {| Rules.rule_id := 1;
     Rules.title := "xss";
     Rules.file_path := "community/python/xss.yaml";
     Rules.repository := Some {| Rules.repo_name := "community" |};
     Rules.category := "python";
     Rules.cwe := Some "CWE-79: Cross-site scripting"%string;
     Rules.owasp := Some "A7:2017"%string;
     Rules.severity := Some "high"%string;
     Rules.languages := [ {| Rules.sl_name := "Python" |} ] |}.

Definition xss_store : Rules.RuleStore (Severity := string) :=
  {| Rules.committed := [xss_rule]; Rules.session := [xss_rule] |}.

(** The rule file after an upstream edit of its CWE, and the store after
    its synchronization from [xss_store]. *)
Definition xss_entry_edited : Rules.RuleEntry :=
  {| Rules.entry_id := "xss";
     Rules.entry_languages := Some ["python"%string];
     Rules.entry_metadata :=
       Some {| Rules.md_cwe := Some "CWE-80: Basic XSS"%string;
               Rules.md_owasp := Some (Rules.OwaspList ["A7:2017"%string; "A3:2021"%string]) |} |}.

Definition xss_file_edited : string * Rules.safe_load_result :=
  ("/data/rules/community/python/xss.yaml"%string, Rules.Parsed (Some [xss_entry_edited])).

Definition xss_rule_edited : Rules.Rule (Severity := string) :=
  {| Rules.rule_id := 1;
     Rules.title := "xss";
     Rules.file_path := "community/python/xss.yaml";
     Rules.repository := Some {| Rules.repo_name := "community" |};
     Rules.category := "python";
     Rules.cwe := Some "CWE-80: Basic XSS"%string;
     Rules.owasp := Some "A7:2017"%string;
     Rules.severity := Some "medium"%string;
     Rules.languages := [ {| Rules.sl_name := "Python" |}; {| Rules.sl_name := "Python" |} ] |}.

Definition edited_store : Rules.RuleStore (Severity := string) :=
  {| Rules.committed := [xss_rule_edited]; Rules.session := [xss_rule_edited] |}.

(** A second rule file of the checkout, and the store after its
    synchronization from [xss_store]. *)
Definition sqli_entry : Rules.RuleEntry :=
  {| Rules.entry_id := "sqli";
     Rules.entry_languages := Some ["go"%string];
     Rules.entry_metadata :=
       Some {| Rules.md_cwe := Some "CWE-89: SQL injection"%string;
               Rules.md_owasp := Some (Rules.OwaspStr "A1:2017") |} |}.

Definition sqli_file : string * Rules.safe_load_result :=
  ("/data/rules/community/go/sqli.yaml"%string, Rules.Parsed (Some [sqli_entry])).

Definition sqli_rule : Rules.Rule (Severity := string) :=
  {| Rules.rule_id := 2;
     Rules.title := "sqli";
     Rules.file_path := "community/go/sqli.yaml";
     Rules.repository := Some {| Rules.repo_name := "community" |};
     Rules.category := "go";
     Rules.cwe := Some "CWE-89: SQL injection"%string;
     Rules.owasp := Some "A1:2017"%string;
     Rules.severity := Some "medium"%string;
     Rules.languages := [ {| Rules.sl_name := "Go" |} ] |}.

Definition two_rules_store : Rules.RuleStore (Severity := string) :=
  {| Rules.committed := [xss_rule; sqli_rule]; Rules.session := [xss_rule; sqli_rule] |}.

(** A part of the Unicode database: the ASCII letters with their cases, and
    the decimal digits of ASCII and the Arabic-Indic digits. *)
Definition unicode : PyUnicode.Database :=
  {| PyUnicode.isdecimal c :=
       ((48 <=? c) && (c <=? 57) || (1632 <=? c) && (c <=? 1641))%N;
     PyUnicode.tolower c := (if (65 <=? c) && (c <=? 90) then c + 32 else c)%N;
     PyUnicode.toupper_full c := [(if (97 <=? c) && (c <=? 122) then c - 32 else c)%N] |}.

Definition text_constants : RulesText.Constants string :=
  {| RulesText.SEVERITY_LOW := "low";
     RulesText.SEVERITY_MEDIUM := "medium";
     RulesText.TOP40_CWE_SEVERITIES := {[ PyUnicode.of_string "CWE-79" := "high"%string ]} |}.

(** The integer a string of ASCII digits writes, for the instances of
    [int]. *)
Fixpoint digits_value (s : string) (acc : Z) : option Z :=
  match s with
  | EmptyString => Some acc
  | String c s' =>
      if PyStr.is_digit c then digits_value s' (10 * acc + (Z.of_nat (nat_of_ascii c) - 48))
      else None
  end.

Definition decimal (s : string) : option Z :=
  match s with
  | EmptyString => None
  | _ => digits_value s 0
  end.

End Samples.

(** ** Properties of [sorted] *)
Module PyListFacts.
Import PyList.

Section Sorting.
Context {A : Type} (key : A -> Z).

Lemma insert_by_perm (x : A) (l : list A) : Permutation (insert_by key x l) (x :: l).
Proof.
  induction l as [|y l IH]; simpl; [reflexivity|].
  destruct (key x <=? key y); [reflexivity|].
  rewrite IH. apply perm_swap.
Qed.

Lemma stable_sort_perm (l : list A) : Permutation (stable_sort key l) l.
Proof.
  induction l as [|x l IH]; simpl; [reflexivity|].
  rewrite insert_by_perm, IH. reflexivity.
Qed.

Lemma insert_by_sorted (x : A) (l : list A) :
  StronglySorted (key_le key) l → StronglySorted (key_le key) (insert_by key x l).
Proof.
  induction 1 as [|y l Hs IH Hall]; simpl.
  - repeat constructor.
  - destruct (Z.leb_spec (key x) (key y)) as [Hle|Hlt].
    + constructor; [constructor; assumption|].
      constructor; [exact Hle|].
      eapply Forall_impl; [exact Hall|]. unfold key_le. intros z Hz. lia.
    + constructor; [exact IH|].
      rewrite (insert_by_perm x l). constructor; [unfold key_le; lia | exact Hall].
Qed.

Lemma stable_sort_sorted (l : list A) : StronglySorted (key_le key) (stable_sort key l).
Proof.
  induction l as [|x l IH]; simpl; [constructor | apply insert_by_sorted, IH].
Qed.

Lemma with_key_cons (k : Z) (x : A) (l : list A) :
  with_key key k (x :: l) = if decide (key x = k) then x :: with_key key k l else with_key key k l.
Proof. unfold with_key. rewrite filter_cons. reflexivity. Qed.

Lemma with_key_app (k : Z) (l1 l2 : list A) :
  with_key key k (l1 ++ l2) = with_key key k l1 ++ with_key key k l2.
Proof. unfold with_key. apply filter_app. Qed.

Lemma with_key_rev (k : Z) (l : list A) : with_key key k (rev l) = rev (with_key key k l).
Proof.
  induction l as [|x l IH]; simpl; [reflexivity|].
  rewrite with_key_app, IH, !with_key_cons. unfold with_key at 2. simpl.
  destruct (decide (key x = k)); simpl; [reflexivity | apply app_nil_r].
Qed.

Lemma insert_by_with_key (k : Z) (x : A) (l : list A) :
  with_key key k (insert_by key x l) = with_key key k (x :: l).
Proof.
  induction l as [|y l IH]; simpl; [reflexivity|].
  destruct (Z.leb_spec (key x) (key y)) as [Hle|Hlt]; [reflexivity|].
  rewrite (with_key_cons k y), IH, !with_key_cons.
  destruct (decide (key y = k)), (decide (key x = k)); try reflexivity. lia.
Qed.

(** The sort is stable: the elements with equal keys keep their order. *)
Lemma stable_sort_with_key (k : Z) (l : list A) :
  with_key key k (stable_sort key l) = with_key key k l.
Proof.
  induction l as [|x l IH]; simpl; [reflexivity|].
  rewrite insert_by_with_key, !with_key_cons, IH. reflexivity.
Qed.

Lemma sorted_rev (l : list A) : StronglySorted (key_le key) l → StronglySorted (key_ge key) (rev l).
Proof.
  induction 1 as [|x l Hs IH Hall]; simpl; [constructor|].
  apply StronglySorted_app_2; [|exact IH|repeat constructor].
  intros y z Hy Hz. apply list_elem_of_singleton in Hz. subst z.
  apply list_elem_of_In, in_rev, list_elem_of_In in Hy.
  rewrite Forall_forall in Hall. apply Hall. exact Hy.
Qed.

(** [sorted(l, key=key, reverse=True)] is a rearrangement of [l] in
    descending order of the keys that keeps the order of equal keys. *)
Lemma sorted_reverse_perm (l : list A) : Permutation (sorted key l true) l.
Proof.
  unfold sorted. rewrite <- Permutation_rev, stable_sort_perm, <- Permutation_rev.
  reflexivity.
Qed.

Lemma sorted_reverse_descending (l : list A) : StronglySorted (key_ge key) (sorted key l true).
Proof. unfold sorted. apply sorted_rev, stable_sort_sorted. Qed.

Lemma sorted_reverse_stable (k : Z) (l : list A) :
  with_key key k (sorted key l true) = with_key key k l.
Proof.
  unfold sorted. rewrite with_key_rev, stable_sort_with_key, with_key_rev.
  apply rev_involutive.
Qed.

Lemma slice_to_nonneg (l : list A) (stop : Z) :
  0 <= stop → slice_to l stop = take (Z.to_nat stop) l.
Proof.
  intros Hstop. unfold slice_to. destruct (Z.leb_spec 0 stop); [reflexivity | lia].
Qed.

(** A negative stop leaves out that many elements at the end. *)
Lemma slice_to_negative (l : list A) (stop : Z) :
  stop < 0 → slice_to l stop = take (length l - Z.to_nat (- stop)) l.
Proof.
  intros Hstop. unfold slice_to. destruct (Z.leb_spec 0 stop); [lia|].
  f_equal. lia.
Qed.

End Sorting.

End PyListFacts.

(** ** Properties of [app/projects/util.py] *)
Module ProjectsFacts.
Import Projects.

(** *** Occurrences *)

Lemma count_occurences_loop_sum (vulns : list Vulnerability) (n : Z) :
  count_occurences_loop vulns n
  = n + Z.of_nat (sum_list_with (fun v => length (occurences v)) vulns).
Proof.
  revert n. induction vulns as [|v vulns IH]; intros n; simpl.
  - lia.
  - rewrite IH. lia.
Qed.

(** C10. [count_occurences] returns 0 for a project without analysis, and
    otherwise the sum, over the vulnerabilities of the analysis, of the
    number of occurrences of each; it is a total function of the project. *)
Theorem count_occurences_spec (project : Project) :
  count_occurences project =
  match analysis project with
  | None => 0
  | Some a =>
      Z.of_nat (sum_list_with (fun v => length (occurences v)) (vulnerabilities a))
  end.
Proof.
  unfold count_occurences. destruct (analysis project) as [a|]; [|reflexivity].
  rewrite count_occurences_loop_sum. lia.
Qed.

(** *** Risk level *)

Lemma has_severity_loop_present (severities : list string) (s : string) :
  has_severity_loop severities s = tier_present severities s.
Proof.
  unfold tier_present. induction severities as [|x l IH]; cbn [has_severity_loop].
  - symmetry. apply bool_decide_eq_false_2. apply not_elem_of_nil.
  - destruct (String.eqb_spec x s) as [->|Hne].
    + symmetry. apply bool_decide_eq_true_2. apply list_elem_of_here.
    + rewrite IH. apply bool_decide_ext. rewrite elem_of_cons.
      split; [tauto | intros [Heq|Hin]; [congruence | assumption]].
Qed.

(** C4. The risk level is 0 when the project has no analysis, when it has
    no lines count, and when its total code count is not strictly positive,
    whatever the analysis holds. *)
Theorem calculate_risk_level_missing_prerequisite {K : Constants} (project : Project) :
  analysis project = None
  ∨ project_lines_count project = None
  ∨ (∃ plc, project_lines_count project = Some plc ∧ total_code_count plc <= 0) →
  calculate_risk_level project = 0.
Proof.
  unfold calculate_risk_level.
  intros [Ha | [Hp | (plc & Hp & Hle)]].
  - rewrite Ha. reflexivity.
  - rewrite Hp. destruct (analysis project); reflexivity.
  - rewrite Hp. destruct (analysis project); [|reflexivity].
    destruct (Z.ltb_spec 0 (total_code_count plc)); [lia | reflexivity].
Qed.

(** A project without analysis. *)
Lemma calculate_risk_level_missing_prerequisite_witness :
  calculate_risk_level (K := Samples.severities) Samples.unscanned = 0.
Proof.
  apply (calculate_risk_level_missing_prerequisite (K := Samples.severities) Samples.unscanned).
  left. reflexivity.
Defined.

Section Distinct.
Context {K : Constants}.
Hypothesis distinct : distinct_severities.

Lemma severities_differ :
  String.eqb SEVERITY_CRITICAL SEVERITY_HIGH = false
  ∧ String.eqb SEVERITY_CRITICAL SEVERITY_MEDIUM = false
  ∧ String.eqb SEVERITY_CRITICAL SEVERITY_LOW = false
  ∧ String.eqb SEVERITY_HIGH SEVERITY_MEDIUM = false
  ∧ String.eqb SEVERITY_HIGH SEVERITY_LOW = false
  ∧ String.eqb SEVERITY_MEDIUM SEVERITY_LOW = false.
Proof using distinct.
  pose proof distinct as Hd. unfold distinct_severities in Hd.
  rewrite !NoDup_cons, !not_elem_of_cons in Hd.
  destruct Hd as ((? & ? & ? & _) & (? & ? & _) & (? & _) & _).
  repeat split; apply String.eqb_neq; assumption.
Qed.

Lemma s2rl_base_items :
  s2rl_base =
  [(SEVERITY_CRITICAL, 75); (SEVERITY_HIGH, 60); (SEVERITY_MEDIUM, 40); (SEVERITY_LOW, 20)].
Proof using distinct.
  destruct severities_differ as (H1 & H2 & H3 & H4 & H5 & H6).
  unfold s2rl_base, PyDict.display. simpl.
  rewrite H1. simpl. rewrite H2, H4. simpl. rewrite H3, H5, H6. reflexivity.
Qed.

Lemma s2rl_adjust_items :
  s2rl_adjust =
  [(SEVERITY_CRITICAL, 10); (SEVERITY_HIGH, 8); (SEVERITY_MEDIUM, 5); (SEVERITY_LOW, 2)].
Proof using distinct.
  destruct severities_differ as (H1 & H2 & H3 & H4 & H5 & H6).
  unfold s2rl_adjust, PyDict.display. simpl.
  rewrite H1. simpl. rewrite H2, H4. simpl. rewrite H3, H5, H6. reflexivity.
Qed.

Lemma base_loop_score (a : Analysis) :
  base_loop a s2rl_base (PyDict.keys s2rl_base) 0 = base_score a.
Proof using distinct.
  destruct severities_differ as (H1 & H2 & H3 & H4 & H5 & H6).
  rewrite s2rl_base_items. unfold base_score, vuln_severities, s2rl_at. simpl.
  unfold has_vuln_with_severity. rewrite !has_severity_loop_present.
  unfold s2rl_at. simpl.
  rewrite !String.eqb_refl, H1, H2, H3, H4, H5, H6. reflexivity.
Qed.

Lemma adjust_loop_sum (a : Analysis) (level : Z) :
  adjust_loop a s2rl_adjust (PyDict.keys s2rl_adjust) level = level + summed_increments a.
Proof using distinct.
  destruct severities_differ as (H1 & H2 & H3 & H4 & H5 & H6).
  rewrite s2rl_adjust_items. unfold summed_increments, dep_severities, s2rl_at. simpl.
  unfold has_vuln_dep_with_severity. rewrite !has_severity_loop_present.
  unfold s2rl_at. simpl.
  rewrite !String.eqb_refl, H1, H2, H3, H4, H5, H6.
  repeat match goal with
         | |- context [tier_present ?l ?s] => destruct (tier_present l s)
         end; lia.
Qed.

(** C1, as the code has it. For a project with an analysis and a strictly
    positive total code count, the risk level is the base value of the
    highest tier among the vulnerabilities (75, 60, 40, 20, or 0 when no
    vulnerability is at one of the four tiers) plus the increments of all
    the tiers present among the vulnerable dependencies (10, 8, 5, 2), one
    increment for each tier present. *)
Theorem calculate_risk_level_scored (project : Project) (a : Analysis)
    (plc : ProjectLinesCount) :
  analysis project = Some a →
  project_lines_count project = Some plc →
  0 < total_code_count plc →
  calculate_risk_level project = base_score a + summed_increments a.
Proof using distinct.
  intros Ha Hp Hpos. unfold calculate_risk_level. rewrite Ha, Hp.
  destruct (Z.ltb_spec 0 (total_code_count plc)); [|lia].
  rewrite base_loop_score. apply adjust_loop_sum.
Qed.

(** The level stays within the documented range. *)
Lemma summed_increments_range (a : Analysis) : 0 <= summed_increments a <= 25.
Proof.
  unfold summed_increments.
  repeat match goal with
         | |- context [tier_present ?l ?s] => destruct (tier_present l s)
         end; lia.
Qed.

Lemma base_score_range (a : Analysis) : 0 <= base_score a <= 75.
Proof.
  unfold base_score.
  repeat match goal with
         | |- context [tier_present ?l ?s] => destruct (tier_present l s)
         end; lia.
Qed.

Lemma calculate_risk_level_range (project : Project) :
  0 <= calculate_risk_level project <= 100.
Proof using distinct.
  unfold calculate_risk_level.
  destruct (analysis project) as [a|]; [|lia].
  destruct (project_lines_count project) as [plc|]; [|lia].
  destruct (0 <? total_code_count plc); [|lia].
  rewrite base_loop_score, adjust_loop_sum.
  pose proof (base_score_range a). pose proof (summed_increments_range a). lia.
Qed.

End Distinct.

Lemma sample_severities_distinct : distinct_severities (K := Samples.severities).
Proof.
  unfold distinct_severities. apply (bool_decide_unpack _). vm_compute. exact I.
Qed.

(** A project with three languages and vulnerable dependencies at two
    tiers. *)
Lemma calculate_risk_level_scored_witness :
  calculate_risk_level (K := Samples.severities) Samples.scanned
  = base_score (K := Samples.severities) Samples.two_tiers
    + summed_increments (K := Samples.severities) Samples.two_tiers.
Proof.
  apply (calculate_risk_level_scored (K := Samples.severities)
           sample_severities_distinct Samples.scanned Samples.two_tiers
           Samples.three_languages).
  - reflexivity.
  - reflexivity.
  - reflexivity.
Defined.

(** C1 fails as stated: with vulnerable dependencies at the CRITICAL and at
    the HIGH tier the code adds both increments (18), not only the one of
    the highest tier (10). *)
Lemma calculate_risk_level_adds_every_tier :
  distinct_severities (K := Samples.severities)
  ∧ analysis Samples.scanned = Some Samples.two_tiers
  ∧ project_lines_count Samples.scanned = Some Samples.three_languages
  ∧ 0 < total_code_count Samples.three_languages
  ∧ calculate_risk_level (K := Samples.severities) Samples.scanned = 18
  ∧ base_score (K := Samples.severities) Samples.two_tiers
    + highest_tier_increment (K := Samples.severities) Samples.two_tiers = 10
  ∧ calculate_risk_level (K := Samples.severities) Samples.scanned
    ≠ base_score (K := Samples.severities) Samples.two_tiers
      + highest_tier_increment (K := Samples.severities) Samples.two_tiers.
Proof.
  split; [apply sample_severities_distinct|].
  repeat split; try (vm_compute; reflexivity).
  vm_compute. discriminate.
Qed.

(** *** The line-count aggregator *)

Lemma sum_counter_app (counter : LanguageLinesCount -> Z) (l1 l2 : list LanguageLinesCount) :
  sum_counter counter (l1 ++ l2) = sum_counter counter l1 + sum_counter counter l2.
Proof.
  unfold sum_counter. induction l1 as [|x l1 IH]; simpl; [reflexivity|].
  rewrite IH. lia.
Qed.

Lemma load_step_totals (plc : ProjectLinesCount) (c : SccEntry) :
  totals_agree plc → totals_agree (load_step plc c).
Proof.
  unfold totals_agree. intros (H1 & H2 & H3 & H4 & H5 & H6). simpl.
  rewrite !sum_counter_app. simpl. rewrite H1, H2, H3, H4, H5, H6.
  repeat split; lia.
Qed.

Lemma load_fold (l : list SccEntry) (acc : ProjectLinesCount) :
  totals_agree acc →
  totals_agree (fold_left load_step l acc)
  ∧ language_lines_counts (fold_left load_step l acc)
    = language_lines_counts acc ++ map new_language_lines_count l.
Proof.
  revert acc. induction l as [|c l IH]; intros acc Hacc; simpl.
  - split; [assumption|]. rewrite app_nil_r. reflexivity.
  - destruct (IH (load_step acc c) (load_step_totals acc c Hacc)) as [Ht Hl].
    split; [assumption|]. rewrite Hl. simpl. rewrite <- app_assoc. reflexivity.
Qed.

(** C6. For every tool output, each of the six totals of the
    [ProjectLinesCount] the aggregator returns is the sum of that counter
    over its [LanguageLinesCount] entries, and the entries are those of the
    tool output, one for each element and in its order. *)
Theorem load_project_lines_count_totals (scc_result : list SccEntry) :
  let project_lc := load_project_lines_count scc_result in
  language_lines_counts project_lc = map new_language_lines_count scc_result
  ∧ total_file_count project_lc = sum_counter file_count (language_lines_counts project_lc)
  ∧ total_line_count project_lc = sum_counter line_count (language_lines_counts project_lc)
  ∧ total_blank_count project_lc = sum_counter blank_count (language_lines_counts project_lc)
  ∧ total_comment_count project_lc
    = sum_counter comment_count (language_lines_counts project_lc)
  ∧ total_code_count project_lc = sum_counter code_count (language_lines_counts project_lc)
  ∧ total_complexity_count project_lc
    = sum_counter complexity_count (language_lines_counts project_lc).
Proof.
  assert (Hempty : totals_agree empty_project_lines_count).
  { unfold totals_agree. simpl. repeat split; reflexivity. }
  destruct (load_fold scc_result empty_project_lines_count Hempty) as [Ht Hl].
  cbv zeta. split; [exact Hl | exact Ht].
Qed.

(** *** The languages with the most code *)

(** C8. For a [top_number] that is not negative, a number of entries,
    [top_language_lines_counts] returns the first [top_number] entries of
    the collection sorted by code count in descending order, the entries
    with equal code counts in their original order: at most [top_number]
    entries, themselves in descending order. The function reads the
    collection and builds a new list. *)
Theorem top_language_lines_counts_spec (project_lc : ProjectLinesCount) (top_number : Z) :
  0 <= top_number →
  let ranked := PyList.sorted code_count (language_lines_counts project_lc) true in
  top_language_lines_counts project_lc top_number = take (Z.to_nat top_number) ranked
  ∧ Z.of_nat (length (top_language_lines_counts project_lc top_number)) <= top_number
  ∧ Permutation ranked (language_lines_counts project_lc)
  ∧ StronglySorted code_count_ge ranked
  ∧ (∀ k, with_code_count k ranked = with_code_count k (language_lines_counts project_lc))
  ∧ StronglySorted code_count_ge (top_language_lines_counts project_lc top_number).
Proof.
  intros Hn ranked. unfold top_language_lines_counts. fold ranked.
  rewrite PyListFacts.slice_to_nonneg by exact Hn.
  pose proof (PyListFacts.sorted_reverse_descending code_count
                (language_lines_counts project_lc)) as Hdesc.
  fold ranked in Hdesc.
  split; [reflexivity|].
  split; [rewrite length_take; lia|].
  split; [apply PyListFacts.sorted_reverse_perm|].
  split; [exact Hdesc|].
  split; [intros k; apply (PyListFacts.sorted_reverse_stable code_count)|].
  rewrite <- (take_drop (Z.to_nat top_number) ranked) in Hdesc.
  apply StronglySorted_app_1_l in Hdesc. exact Hdesc.
Qed.

(** The two languages with the most code among three, two of them with the
    same code count. *)
Lemma top_language_lines_counts_spec_witness :
  top_language_lines_counts Samples.three_languages 2
  = [Samples.lines "C" 9; Samples.lines "Python" 7].
Proof.
  destruct (top_language_lines_counts_spec Samples.three_languages 2) as [Heq _].
  - lia.
  - rewrite Heq. reflexivity.
Defined.

(** *** Access *)

Section AccessFacts.
Context {Role : Type} `{!EqDecision Role} (ROLE_ADMIN : Role).

Lemma members_any_is_member (u : @User Role) (t : @Team Role) :
  members_any t (username u) = true ↔ is_member u t.
Proof.
  unfold members_any, is_member. rewrite existsb_exists.
  split; intros (m & Hin & Heq); exists m.
  - apply list_elem_of_In in Hin. apply String.eqb_eq in Heq. auto.
  - apply list_elem_of_In in Hin. apply String.eqb_eq in Heq. auto.
Qed.

Lemma projects_any_named (n : string) (t : @Team Role) :
  projects_any t n = true ↔ has_project_named n t.
Proof.
  unfold projects_any, has_project_named. rewrite existsb_exists.
  split; intros (q & Hin & Heq); exists q.
  - apply list_elem_of_In in Hin. apply String.eqb_eq in Heq. auto.
  - apply list_elem_of_In in Hin. apply String.eqb_eq in Heq. auto.
Qed.

Lemma elem_of_query_filter_set (table : gmap Z (@Team Role))
    (cond : @Team Role -> bool) (k : Z) :
  k ∈ query_filter_set table cond ↔ ∃ t, table !! k = Some t ∧ cond t = true.
Proof.
  unfold query_filter_set. rewrite elem_of_dom. unfold is_Some.
  split.
  - intros (t & Ht). apply map_lookup_filter_Some in Ht as [Ht Hc]. eauto.
  - intros (t & Ht & Hc). exists t. apply map_lookup_filter_Some. auto.
Qed.



End AccessFacts.



End ProjectsFacts.

(** ** Properties of [grepmarx/rules/util.py] *)
Module RulesFacts.
Import Rules.

#[local] Arguments String.append !_ _ / : simpl nomatch.

(** *** Characters *)

Lemma ieq_upper (c : ascii) :
  (ieq c "C" = true ↔ PyStr.upper_ascii c = "C"%char)
  ∧ (ieq c "W" = true ↔ PyStr.upper_ascii c = "W"%char)
  ∧ (ieq c "E" = true ↔ PyStr.upper_ascii c = "E"%char).
Proof.
  destruct c as [[] [] [] [] [] [] [] []]; vm_compute;
    (split; [|split]); split; congruence.
Qed.

Lemma upper_ascii_dash (c : ascii) : PyStr.upper_ascii c = "-"%char ↔ c = "-"%char.
Proof.
  destruct c as [[] [] [] [] [] [] [] []]; vm_compute; split; congruence.
Qed.

Lemma upper_ascii_digit (c : ascii) : PyStr.is_digit c = true → PyStr.upper_ascii c = c.
Proof.
  destruct c as [[] [] [] [] [] [] [] []]; vm_compute; congruence.
Qed.

(** *** Strings *)

Lemma upper_app (a b : string) : PyStr.upper (a +:+ b) = PyStr.upper a +:+ PyStr.upper b.
Proof. induction a as [|c a IH]; simpl; [reflexivity | rewrite IH; reflexivity]. Qed.

Lemma upper_digits (ds : string) : all_digits ds = true → PyStr.upper ds = ds.
Proof.
  induction ds as [|c ds IH]; simpl; [reflexivity|].
  intros Hd. apply andb_true_iff in Hd as [Hc Hds].
  rewrite (upper_ascii_digit c Hc), (IH Hds). reflexivity.
Qed.

Lemma digits_prefix_app (ds post : string) :
  all_digits ds = true → digits_end post → digits_prefix (ds +:+ post) = ds.
Proof.
  intros Hd Hend. induction ds as [|c ds IH]; simpl.
  - destruct post as [|c post]; simpl in *; [reflexivity | rewrite Hend; reflexivity].
  - simpl in Hd. apply andb_true_iff in Hd as [Hc Hds].
    rewrite Hc, (IH Hds). reflexivity.
Qed.

Lemma digits_prefix_nonempty (ds post : string) :
  all_digits ds = true → ds ≠ EmptyString → digits_prefix (ds +:+ post) ≠ EmptyString.
Proof.
  destruct ds as [|c ds]; [congruence|]. simpl. intros Hd _.
  apply andb_true_iff in Hd as [Hc _]. rewrite Hc. discriminate.
Qed.

Lemma digits_prefix_split (s : string) :
  ∃ post, s = digits_prefix s +:+ post
          ∧ all_digits (digits_prefix s) = true ∧ digits_end post.
Proof.
  induction s as [|c s (post & Hs & Hd & Hend)]; simpl.
  - exists EmptyString. repeat split.
  - destruct (PyStr.is_digit c) eqn:Hc.
    + exists post. simpl. rewrite Hc, Hd.
      split; [f_equal; exact Hs | split; [reflexivity | exact Hend]].
    + exists (String c s). simpl. repeat split. exact Hc.
Qed.

(** The prefixes that read [CWE-] in upper case are the four characters the
    pattern accepts. *)
Lemma cwe_prefix_chars (pfx : string) :
  PyStr.upper pfx = "CWE-"%string ↔
  ∃ c1 c2 c3 c4,
    pfx = String c1 (String c2 (String c3 (String c4 EmptyString)))
    ∧ ieq c1 "C" = true ∧ ieq c2 "W" = true ∧ ieq c3 "E" = true
    ∧ Ascii.eqb c4 "-" = true.
Proof.
  split.
  - destruct pfx as [|c1 [|c2 [|c3 [|c4 [|c5 rest]]]]]; simpl; try discriminate.
    intros Heq. injection Heq as H1 H2 H3 H4.
    exists c1, c2, c3, c4. split; [reflexivity|].
    destruct (ieq_upper c1) as (HC & _ & _).
    destruct (ieq_upper c2) as (_ & HW & _).
    destruct (ieq_upper c3) as (_ & _ & HE).
    rewrite HC, HW, HE, Ascii.eqb_eq, <- upper_ascii_dash. auto.
  - intros (c1 & c2 & c3 & c4 & -> & H1 & H2 & H3 & H4). simpl.
    destruct (ieq_upper c1) as (HC & _ & _).
    destruct (ieq_upper c2) as (_ & HW & _).
    destruct (ieq_upper c3) as (_ & _ & HE).
    apply HC in H1. apply HW in H2. apply HE in H3.
    apply Ascii.eqb_eq in H4. apply upper_ascii_dash in H4.
    rewrite H1, H2, H3, H4. reflexivity.
Qed.

(** *** The search *)

Lemma match_cwe_here_Some (s m : string) :
  match_cwe_here s = Some m →
  ∃ pfx ds post,
    m = pfx +:+ ds ∧ cwe_occurrence s EmptyString pfx ds post ∧ digits_end post.
Proof.
  unfold match_cwe_here.
  destruct s as [|c1 [|c2 [|c3 [|c4 rest]]]]; try discriminate.
  destruct (ieq c1 "C" && ieq c2 "W" && ieq c3 "E" && Ascii.eqb c4 "-") eqn:Hp;
    [|discriminate].
  apply andb_true_iff in Hp as [Hp H4]. apply andb_true_iff in Hp as [Hp H3].
  apply andb_true_iff in Hp as [H1 H2].
  destruct (digits_prefix_split rest) as (post & Hrest & Hd & Hend).
  destruct (digits_prefix rest) as [|d ds] eqn:Hdp; [discriminate|].
  intros Hm. injection Hm as <-.
  exists (String c1 (String c2 (String c3 (String c4 EmptyString)))), (String d ds), post.
  split; [reflexivity|]. split; [|exact Hend].
  unfold cwe_occurrence. split; [simpl; rewrite Hrest at 1; reflexivity|].
  split; [apply cwe_prefix_chars; eauto 10|].
  split; [discriminate | exact Hd].
Qed.

Lemma match_cwe_here_occurrence (s pfx ds post : string) :
  cwe_occurrence s EmptyString pfx ds post →
  match_cwe_here s ≠ None
  ∧ (digits_end post → match_cwe_here s = Some (pfx +:+ ds)).
Proof.
  intros (Hs & Hp & Hne & Hd).
  apply cwe_prefix_chars in Hp as (c1 & c2 & c3 & c4 & -> & H1 & H2 & H3 & H4).
  simpl in Hs. subst s. unfold match_cwe_here. rewrite H1, H2, H3, H4. simpl.
  split.
  - pose proof (digits_prefix_nonempty ds post Hd Hne) as Hn.
    destruct (digits_prefix (ds +:+ post)); [congruence | discriminate].
  - intros Hend. rewrite (digits_prefix_app ds post Hd Hend).
    destruct ds; [congruence | reflexivity].
Qed.

Lemma search_cwe_unfold (s : string) :
  search_cwe s =
  match match_cwe_here s with
  | Some m => Some m
  | None =>
      match s with
      | EmptyString => None
      | String _ s' => search_cwe s'
      end
  end.
Proof. destruct s; reflexivity. Qed.

Lemma cwe_occurrence_tail (c : ascii) (s pre pfx ds post : string) :
  cwe_occurrence (String c s) (String c pre) pfx ds post ↔ cwe_occurrence s pre pfx ds post.
Proof.
  unfold cwe_occurrence. simpl. split.
  - intros (Hs & Hrest). injection Hs as Hs. auto.
  - intros (Hs & Hrest). rewrite <- Hs. auto.
Qed.

Lemma cwe_occurrence_head (c : ascii) (s pre pfx ds post : string) :
  cwe_occurrence (String c s) pre pfx ds post →
  pre = EmptyString ∨ ∃ pre', pre = String c pre' ∧ cwe_occurrence s pre' pfx ds post.
Proof.
  destruct pre as [|c' pre']; [auto|]. intros Hocc. right. exists pre'.
  assert (c' = c) as ->.
  { destruct Hocc as (Hs & _). simpl in Hs. congruence. }
  split; [reflexivity|]. apply (cwe_occurrence_tail c). exact Hocc.
Qed.

(** The search finds the leftmost occurrence, with all its digits. *)
Lemma search_cwe_found (s pre pfx ds post : string) :
  cwe_occurrence s pre pfx ds post → leftmost s pre → digits_end post →
  search_cwe s = Some (pfx +:+ ds).
Proof.
  revert s. induction pre as [|c pre IH]; intros s Hocc Hleft Hend.
  - rewrite search_cwe_unfold.
    destruct (match_cwe_here_occurrence s pfx ds post Hocc) as [_ Hhere].
    rewrite (Hhere Hend). reflexivity.
  - rewrite search_cwe_unfold.
    destruct (match_cwe_here s) as [m|] eqn:Hhere.
    + apply match_cwe_here_Some in Hhere as (pfx' & ds' & post' & _ & Hocc' & _).
      apply Hleft in Hocc'. simpl in Hocc'. lia.
    + destruct s as [|c' s].
      { destruct Hocc as (Hs & _). discriminate Hs. }
      assert (c' = c) as ->.
      { destruct Hocc as (Hs & _). simpl in Hs. congruence. }
      apply IH; [apply (cwe_occurrence_tail c); exact Hocc | | exact Hend].
      intros pre' pfx' ds' post' Hocc'.
      apply (cwe_occurrence_tail c) in Hocc'. apply Hleft in Hocc'. simpl in Hocc'. lia.
Qed.

(** What the search returns is an occurrence, the leftmost one, with all
    its digits; it returns nothing only when there is no occurrence. *)
Lemma search_cwe_cases (s : string) :
  match search_cwe s with
  | Some m =>
      ∃ pre pfx ds post,
        m = pfx +:+ ds ∧ cwe_occurrence s pre pfx ds post
        ∧ leftmost s pre ∧ digits_end post
  | None => ∀ pre pfx ds post, ¬ cwe_occurrence s pre pfx ds post
  end.
Proof.
  induction s as [|c s IH]; rewrite search_cwe_unfold.
  - destruct (match_cwe_here EmptyString) as [m|] eqn:Hhere; [discriminate Hhere|].
    intros pre pfx ds post (Hs & Hp & _).
    apply cwe_prefix_chars in Hp as (c1 & c2 & c3 & c4 & -> & _).
    destruct pre; discriminate Hs.
  - destruct (match_cwe_here (String c s)) as [m|] eqn:Hhere.
    + apply match_cwe_here_Some in Hhere as (pfx & ds & post & Hm & Hocc & Hend).
      exists EmptyString, pfx, ds, post.
      split; [exact Hm|]. split; [exact Hocc|]. split; [|exact Hend].
      intros pre' pfx' ds' post' _. simpl. lia.
    + destruct (search_cwe s) as [m|].
      * destruct IH as (pre & pfx & ds & post & Hm & Hocc & Hleft & Hend).
        exists (String c pre), pfx, ds, post.
        split; [exact Hm|]. split; [apply cwe_occurrence_tail; exact Hocc|].
        split; [|exact Hend].
        intros pre' pfx' ds' post' Hocc'.
        destruct (cwe_occurrence_head _ _ _ _ _ _ Hocc') as [-> | (pre'' & -> & Hocc'')].
        -- apply match_cwe_here_occurrence in Hocc' as [Hne _]. congruence.
        -- apply Hleft in Hocc''. simpl. lia.
      * intros pre pfx ds post Hocc.
        destruct (cwe_occurrence_head _ _ _ _ _ _ Hocc) as [-> | (pre' & -> & Hocc')].
        -- apply match_cwe_here_occurrence in Hocc as [Hne _]. congruence.
        -- exact (IH _ _ _ _ Hocc').
Qed.

Section Classifier.
Context {Severity : Type} `{!Constants Severity}.

(** The classifier of the synchronizer, on ASCII text: LOW for an absent
    input and for a string in which the pattern [CWE-<digits>], letters in
    any case, does not occur; when it occurs, the identifier is [CWE-] with
    all the digits of the leftmost occurrence, and the classifier returns
    the tier the table gives for it, or MEDIUM when the table has none. *)
Lemma generate_severity_ascii :
  generate_severity None = SEVERITY_LOW
  ∧ (∀ s, (∀ pre pfx ds post, ¬ cwe_occurrence s pre pfx ds post) →
          generate_severity (Some s) = SEVERITY_LOW)
  ∧ (∀ s pre pfx ds post,
       cwe_occurrence s pre pfx ds post → leftmost s pre → digits_end post →
       generate_severity (Some s) =
       match TOP40_CWE_SEVERITIES !! ("CWE-" +:+ ds) with
       | Some tier => tier
       | None => SEVERITY_MEDIUM
       end)
  ∧ (∀ s, (∀ pre pfx ds post, ¬ cwe_occurrence s pre pfx ds post)
          ∨ ∃ pre pfx ds post,
              cwe_occurrence s pre pfx ds post ∧ leftmost s pre ∧ digits_end post).
Proof.
  split; [reflexivity|]. split; [|split].
  - intros s Hnone. unfold generate_severity.
    pose proof (search_cwe_cases s) as Hcases.
    destruct (search_cwe s) as [m|]; [|reflexivity].
    destruct Hcases as (pre & pfx & ds & post & _ & Hocc & _).
    exfalso. exact (Hnone _ _ _ _ Hocc).
  - intros s pre pfx ds post Hocc Hleft Hend. unfold generate_severity.
    rewrite (search_cwe_found s pre pfx ds post Hocc Hleft Hend).
    destruct Hocc as (_ & Hp & _ & Hd).
    rewrite upper_app, Hp, (upper_digits ds Hd). reflexivity.
  - intros s. pose proof (search_cwe_cases s) as Hcases.
    destruct (search_cwe s) as [m|]; [right | left; exact Hcases].
    destruct Hcases as (pre & pfx & ds & post & _ & Hocc & Hleft & Hend). eauto 10.
Qed.

End Classifier.

(** The classifier on sample inputs: no input, no identifier, an identifier
    of the table in lower case, an identifier outside the table. *)
Example generate_severity_samples :
  generate_severity (Constants0 := Samples.rule_constants) None = "low"%string
  ∧ generate_severity (Constants0 := Samples.rule_constants)
      (Some "random text"%string) = "low"%string
  ∧ generate_severity (Constants0 := Samples.rule_constants)
      (Some "cwe-79: Cross-site scripting"%string) = "high"%string
  ∧ generate_severity (Constants0 := Samples.rule_constants)
      (Some "see CWE-1234"%string) = "medium"%string.
Proof. repeat split; vm_compute; reflexivity. Qed.

(** *** The rule synchronizer: one rule entry *)

Section SyncFacts.
Context {Severity : Type} `{!Constants Severity}.
Variable supported_languages : list SupportedLanguage.
Variable rule_repositories : list RuleRepository.

Abbreviation Rule := (@Rule Severity).
Abbreviation RuleStore := (@RuleStore Severity).

Lemma static_eq_refl (r : Rule) : static_eq r r.
Proof. repeat split. Qed.

Lemma static_eq_trans (r1 r2 r3 : Rule) : static_eq r1 r2 → static_eq r2 r3 → static_eq r1 r3.
Proof. unfold static_eq. intros (?&?&?&?&?) (?&?&?&?&?). repeat split; congruence. Qed.

Lemma static_eq_sym (r1 r2 : Rule) : static_eq r1 r2 → static_eq r2 r1.
Proof. unfold static_eq. intros (?&?&?&?&?). repeat split; congruence. Qed.

Lemma first_by_path_Some (p : string) (rules : list Rule) (i : nat) (r : Rule) :
  first_by_path p rules = Some (i, r) ↔
  rules !! i = Some r ∧ file_path r = p
  ∧ ∀ j rj, (j < i)%nat → rules !! j = Some rj → file_path rj ≠ p.
Proof.
  revert i. induction rules as [|x rules IH]; intros i; simpl.
  - split; [discriminate | intros (Hl & _); discriminate Hl].
  - destruct (String.eqb_spec (file_path x) p) as [Hx|Hx].
    + split.
      * intros Heq. injection Heq as <- <-. split; [reflexivity|]. split; [exact Hx|].
        intros j rj Hj. lia.
      * intros (Hl & Hp & Hfirst). destruct i as [|i].
        -- simpl in Hl. congruence.
        -- exfalso. apply (Hfirst 0%nat x); [lia | reflexivity | exact Hx].
    + split.
      * intros Heq. destruct (first_by_path p rules) as [[k rk]|]; [|discriminate Heq].
        injection Heq as <- <-.
        destruct (proj1 (IH k) eq_refl) as (Hl & Hp & Hfirst).
        split; [exact Hl|]. split; [exact Hp|].
        intros [|j] rj Hj Hlj; simpl in Hlj; [congruence|].
        apply (Hfirst j); [lia | exact Hlj].
      * intros (Hl & Hp & Hfirst). destruct i as [|i]; simpl in Hl; [congruence|].
        rewrite (proj2 (IH i)); [reflexivity|].
        split; [exact Hl|]. split; [exact Hp|].
        intros j rj Hj Hlj. apply (Hfirst (S j)); [lia | exact Hlj].
Qed.

Lemma first_by_path_None (p : string) (rules : list Rule) :
  first_by_path p rules = None ↔ ∀ j rj, rules !! j = Some rj → file_path rj ≠ p.
Proof.
  induction rules as [|x rules IH]; simpl.
  - split; [intros _ j rj Hl; discriminate Hl | reflexivity].
  - destruct (String.eqb_spec (file_path x) p) as [Hx|Hx].
    + split; [discriminate|]. intros Hall. exfalso. exact (Hall 0%nat x eq_refl Hx).
    + split.
      * intros Heq [|j] rj Hl; simpl in Hl; [congruence|].
        destruct (first_by_path p rules) as [[k rk]|]; [discriminate Heq|].
        exact (proj1 IH eq_refl j rj Hl).
      * intros Hall. rewrite (proj2 IH); [reflexivity|].
        intros j rj Hl. exact (Hall (S j) rj Hl).
Qed.

(** The languages an entry appends. *)
Lemma append_languages_app (tokens : list string) (ls : list SupportedLanguage) :
  append_languages supported_languages tokens ls
  = ls ++ append_languages supported_languages tokens [].
Proof.
  unfold append_languages.
  assert (Hinner : ∀ (c : string) (sl ls0 : list SupportedLanguage),
    fold_left (fun ls1 c_sl =>
      if String.eqb (PyStr.lower (sl_name c_sl)) (PyStr.lower c)
      then ls1 ++ [c_sl] else ls1) sl ls0
    = ls0 ++ fold_left (fun ls1 c_sl =>
      if String.eqb (PyStr.lower (sl_name c_sl)) (PyStr.lower c)
      then ls1 ++ [c_sl] else ls1) sl []).
  { intros c sl. induction sl as [|x sl IH]; intros ls0; simpl.
    - rewrite app_nil_r. reflexivity.
    - destruct (String.eqb _ _).
      + rewrite (IH (ls0 ++ [x])), (IH [x]), <- app_assoc. reflexivity.
      + apply IH. }
  revert ls. induction tokens as [|c tokens IH]; intros ls; simpl.
  - rewrite app_nil_r. reflexivity.
  - rewrite IH, (IH (fold_left _ supported_languages [])), (Hinner c _ ls).
    rewrite <- app_assoc. reflexivity.
Qed.

Lemma update_rule_unfold (c_rule : RuleEntry) (r : Rule) :
  update_rule supported_languages c_rule r =
  match apply_metadata c_rule (after_languages supported_languages c_rule r) with
  | (Raised e, rule) => (Raised e, rule)
  | (Returned, rule) =>
      let rule := set_severity rule (Some (generate_severity (cwe rule))) in
      match repository rule with
      | Some _ => (Returned, rule)
      | None => (Raised AttributeError, rule)
      end
  end.
Proof. reflexivity. Qed.

Lemma after_languages_fields (c_rule : RuleEntry) (r : Rule) :
  static_eq r (after_languages supported_languages c_rule r)
  ∧ cwe (after_languages supported_languages c_rule r) = cwe r
  ∧ owasp (after_languages supported_languages c_rule r) = owasp r
  ∧ languages (after_languages supported_languages c_rule r) = languages r ++ entry_languages_matched supported_languages c_rule.
Proof.
  unfold after_languages, entry_languages_matched, static_eq.
  destruct (entry_languages c_rule) as [tokens|]; simpl.
  - rewrite (append_languages_app tokens (languages r)). repeat split.
  - rewrite app_nil_r. repeat split.
Qed.

(** What one turn does to the rule it holds. *)
Lemma update_rule_static (c_rule : RuleEntry) (r r' : Rule) (o : outcome) :
  update_rule supported_languages c_rule r = (o, r') →
  static_eq r r' ∧ languages r' = languages r ++ entry_languages_matched supported_languages c_rule.
Proof.
  rewrite update_rule_unfold.
  destruct (after_languages_fields c_rule r) as ((H1 & H2 & H3 & H4 & H5) & _ & _ & Hlang).
  revert H1 H2 H3 H4 H5 Hlang. generalize (after_languages supported_languages c_rule r).
  intros r0 H1 H2 H3 H4 H5 Hlang. unfold apply_metadata, static_eq.
  destruct (entry_metadata c_rule) as [[[c|] [[o'|[|o' l]]|]]|]; simpl;
    try destruct (repository r0) eqn:Hrepo; intros Heq; injection Heq as <- <-;
    simpl; (split; [repeat split; congruence | exact Hlang]).
Qed.

(** The same entry applied to two rules with the same repository: it
    returns on both or raises on both, and a field it writes gets the same
    value in both. *)
Lemma update_rule_pair (c_rule : RuleEntry) (ra ra' rb : Rule) :
  update_rule supported_languages c_rule ra = (Returned, ra') →
  repository rb = repository ra →
  ∃ rb',
    update_rule supported_languages c_rule rb = (Returned, rb')
    ∧ (cwe rb' = cwe ra' ∨ (cwe rb' = cwe rb ∧ cwe ra' = cwe ra))
    ∧ (owasp rb' = owasp ra' ∨ (owasp rb' = owasp rb ∧ owasp ra' = owasp ra))
    ∧ severity rb' = Some (generate_severity (cwe rb'))
    ∧ severity ra' = Some (generate_severity (cwe ra')).
Proof.
  rewrite !update_rule_unfold. intros Hupd Hrepo.
  destruct (after_languages_fields c_rule ra) as ((_ & _ & _ & Ha4 & _) & Hac & Hao & _).
  destruct (after_languages_fields c_rule rb) as ((_ & _ & _ & Hb4 & _) & Hbc & Hbo & _).
  rewrite <- Hac, <- Hao, <- Hbc, <- Hbo.
  assert (Hrepo0 : repository (after_languages supported_languages c_rule rb)
                   = repository (after_languages supported_languages c_rule ra)) by congruence.
  clear Hrepo Ha4 Hb4 Hac Hao Hbc Hbo.
  revert Hupd Hrepo0.
  generalize (after_languages supported_languages c_rule ra) (after_languages supported_languages c_rule rb).
  intros ra0 rb0 Hupd Hrepo0. unfold apply_metadata in *.
  destruct (entry_metadata c_rule) as [[[c|] [[o'|[|o' l]]|]]|]; simpl in *;
    try discriminate Hupd; rewrite Hrepo0;
    (destruct (repository ra0); [|discriminate Hupd]);
    injection Hupd as <-; eexists; (split; [reflexivity|]); simpl; auto 10.
Qed.

(** A turn updates the rule found in its place, or appends one rule. *)
Lemma sync_rule_shape (file_path0 repository0 category0 : string) (c_rule : RuleEntry)
    (rules rules' : list Rule) (o : outcome) :
  sync_rule supported_languages rule_repositories file_path0 repository0 category0
    c_rule rules = (o, rules') →
  match first_by_path file_path0 rules with
  | Some (i, rule) =>
      ∃ rule', update_rule supported_languages c_rule rule = (o, rule')
               ∧ rules' = <[i := rule']> rules
  | None =>
      ∃ rule',
        update_rule supported_languages c_rule
          (new_rule rule_repositories file_path0 repository0 category0 c_rule rules) = (o, rule')
        ∧ rules' = rules ++ [rule']
  end.
Proof.
  unfold sync_rule.
  destruct (first_by_path file_path0 rules) as [[i rule]|].
  - destruct (update_rule supported_languages c_rule rule) as [o' rule'].
    intros Heq. injection Heq as <- <-. eauto.
  - destruct (update_rule supported_languages c_rule _) as [o' rule'].
    intros Heq. injection Heq as <- <-. exists rule'. split; [reflexivity|].
    rewrite insert_app_r_alt by lia. rewrite Nat.sub_diag. reflexivity.
Qed.

(** The other direction, used to run a turn on another list. *)
Lemma sync_rule_found (file_path0 repository0 category0 : string) (c_rule : RuleEntry)
    (rules : list Rule) (i : nat) (rule rule' : Rule) (o : outcome) :
  first_by_path file_path0 rules = Some (i, rule) →
  update_rule supported_languages c_rule rule = (o, rule') →
  sync_rule supported_languages rule_repositories file_path0 repository0 category0
    c_rule rules = (o, <[i := rule']> rules).
Proof. intros Hfind Hupd. unfold sync_rule. rewrite Hfind, Hupd. reflexivity. Qed.

(** *** Identifiers and file paths are kept *)

Lemma keeps_refl (l : list Rule) : keeps l l.
Proof.
  split; [|split; trivial]. intros i r Hl. exists r. split; [exact Hl | apply static_eq_refl].
Qed.

Lemma keeps_trans (l1 l2 l3 : list Rule) : keeps l1 l2 → keeps l2 l3 → keeps l1 l3.
Proof.
  intros (H12 & Hp12 & Hi12) (H23 & Hp23 & Hi23). split; [|split; auto].
  intros i r Hl. destruct (H12 i r Hl) as (r2 & Hl2 & Hs2).
  destruct (H23 i r2 Hl2) as (r3 & Hl3 & Hs3).
  exists r3. split; [exact Hl3 | exact (static_eq_trans _ _ _ Hs2 Hs3)].
Qed.

Lemma fresh_id_above (rules : list Rule) (r : Rule) :
  r ∈ rules → rule_id r < fresh_id rules.
Proof.
  unfold fresh_id. induction rules as [|x rules IH]; intros Hin.
  - apply elem_of_nil in Hin. contradiction.
  - simpl. apply elem_of_cons in Hin as [->|Hin]; [lia|].
    specialize (IH Hin). lia.
Qed.

Lemma insert_static_fmap {B : Type} (f : Rule → B) (rules : list Rule) (i : nat)
    (r r' : Rule) :
  rules !! i = Some r → f r' = f r → f <$> <[i := r']> rules = f <$> rules.
Proof.
  intros Hl Hf. rewrite list_fmap_insert, Hf. apply list_insert_id.
  rewrite list_lookup_fmap, Hl. reflexivity.
Qed.

Lemma sync_rule_keeps (file_path0 repository0 category0 : string) (c_rule : RuleEntry)
    (rules rules' : list Rule) (o : outcome) :
  sync_rule supported_languages rule_repositories file_path0 repository0 category0
    c_rule rules = (o, rules') →
  keeps rules rules'.
Proof.
  intros Hstep. apply sync_rule_shape in Hstep.
  destruct (first_by_path file_path0 rules) as [[i rule]|] eqn:Hfind.
  - destruct Hstep as (rule' & Hupd & ->).
    apply first_by_path_Some in Hfind as (Hl & _ & _).
    apply update_rule_static in Hupd as [(H1 & H2 & H3 & H4 & H5) _].
    split; [|split].
    + intros j r Hj. destruct (decide (i = j)) as [<-|Hne].
      * exists rule'. split.
        -- apply list_lookup_insert_eq. apply lookup_lt_Some in Hl. exact Hl.
        -- assert (r = rule) as -> by congruence. repeat split; assumption.
      * exists r. split; [|apply static_eq_refl].
        rewrite list_lookup_insert_ne by exact Hne. exact Hj.
    + rewrite (insert_static_fmap file_path rules i rule rule' Hl H3). trivial.
    + rewrite (insert_static_fmap rule_id rules i rule rule' Hl H1). trivial.
  - destruct Hstep as (rule' & Hupd & ->).
    apply update_rule_static in Hupd as [(H1 & H2 & H3 & H4 & H5) _]. simpl in H1, H3.
    split; [|split].
    + intros j r Hj. exists r. split; [|apply static_eq_refl].
      apply lookup_app_l_Some. exact Hj.
    + intros Hnd. rewrite fmap_app. apply NoDup_app. split; [exact Hnd|].
      split; [|apply NoDup_singleton].
      intros x Hx Hx'. apply list_elem_of_singleton in Hx'. simpl in Hx'. subst x.
      apply list_elem_of_fmap in Hx as (r & Hr & Hin).
      apply list_elem_of_lookup in Hin as (j & Hj).
      rewrite first_by_path_None in Hfind. apply (Hfind j r Hj). congruence.
    + intros Hnd. rewrite fmap_app. apply NoDup_app. split; [exact Hnd|].
      split; [|apply NoDup_singleton].
      intros x Hx Hx'. apply list_elem_of_singleton in Hx'. simpl in Hx'. subst x.
      apply list_elem_of_fmap in Hx as (r & Hr & Hin).
      apply fresh_id_above in Hin. lia.
Qed.

Lemma sync_rules_keeps (file_path0 repository0 category0 : string)
    (entries : list RuleEntry) (rules rules' : list Rule) (o : outcome) :
  sync_rules supported_languages rule_repositories file_path0 repository0 category0
    entries rules = (o, rules') →
  keeps rules rules'.
Proof.
  revert rules. induction entries as [|c_rule entries IH]; intros rules; simpl.
  - intros Heq. injection Heq as <- <-. apply keeps_refl.
  - destruct (sync_rule _ _ _ _ _ c_rule rules) as [[|e] rules1] eqn:Hstep.
    + intros Hrest. apply sync_rule_keeps in Hstep.
      exact (keeps_trans _ _ _ Hstep (IH _ Hrest)).
    + intros Heq. injection Heq as <- <-. exact (sync_rule_keeps _ _ _ _ _ _ _ Hstep).
Qed.

Lemma sync_file_keeps (f : string * safe_load_result) (db db' : RuleStore) (o : outcome) :
  sync_file supported_languages rule_repositories f db = (o, db') →
  store_ok db →
  keeps (committed db) (committed db') ∧ keeps (committed db) (session db')
  ∧ store_ok db'.
Proof.
  unfold sync_file, store_ok. destruct f as [c_filename [|[entries|]]].
  - intros Heq Hok. injection Heq as <- <-. simpl.
    repeat split; apply keeps_refl.
  - destruct (sync_rules _ _ _ _ _ entries (session db)) as [[|e] rules] eqn:Hrules;
      intros Heq Hok; injection Heq as <- <-; simpl;
      apply sync_rules_keeps in Hrules;
      pose proof (keeps_trans _ _ _ Hok Hrules) as Hall.
    + split; [exact Hall|]. split; [exact Hall | apply keeps_refl].
    + split; [apply keeps_refl|]. split; exact Hall.
  - intros Heq Hok. injection Heq as <- <-. simpl.
    split; [exact Hok|]. split; [exact Hok | apply keeps_refl].
Qed.

Lemma sync_db_keeps (rules_filenames : list (string * safe_load_result))
    (db db' : RuleStore) (o : outcome) :
  sync_db supported_languages rule_repositories rules_filenames db = (o, db') →
  store_ok db →
  keeps (committed db) (committed db') ∧ keeps (committed db) (session db')
  ∧ store_ok db'.
Proof.
  revert db. induction rules_filenames as [|f rest IH]; intros db; simpl.
  - intros Heq Hok. injection Heq as <- <-.
    split; [apply keeps_refl|]. split; exact Hok.
  - destruct (sync_file _ _ f db) as [[|e] db1] eqn:Hfile.
    + intros Hrest Hok.
      destruct (sync_file_keeps _ _ _ _ Hfile Hok) as (Hc1 & Hs1 & Hok1).
      destruct (IH _ Hrest Hok1) as (Hc & Hs & Hok').
      split; [exact (keeps_trans _ _ _ Hc1 Hc)|].
      split; [exact (keeps_trans _ _ _ Hc1 Hs) | exact Hok'].
    + intros Heq Hok. injection Heq as <- <-.
      exact (sync_file_keeps _ _ _ _ Hfile Hok).
Qed.

(** *** Parse failures *)

Lemma sync_db_app (before after : list (string * safe_load_result)) (db db1 : RuleStore) :
  sync_db supported_languages rule_repositories before db = (Returned, db1) →
  sync_db supported_languages rule_repositories (before ++ after) db
  = sync_db supported_languages rule_repositories after db1.
Proof.
  revert db. induction before as [|f before IH]; intros db; simpl.
  - intros Heq. injection Heq as <-. reflexivity.
  - destruct (sync_file _ _ f db) as [[|e] db0]; [apply IH | discriminate].
Qed.

Lemma sync_file_returned_clean (f : string * safe_load_result) (db db' : RuleStore) :
  sync_file supported_languages rule_repositories f db = (Returned, db') →
  session db' = committed db'.
Proof.
  unfold sync_file. destruct f as [c_filename [|[entries|]]]; [discriminate| |].
  - destruct (sync_rules _ _ _ _ _ entries (session db)) as [[|e] rules];
      intros Heq; [injection Heq as <-; reflexivity | discriminate Heq].
  - intros Heq. injection Heq as <-. reflexivity.
Qed.

(** A run that returns has committed its last file. *)
Lemma sync_db_returned_clean (rules_filenames : list (string * safe_load_result))
    (db db' : RuleStore) :
  sync_db supported_languages rule_repositories rules_filenames db = (Returned, db') →
  rules_filenames ≠ [] →
  session db' = committed db'.
Proof.
  revert db. induction rules_filenames as [|f rest IH]; intros db; simpl; [congruence|].
  destruct (sync_file _ _ f db) as [[|e] db1] eqn:Hfile; [|discriminate].
  intros Hrest _. destruct rest as [|g rest].
  - simpl in Hrest. injection Hrest as <-. exact (sync_file_returned_clean _ _ _ Hfile).
  - apply (IH db1 Hrest). discriminate.
Qed.

Lemma rollback_clean (db : RuleStore) : session db = committed db → rollback db = db.
Proof. destruct db as [c s0]. unfold rollback. simpl. intros ->. reflexivity. Qed.

(** C3, as the code has it. When the files before a rule file are
    synchronized without error and the parsing of that file fails, the run
    stops there: [YAMLError] is raised to the caller, the files after it are
    not processed, and the session is rolled back to the last commit. The
    session was committed after each file, so the rules are left as they
    were after the last file before the failing one, the changes of the
    earlier files of the run included. *)
Theorem sync_db_parse_failure (before after : list (string * safe_load_result))
    (c_filename : string) (db db1 : RuleStore) :
  sync_db supported_languages rule_repositories before db = (Returned, db1) →
  sync_db supported_languages rule_repositories
    (before ++ (c_filename, ParseFailure) :: after) db
  = (Raised YAMLError, rollback db1)
  ∧ committed (rollback db1) = committed db1
  ∧ session (rollback db1) = committed db1
  ∧ (before ≠ [] → rollback db1 = db1).
Proof.
  intros Hbefore. split; [|split; [reflexivity|split; [reflexivity|]]].
  - rewrite (sync_db_app _ _ _ _ Hbefore). reflexivity.
  - intros Hne. apply rollback_clean. exact (sync_db_returned_clean _ _ _ Hbefore Hne).
Qed.

(** *** A second run on the same checkout *)

Lemma evolves_refl (r : Rule) : evolves r r.
Proof. split; [apply static_eq_refl|]. split; [reflexivity | trivial]. Qed.

Lemma evolves_trans (r1 r2 r3 : Rule) : evolves r1 r2 → evolves r2 r3 → evolves r1 r3.
Proof.
  intros (Hs12 & Hl12 & Hv12) (Hs23 & Hl23 & Hv23).
  split; [exact (static_eq_trans _ _ _ Hs12 Hs23)|].
  split; [etransitivity; eassumption | auto].
Qed.

Lemma mono_refl (a : list Rule) : mono a a.
Proof. intros i r Hl. exists r. split; [exact Hl | apply evolves_refl]. Qed.

Lemma mono_trans (a1 a2 a3 : list Rule) : mono a1 a2 → mono a2 a3 → mono a1 a3.
Proof.
  intros H12 H23 i r Hl. destruct (H12 i r Hl) as (r2 & Hl2 & He2).
  destruct (H23 i r2 Hl2) as (r3 & Hl3 & He3).
  exists r3. split; [exact Hl3 | exact (evolves_trans _ _ _ He2 He3)].
Qed.

Lemma update_rule_evolves (c_rule : RuleEntry) (r r' : Rule) :
  update_rule supported_languages c_rule r = (Returned, r') → evolves r r' ∧ sev_ok r'.
Proof.
  intros Hupd.
  destruct (update_rule_pair c_rule r r' r Hupd eq_refl) as (rb' & _ & _ & _ & _ & Hsev).
  destruct (update_rule_static _ _ _ _ Hupd) as [Hstatic Hlang].
  split; [|exact Hsev]. split; [exact Hstatic|].
  split; [rewrite Hlang; apply prefix_app_r; reflexivity | intros _; exact Hsev].
Qed.

(** A turn that returns, seen from the rule it touches: its position, the
    rule the turn starts from (the rule found, or the new rule) and the
    rule it leaves. *)
Lemma sync_rule_returned (file_path0 repository0 category0 : string) (c_rule : RuleEntry)
    (a a' : list Rule) :
  sync_rule supported_languages rule_repositories file_path0 repository0 category0
    c_rule a = (Returned, a') →
  ∃ i ra0 ra',
    update_rule supported_languages c_rule ra0 = (Returned, ra')
    ∧ a' !! i = Some ra'
    ∧ (∀ j, j ≠ i → a' !! j = a !! j)
    ∧ file_path ra0 = file_path0
    ∧ (∀ j rj, (j < i)%nat → a !! j = Some rj → file_path rj ≠ file_path0)
    ∧ (i <= length a)%nat
    ∧ match a !! i with Some r => r = ra0 | None => True end.
Proof.
  intros Hstep. apply sync_rule_shape in Hstep.
  destruct (first_by_path file_path0 a) as [[i rule]|] eqn:Hfind.
  - destruct Hstep as (rule' & Hupd & ->).
    apply first_by_path_Some in Hfind as (Hl & Hp & Hfirst).
    pose proof (lookup_lt_Some _ _ _ Hl) as Hlt.
    exists i, rule, rule'. split; [exact Hupd|].
    split; [apply list_lookup_insert_eq; exact Hlt|].
    split; [intros j Hj; apply list_lookup_insert_ne; congruence|].
    split; [exact Hp|]. split; [exact Hfirst|]. split; [lia|].
    rewrite Hl. reflexivity.
  - destruct Hstep as (rule' & Hupd & ->).
    rewrite first_by_path_None in Hfind.
    exists (length a), (new_rule rule_repositories file_path0 repository0 category0 c_rule a), rule'.
    split; [exact Hupd|].
    split; [rewrite lookup_app_r by lia; rewrite Nat.sub_diag; reflexivity|].
    split.
    { intros j Hj. destruct (decide (j < length a)%nat) as [Hlt|Hge].
      - apply lookup_app_l. exact Hlt.
      - rewrite (lookup_ge_None_2 a j) by lia.
        apply lookup_ge_None_2. rewrite length_app. simpl. lia. }
    split; [reflexivity|].
    split; [intros j rj _ Hl; exact (Hfind j rj Hl)|]. split; [lia|].
    rewrite (lookup_ge_None_2 a (length a)) by lia. trivial.
Qed.

Lemma sync_rule_mono (file_path0 repository0 category0 : string) (c_rule : RuleEntry)
    (a a' : list Rule) :
  sync_rule supported_languages rule_repositories file_path0 repository0 category0
    c_rule a = (Returned, a') →
  mono a a'.
Proof.
  intros Hstep.
  destruct (sync_rule_returned _ _ _ _ _ _ Hstep)
    as (i & ra0 & ra' & Hupd & Hi & Hother & _ & _ & _ & Hbefore).
  intros j r Hl. destruct (decide (j = i)) as [->|Hne].
  - rewrite Hl in Hbefore. subst ra0. exists ra'. split; [exact Hi|].
    apply (update_rule_evolves _ _ _ Hupd).
  - exists r. split; [rewrite (Hother j Hne); exact Hl | apply evolves_refl].
Qed.

Lemma sync_rules_mono (file_path0 repository0 category0 : string)
    (entries : list RuleEntry) (a a' : list Rule) :
  sync_rules supported_languages rule_repositories file_path0 repository0 category0
    entries a = (Returned, a') →
  mono a a'.
Proof.
  revert a. induction entries as [|c_rule entries IH]; intros a; simpl.
  - intros Heq. injection Heq as <-. apply mono_refl.
  - destruct (sync_rule _ _ _ _ _ c_rule a) as [[|e] a1] eqn:Hstep; [|discriminate].
    intros Hrest. exact (mono_trans _ _ _ (sync_rule_mono _ _ _ _ _ _ Hstep) (IH _ Hrest)).
Qed.

Lemma sync_file_mono (f : string * safe_load_result) (db db' : RuleStore) :
  sync_file supported_languages rule_repositories f db = (Returned, db') →
  mono (session db) (session db').
Proof.
  unfold sync_file. destruct f as [c_filename [|[entries|]]]; [discriminate| |].
  - destruct (sync_rules _ _ _ _ _ entries (session db)) as [[|e] rules] eqn:Hrules;
      [|discriminate].
    intros Heq. injection Heq as <-. simpl. exact (sync_rules_mono _ _ _ _ _ _ Hrules).
  - intros Heq. injection Heq as <-. apply mono_refl.
Qed.

Lemma sync_db_mono (rules_filenames : list (string * safe_load_result))
    (db db' : RuleStore) :
  sync_db supported_languages rule_repositories rules_filenames db = (Returned, db') →
  mono (session db) (session db').
Proof.
  revert db. induction rules_filenames as [|f rest IH]; intros db; simpl.
  - intros Heq. injection Heq as <-. apply mono_refl.
  - destruct (sync_file _ _ f db) as [[|e] db1] eqn:Hfile; [|discriminate].
    intros Hrest. exact (mono_trans _ _ _ (sync_file_mono _ _ _ Hfile) (IH _ Hrest)).
Qed.

Lemma lockstep_start (a w1 : list Rule) : mono a w1 → lockstep w1 a w1.
Proof.
  intros Hmono. split; [reflexivity|]. intros i r1 Hl. exists r1. split; [exact Hl|].
  destruct (a !! i) as [ra|] eqn:Ha; [|reflexivity].
  destruct (Hmono i ra Ha) as (r1' & Hl' & (Hstatic & _)).
  assert (r1' = r1) as -> by congruence.
  split; [exact Hstatic|]. split; [auto|]. split; [auto|]. split; [auto|].
  exists []. split; [rewrite app_nil_r; reflexivity|].
  intros x Hx. apply elem_of_nil in Hx. contradiction.
Qed.

(** One entry applied in the two runs. *)
Lemma update_rule_rerun (c_rule : RuleEntry) (r1 ra0 ra' rb : Rule) :
  update_rule supported_languages c_rule ra0 = (Returned, ra') →
  evolves ra' r1 →
  static_eq ra0 rb →
  (cwe rb = cwe ra0 ∨ cwe rb = cwe r1) →
  (owasp rb = owasp ra0 ∨ owasp rb = owasp r1) →
  (∃ extra, languages rb = languages r1 ++ extra ∧ ∀ x, x ∈ extra → x ∈ languages r1) →
  ∃ rb', update_rule supported_languages c_rule rb = (Returned, rb') ∧ rerun r1 ra' rb'.
Proof.
  intros Hupd (Hs1 & Hl1 & Hv1) Hsab Hcwe Howasp (extra & Hlang & Hextra).
  assert (Hrepo : repository rb = repository ra0) by apply Hsab.
  destruct (update_rule_pair c_rule ra0 ra' rb Hupd Hrepo)
    as (rb' & Hupdb & Hc & Ho & Hsevb & Hseva).
  exists rb'. split; [exact Hupdb|].
  destruct (update_rule_static _ _ _ _ Hupd) as [Hsa Hla].
  destruct (update_rule_static _ _ _ _ Hupdb) as [Hsb Hlb].
  assert (Hcwe' : cwe rb' = cwe ra' ∨ cwe rb' = cwe r1).
  { destruct Hc as [Hc | [Hcb Hca]]; [left; exact Hc|].
    destruct Hcwe as [Hcwe|Hcwe]; [left | right]; congruence. }
  split.
  { apply (static_eq_trans _ ra0); [apply static_eq_sym; exact Hsa|].
    exact (static_eq_trans _ _ _ Hsab Hsb). }
  split; [exact Hcwe'|]. split.
  { destruct Ho as [Ho | [Hob Hoa]]; [left; exact Ho|].
    destruct Howasp as [Howasp|Howasp]; [left | right]; congruence. }
  split.
  { destruct Hcwe' as [Heq|Heq]; [left | right].
    - rewrite Hsevb, Hseva, Heq. reflexivity.
    - rewrite Hsevb, Heq. symmetry. apply Hv1. exact Hseva. }
  exists (extra ++ entry_languages_matched supported_languages c_rule).
  split; [rewrite Hlb, Hlang, <- app_assoc; reflexivity|].
  intros x Hx. apply elem_of_app in Hx as [Hx|Hx]; [exact (Hextra x Hx)|].
  apply (elem_of_prefix (languages ra')); [|exact Hl1].
  rewrite Hla. apply elem_of_app. right. exact Hx.
Qed.

Lemma sync_rule_lockstep (file_path0 repository0 category0 : string) (c_rule : RuleEntry)
    (w1 a a' b : list Rule) :
  sync_rule supported_languages rule_repositories file_path0 repository0 category0
    c_rule a = (Returned, a') →
  mono a' w1 → lockstep w1 a b →
  ∃ b',
    sync_rule supported_languages rule_repositories file_path0 repository0 category0
      c_rule b = (Returned, b')
    ∧ lockstep w1 a' b'.
Proof.
  intros Hstep Hmono (Hlen & Hrel).
  destruct (sync_rule_returned _ _ _ _ _ _ Hstep)
    as (i & ra0 & ra' & Hupd & Hi & Hother & Hpath & Hfirst & Hle & Hbefore).
  destruct (Hmono i ra' Hi) as (r1 & Hw1 & Hev).
  destruct (Hrel i r1 Hw1) as (rb & Hb & Hab).
  destruct (update_rule_static _ _ _ _ Hupd) as [Hsa Hla].
  (* the rule of the second run at the position, beside the rule the turn
     of the first run starts from *)
  assert (Hpre : static_eq ra0 rb
                 ∧ (cwe rb = cwe ra0 ∨ cwe rb = cwe r1)
                 ∧ (owasp rb = owasp ra0 ∨ owasp rb = owasp r1)
                 ∧ ∃ extra, languages rb = languages r1 ++ extra
                            ∧ ∀ x, x ∈ extra → x ∈ languages r1).
  { destruct (a !! i) as [ra|] eqn:Ha.
    - subst ra0. destruct Hab as (H1 & H2 & H3 & _ & H5). auto.
    - subst rb. split.
      + apply (static_eq_trans _ ra'); [exact Hsa | apply Hev].
      + split; [auto|]. split; [auto|]. exists []. split; [rewrite app_nil_r; reflexivity|].
        intros x Hx. apply elem_of_nil in Hx. contradiction. }
  destruct Hpre as (Hsab & Hcwe & Howasp & Hlang).
  destruct (update_rule_rerun c_rule r1 ra0 ra' rb Hupd Hev Hsab Hcwe Howasp Hlang)
    as (rb' & Hupdb & Hrerun).
  (* the lookup of the second run finds that rule *)
  assert (Hfind : first_by_path file_path0 b = Some (i, rb)).
  { apply first_by_path_Some. split; [exact Hb|]. split.
    - destruct Hsab as (_ & _ & Hp & _). congruence.
    - intros j rbj Hj Hbj.
      assert (is_Some (a !! j)) as [raj Haj] by (apply lookup_lt_is_Some; lia).
      assert (is_Some (w1 !! j)) as [r1j Hw1j].
      { apply lookup_lt_is_Some. rewrite <- Hlen. exact (lookup_lt_Some _ _ _ Hbj). }
      destruct (Hrel j r1j Hw1j) as (rbj' & Hbj' & Hrj). rewrite Haj in Hrj.
      assert (rbj' = rbj) as -> by congruence.
      destruct Hrj as ((_ & _ & Hp & _) & _). rewrite Hp.
      exact (Hfirst j raj Hj Haj). }
  exists (<[i := rb']> b).
  split; [exact (sync_rule_found _ _ _ _ _ _ _ _ _ Hfind Hupdb)|].
  split; [rewrite length_insert; exact Hlen|].
  intros k r1k Hw1k. destruct (decide (k = i)) as [->|Hne].
  - exists rb'. split; [apply list_lookup_insert_eq; exact (lookup_lt_Some _ _ _ Hb)|].
    rewrite Hi. assert (r1k = r1) as -> by congruence. exact Hrerun.
  - destruct (Hrel k r1k Hw1k) as (rbk & Hbk & Hrk).
    exists rbk. split; [rewrite list_lookup_insert_ne by congruence; exact Hbk|].
    rewrite (Hother k Hne). exact Hrk.
Qed.

Lemma sync_rules_lockstep (file_path0 repository0 category0 : string)
    (entries : list RuleEntry) (w1 a a' b : list Rule) :
  sync_rules supported_languages rule_repositories file_path0 repository0 category0
    entries a = (Returned, a') →
  mono a' w1 → lockstep w1 a b →
  ∃ b',
    sync_rules supported_languages rule_repositories file_path0 repository0 category0
      entries b = (Returned, b')
    ∧ lockstep w1 a' b'.
Proof.
  revert a b. induction entries as [|c_rule entries IH]; intros a b; simpl.
  - intros Heq Hmono Hlock. injection Heq as <-. exists b. split; [reflexivity | exact Hlock].
  - destruct (sync_rule _ _ _ _ _ c_rule a) as [[|e] a1] eqn:Hstep; [|discriminate].
    intros Hrest Hmono Hlock.
    pose proof (mono_trans _ _ _ (sync_rules_mono _ _ _ _ _ _ Hrest) Hmono) as Hmono1.
    destruct (sync_rule_lockstep _ _ _ _ _ _ _ _ Hstep Hmono1 Hlock) as (b1 & Hstepb & Hlock1).
    rewrite Hstepb. exact (IH a1 b1 Hrest Hmono Hlock1).
Qed.

Lemma sync_file_lockstep (f : string * safe_load_result) (w1 : list Rule)
    (dba dba' dbb : RuleStore) :
  sync_file supported_languages rule_repositories f dba = (Returned, dba') →
  mono (session dba') w1 → lockstep w1 (session dba) (session dbb) →
  ∃ dbb',
    sync_file supported_languages rule_repositories f dbb = (Returned, dbb')
    ∧ lockstep w1 (session dba') (session dbb').
Proof.
  unfold sync_file. destruct f as [c_filename [|[entries|]]]; [discriminate| |].
  - destruct (sync_rules _ _ _ _ _ entries (session dba)) as [[|e] rules] eqn:Hrules;
      [|discriminate].
    intros Heq Hmono Hlock. injection Heq as <-. simpl in Hmono.
    destruct (sync_rules_lockstep _ _ _ _ _ _ _ _ Hrules Hmono Hlock) as (b' & Hb & Hlock').
    rewrite Hb. eexists. split; [reflexivity | exact Hlock'].
  - intros Heq Hmono Hlock. injection Heq as <-.
    eexists. split; [reflexivity | exact Hlock].
Qed.

Lemma sync_db_lockstep (rules_filenames : list (string * safe_load_result))
    (w1 : list Rule) (dba dba' dbb : RuleStore) :
  sync_db supported_languages rule_repositories rules_filenames dba = (Returned, dba') →
  mono (session dba') w1 → lockstep w1 (session dba) (session dbb) →
  ∃ dbb',
    sync_db supported_languages rule_repositories rules_filenames dbb = (Returned, dbb')
    ∧ lockstep w1 (session dba') (session dbb').
Proof.
  revert dba dbb. induction rules_filenames as [|f rest IH]; intros dba dbb; simpl.
  - intros Heq Hmono Hlock. injection Heq as <-. exists dbb. split; [reflexivity | exact Hlock].
  - destruct (sync_file _ _ f dba) as [[|e] dba1] eqn:Hfile; [|discriminate].
    intros Hrest Hmono Hlock.
    pose proof (mono_trans _ _ _ (sync_db_mono _ _ _ Hrest) Hmono) as Hmono1.
    destruct (sync_file_lockstep _ _ _ _ _ Hfile Hmono1 Hlock) as (dbb1 & Hfileb & Hlock1).
    rewrite Hfileb. exact (IH dba1 dbb1 Hrest Hmono Hlock1).
Qed.

Lemma resynchronized_refl (l : list Rule) : Forall2 resynchronized l l.
Proof.
  induction l as [|r l IH]; constructor; [|exact IH].
  repeat split. exists []. split; [rewrite app_nil_r; reflexivity|].
  intros x Hx. apply elem_of_nil in Hx. contradiction.
Qed.

Lemma lockstep_end (w1 w2 : list Rule) : lockstep w1 w1 w2 → Forall2 resynchronized w1 w2.
Proof.
  intros (Hlen & Hrel). apply Forall2_same_length_lookup. split; [congruence|].
  intros i r1 r2 Hl1 Hl2. destruct (Hrel i r1 Hl1) as (rb & Hb & Hrerun).
  rewrite Hl1 in Hrerun. assert (rb = r2) as -> by congruence.
  destruct Hrerun as ((H1 & H2 & H3 & H4 & H5) & Hc & Ho & Hs & Hlang).
  repeat split; try assumption.
  - destruct Hc; assumption.
  - destruct Ho; assumption.
  - destruct Hs; assumption.
Qed.

Lemma first_by_path_insert (p : string) (rules : list Rule) (i : nat) (r r' : Rule) :
  first_by_path p rules = Some (i, r) → file_path r' = p →
  first_by_path p (<[i := r']> rules) = Some (i, r').
Proof.
  intros Hfound Hpath. apply first_by_path_Some in Hfound as (Hi & _ & Hbefore).
  apply first_by_path_Some. split; [|split; [exact Hpath|]].
  - apply list_lookup_insert_eq. eapply lookup_lt_Some. exact Hi.
  - intros j rj Hj Hlook. rewrite list_lookup_insert_ne in Hlook by lia.
    exact (Hbefore j rj Hj Hlook).
Qed.

Lemma first_by_path_snoc (p : string) (rules : list Rule) (r' : Rule) :
  first_by_path p rules = None → file_path r' = p →
  first_by_path p (rules ++ [r']) = Some (length rules, r').
Proof.
  intros Hnone' Hpath.
  pose proof (proj1 (first_by_path_None _ _) Hnone') as Hnone.
  apply first_by_path_Some. split; [|split; [exact Hpath|]].
  - rewrite lookup_app_r by lia. rewrite Nat.sub_diag. reflexivity.
  - intros j rj Hj Hlook. rewrite lookup_app_l in Hlook by lia.
    exact (Hnone j rj Hlook).
Qed.

(** *** What a run does for the files it reads *)

Lemma grows_refl (paths : list string) (l : list Rule) : grows paths l l.
Proof.
  split.
  - intros i r Hi. exists r. split; [exact Hi | apply static_eq_refl].
  - intros j r' Hj Hle. apply lookup_lt_Some in Hj. lia.
Qed.

Lemma grows_weaken (paths paths' : list string) (a b : list Rule) :
  (∀ p, p ∈ paths → p ∈ paths') → grows paths a b → grows paths' a b.
Proof.
  intros Hsub [Hpos Hnew]. split; [exact Hpos|].
  intros j r' Hj Hle. destruct (Hnew j r' Hj Hle) as [Hp Hold]. auto.
Qed.

Lemma grows_trans (ps1 ps2 : list string) (a b c : list Rule) :
  grows ps1 a b → grows ps2 b c → grows (ps1 ++ ps2) a c.
Proof.
  intros [Hab Nab] [Hbc Nbc]. split.
  - intros i r Hi. destruct (Hab i r Hi) as (rb & Hb & Hs1).
    destruct (Hbc i rb Hb) as (rc & Hc & Hs2).
    exists rc. split; [exact Hc | eapply static_eq_trans; eassumption].
  - intros j r' Hj Hle. destruct (decide (j < length b)%nat) as [Hlt|Hge].
    + destruct (lookup_lt_is_Some_2 b j Hlt) as [rb Hb].
      destruct (Hbc j rb Hb) as (rc & Hc & (Hid & _ & Hfp & _)).
      assert (rc = r') as -> by congruence.
      destruct (Nab j rb Hb Hle) as [Hp Hold].
      split; [rewrite Hfp; apply elem_of_app; left; exact Hp|].
      intros r Hr. rewrite Hfp, Hid. exact (Hold r Hr).
    + destruct (Nbc j r' Hj ltac:(lia)) as [Hp Hold].
      split; [apply elem_of_app; right; exact Hp|].
      intros r Hr. apply list_elem_of_lookup in Hr as [k Hk].
      destruct (Hab k r Hk) as (rb & Hb & (Hid & _ & Hfp & _)).
      destruct (Hold rb (list_elem_of_lookup_2 _ _ _ Hb)) as [H1 H2].
      rewrite <- Hfp, <- Hid. split; assumption.
Qed.

Lemma sync_rule_grows (file_path0 repository0 category0 : string) (c_rule : RuleEntry)
    (rules rules' : list Rule) (o : outcome) :
  sync_rule supported_languages rule_repositories file_path0 repository0 category0
    c_rule rules = (o, rules') →
  grows [file_path0] rules rules'.
Proof.
  intros Hturn. apply sync_rule_shape in Hturn.
  destruct (first_by_path file_path0 rules) as [[i rule]|] eqn:Hfind.
  - destruct Hturn as (rule' & Hupd & ->).
    apply update_rule_static in Hupd as [Hstatic _].
    apply first_by_path_Some in Hfind as (Hi & _ & _).
    pose proof (lookup_lt_Some _ _ _ Hi) as Hlt. split.
    + intros k r Hk. destruct (decide (k = i)) as [->|Hne].
      * assert (r = rule) as -> by congruence.
        exists rule'. split; [apply list_lookup_insert_eq; exact Hlt | exact Hstatic].
      * exists r. split; [rewrite list_lookup_insert_ne by congruence; exact Hk|].
        apply static_eq_refl.
    + intros j r' Hj Hle. apply lookup_lt_Some in Hj. rewrite length_insert in Hj. lia.
  - destruct Hturn as (rule' & Hupd & ->).
    apply update_rule_static in Hupd as [(Hid & _ & Hfp & _) _]. simpl in Hid, Hfp.
    pose proof (proj1 (first_by_path_None _ _) Hfind) as Hnone. split.
    + intros k r Hk. exists r.
      split; [apply lookup_app_l_Some; exact Hk | apply static_eq_refl].
    + intros j r' Hj Hle. pose proof (lookup_lt_Some _ _ _ Hj) as Hlt.
      rewrite length_app in Hlt. simpl in Hlt.
      assert (j = length rules) as -> by lia.
      rewrite lookup_app_r, Nat.sub_diag in Hj by lia. injection Hj as <-.
      split; [rewrite Hfp; apply list_elem_of_singleton; reflexivity|].
      intros r Hr. split.
      * rewrite Hfp. apply list_elem_of_lookup in Hr as [k Hk]. exact (Hnone k r Hk).
      * rewrite Hid. apply fresh_id_above in Hr. lia.
Qed.

Lemma sync_rules_grows (file_path0 repository0 category0 : string)
    (entries : list RuleEntry) (rules rules' : list Rule) (o : outcome) :
  sync_rules supported_languages rule_repositories file_path0 repository0 category0
    entries rules = (o, rules') →
  grows [file_path0] rules rules'.
Proof.
  revert rules. induction entries as [|c_rule entries IH]; intros rules; simpl.
  - intros [= <- <-]. apply grows_refl.
  - destruct (sync_rule supported_languages rule_repositories file_path0 repository0
                category0 c_rule rules) as [[|e] rules1] eqn:Hturn.
    + intros Hrest. apply (grows_weaken ([file_path0] ++ [file_path0])).
      * intros p Hp. apply elem_of_app in Hp as [Hp|Hp]; exact Hp.
      * eapply grows_trans; [eapply sync_rule_grows; exact Hturn | exact (IH _ Hrest)].
    + intros [= <- <-]. eapply sync_rule_grows. exact Hturn.
Qed.

Lemma entry_paths_cons (f : string * safe_load_result)
    (rest : list (string * safe_load_result)) :
  entry_paths (f :: rest) = entry_paths [f] ++ entry_paths rest.
Proof. unfold entry_paths. simpl. rewrite app_nil_r. reflexivity. Qed.

Lemma sync_file_grows (f : string * safe_load_result) (db db' : RuleStore) (o : outcome) :
  sync_file supported_languages rule_repositories f db = (o, db') →
  session db = committed db →
  grows (entry_paths [f]) (committed db) (session db')
  ∧ grows (entry_paths [f]) (committed db) (committed db').
Proof.
  intros Hfile Hclean. destruct f as [c_filename [|[entries|]]]; simpl in Hfile.
  - injection Hfile as <- <-. simpl. split; apply grows_refl.
  - destruct (sync_rules supported_languages rule_repositories _ _ _ entries (session db))
      as [o1 rules] eqn:Hrules.
    assert (Hg : grows (entry_paths [(c_filename, Parsed (Some entries))])
                   (committed db) rules).
    { destruct entries as [|c_rule entries].
      - simpl in Hrules. injection Hrules as <- <-. rewrite Hclean. apply grows_refl.
      - apply sync_rules_grows in Hrules. rewrite Hclean in Hrules. exact Hrules. }
    destruct o1 as [|e]; injection Hfile as <- <-; simpl.
    + split; exact Hg.
    + split; [exact Hg | apply grows_refl].
  - injection Hfile as <- <-. simpl. rewrite Hclean. split; apply grows_refl.
Qed.

Lemma sync_db_grows (rules_filenames : list (string * safe_load_result))
    (db db' : RuleStore) (o : outcome) :
  sync_db supported_languages rule_repositories rules_filenames db = (o, db') →
  session db = committed db →
  grows (entry_paths rules_filenames) (committed db) (session db')
  ∧ grows (entry_paths rules_filenames) (committed db) (committed db').
Proof.
  revert db. induction rules_filenames as [|f rest IH]; intros db.
  - simpl. intros [= <- <-] Hclean. rewrite Hclean. split; apply grows_refl.
  - rewrite entry_paths_cons. cbn [sync_db].
    destruct (sync_file supported_languages rule_repositories f db) as [[|e] db1] eqn:Hfile.
    + intros Hrest Hclean.
      destruct (sync_file_grows _ _ _ _ Hfile Hclean) as [_ Hc1].
      pose proof (sync_file_returned_clean _ _ _ Hfile) as Hclean1.
      destruct (IH _ Hrest Hclean1) as [Hs Hc].
      split; eapply grows_trans; eassumption.
    + intros [= <- <-] Hclean.
      destruct (sync_file_grows _ _ _ _ Hfile Hclean) as [Hs1 Hc1].
      split; (eapply grows_weaken; [|eassumption]);
        intros p Hp; apply elem_of_app; left; exact Hp.
Qed.

Lemma sync_rules_covered (file_path0 repository0 category0 : string) (c_rule : RuleEntry)
    (rest : list RuleEntry) (rules rules' : list Rule) :
  sync_rules supported_languages rule_repositories file_path0 repository0 category0
    (c_rule :: rest) rules = (Returned, rules') →
  ∃ i r', rules' !! i = Some r' ∧ file_path r' = file_path0 ∧ sev_ok r'.
Proof.
  simpl.
  destruct (sync_rule supported_languages rule_repositories file_path0 repository0
              category0 c_rule rules) as [[|e] rules1] eqn:Hturn; [|discriminate].
  intros Hrest.
  destruct (sync_rule_returned _ _ _ _ _ _ Hturn)
    as (i & ra0 & ra' & Hupd & Hi & _ & Hfp & _).
  destruct (update_rule_evolves _ _ _ Hupd) as [((_ & _ & Hfp' & _) & _) Hsev].
  destruct (sync_rules_mono _ _ _ _ _ _ Hrest i ra' Hi)
    as (r' & Hr' & (_ & _ & Hfp'' & _) & _ & Hkeep).
  exists i, r'. split; [exact Hr'|]. split; [congruence | exact (Hkeep Hsev)].
Qed.

Lemma sync_db_covered (rules_filenames : list (string * safe_load_result))
    (db db' : RuleStore) :
  sync_db supported_languages rule_repositories rules_filenames db = (Returned, db') →
  ∀ p, p ∈ entry_paths rules_filenames →
       ∃ i r', session db' !! i = Some r' ∧ file_path r' = p ∧ sev_ok r'.
Proof.
  revert db. induction rules_filenames as [|f rest IH]; intros db; simpl.
  - intros _ p Hp. apply elem_of_nil in Hp. contradiction.
  - destruct (sync_file supported_languages rule_repositories f db) as [[|e] db1] eqn:Hfile;
      [|discriminate].
    intros Hrest p Hp. change (p ∈ entry_paths (f :: rest)) in Hp.
    rewrite entry_paths_cons in Hp. apply elem_of_app in Hp as [Hp|Hp]; [|exact (IH _ Hrest p Hp)].
    destruct f as [c_filename [|[[|c_rule entries]|]]];
      try (apply elem_of_nil in Hp; contradiction).
    apply list_elem_of_singleton in Hp. simpl in Hp. subst p.
    unfold sync_file in Hfile.
    destruct (sync_rules supported_languages rule_repositories
                (file_path_of c_filename) (repository_of (file_path_of c_filename))
                (category_of (file_path_of c_filename)) (c_rule :: entries) (session db))
      as [[|e] rules] eqn:Hrules; [|discriminate].
    injection Hfile as <-.
    destruct (sync_rules_covered _ _ _ _ _ _ _ Hrules) as (i & r1 & Hi & Hfp & Hsev).
    destruct (sync_db_mono _ _ _ Hrest i r1 Hi)
      as (r' & Hr' & (_ & _ & Hfp' & _) & _ & Hkeep).
    exists i, r'. split; [exact Hr'|]. split; [congruence | exact (Hkeep Hsev)].
Qed.

Lemma sync_rules_split (file_path0 repository0 category0 : string)
    (es1 es2 : list RuleEntry) (rules rules' : list Rule) :
  sync_rules supported_languages rule_repositories file_path0 repository0 category0
    (es1 ++ es2) rules = (Returned, rules') →
  ∃ rules1,
    sync_rules supported_languages rule_repositories file_path0 repository0 category0
      es1 rules = (Returned, rules1)
    ∧ sync_rules supported_languages rule_repositories file_path0 repository0 category0
        es2 rules1 = (Returned, rules').
Proof.
  revert rules. induction es1 as [|c_rule es1 IH]; intros rules; simpl.
  - intros Hrun. exists rules. split; [reflexivity | exact Hrun].
  - destruct (sync_rule supported_languages rule_repositories file_path0 repository0
                category0 c_rule rules) as [[|e] rules0]; [|discriminate].
    apply IH.
Qed.

Lemma sync_db_split (before after : list (string * safe_load_result)) (db db' : RuleStore) :
  sync_db supported_languages rule_repositories (before ++ after) db = (Returned, db') →
  ∃ db1,
    sync_db supported_languages rule_repositories before db = (Returned, db1)
    ∧ sync_db supported_languages rule_repositories after db1 = (Returned, db').
Proof.
  revert db. induction before as [|f before IH]; intros db; simpl.
  - intros Hrun. exists db. split; [reflexivity | exact Hrun].
  - destruct (sync_file supported_languages rule_repositories f db) as [[|e] db0];
      [|discriminate].
    apply IH.
Qed.

Lemma update_rule_cwe (c_rule : RuleEntry) (md : Metadata) (c : string) (r r' : Rule) :
  update_rule supported_languages c_rule r = (Returned, r') →
  entry_metadata c_rule = Some md → md_cwe md = Some c →
  cwe r' = Some c ∧ severity r' = Some (generate_severity (Some c)).
Proof.
  rewrite update_rule_unfold. unfold apply_metadata. intros Hupd Hmd Hcwe.
  rewrite Hmd, Hcwe in Hupd.
  destruct (md_owasp md) as [[o|[|o os]]|]; try discriminate;
    destruct (repository _) in Hupd; try discriminate;
    injection Hupd as <-; simpl; split; reflexivity.
Qed.

Lemma sync_rule_last (file_path0 repository0 category0 : string) (c_rule : RuleEntry)
    (rules rules' : list Rule) :
  sync_rule supported_languages rule_repositories file_path0 repository0 category0
    c_rule rules = (Returned, rules') →
  ∃ i r0 r',
    update_rule supported_languages c_rule r0 = (Returned, r')
    ∧ first_by_path file_path0 rules' = Some (i, r').
Proof.
  intros Hturn. apply sync_rule_shape in Hturn.
  destruct (first_by_path file_path0 rules) as [[i rule]|] eqn:Hfind.
  - destruct Hturn as (rule' & Hupd & ->). exists i, rule, rule'.
    split; [exact Hupd|]. apply (first_by_path_insert _ _ _ rule); [exact Hfind|].
    apply update_rule_static in Hupd as [(_ & _ & Hfp & _) _].
    apply first_by_path_Some in Hfind as (_ & Hp & _). congruence.
  - destruct Hturn as (rule' & Hupd & ->).
    exists (length rules),
      (new_rule rule_repositories file_path0 repository0 category0 c_rule rules), rule'.
    split; [exact Hupd|]. apply first_by_path_snoc; [exact Hfind|].
    apply update_rule_static in Hupd as [(_ & _ & Hfp & _) _]. exact Hfp.
Qed.

(** C2. Every turn of the loop over the rule entries looks the rule up by
    its file path: a rule found is updated in its place by the entry, with
    its identifier and file path; a rule is created, at the end of the
    table and with an identifier no rule has, only when no rule has the
    file path, and is then updated by the entry. So a run that starts from
    a clean session, whatever its outcome, leaves every rule of the store
    in its place with its identifier and file path, file paths that were
    unique stay unique, and a rule the run has added has the file path of a
    file of the run that has an entry, a file path and an identifier that
    no rule of the store had. A run that returns leaves, for every file
    that has an entry, a rule with the file path of the file, whose
    severity is the one of its CWE; and after the last entry of the last
    file, when the entry gives a CWE, the rule with the file path of the
    file has this CWE and its severity. *)
Theorem sync_db_keeps_rule_identity :
  (∀ file_path0 repository0 category0 c_rule (rules rules' : list Rule) o,
     sync_rule supported_languages rule_repositories file_path0 repository0 category0
       c_rule rules = (o, rules') →
     match first_by_path file_path0 rules with
     | Some (i, rule) =>
         ∃ rule', update_rule supported_languages c_rule rule = (o, rule')
                  ∧ rules' = <[i := rule']> rules
                  ∧ rule_id rule' = rule_id rule ∧ file_path rule' = file_path0
     | None =>
         ∃ rule', update_rule supported_languages c_rule
                    (new_rule rule_repositories file_path0 repository0 category0
                       c_rule rules) = (o, rule')
                  ∧ rules' = rules ++ [rule']
                  ∧ file_path rule' = file_path0 ∧ rule_id rule' ∉ rule_id <$> rules
     end)
  ∧ (∀ rules_filenames (db db' : RuleStore) o,
       sync_db supported_languages rule_repositories rules_filenames db = (o, db') →
       session db = committed db →
       ∀ rules', rules' = committed db' ∨ rules' = session db' →
         (∀ i r, committed db !! i = Some r →
                 ∃ r', rules' !! i = Some r'
                       ∧ rule_id r' = rule_id r ∧ file_path r' = file_path r)
         ∧ (NoDup (file_path <$> committed db) → NoDup (file_path <$> rules'))
         ∧ (∀ j r', rules' !! j = Some r' → (length (committed db) <= j)%nat →
                    file_path r' ∈ entry_paths rules_filenames
                    ∧ ∀ r, r ∈ committed db →
                           file_path r ≠ file_path r' ∧ rule_id r ≠ rule_id r'))
  ∧ (∀ rules_filenames (db db' : RuleStore),
       sync_db supported_languages rule_repositories rules_filenames db = (Returned, db') →
       ∀ p, p ∈ entry_paths rules_filenames →
            ∃ r', r' ∈ committed db' ∧ file_path r' = p
                  ∧ severity r' = Some (generate_severity (cwe r')))
  ∧ (∀ before c_filename entries c_rule md c (db db' : RuleStore),
       sync_db supported_languages rule_repositories
         (before ++ [(c_filename, Parsed (Some (entries ++ [c_rule])))]) db
       = (Returned, db') →
       entry_metadata c_rule = Some md → md_cwe md = Some c →
       ∃ i r', first_by_path (file_path_of c_filename) (committed db') = Some (i, r')
               ∧ cwe r' = Some c ∧ severity r' = Some (generate_severity (Some c))).
Proof.
  split; [|split; [|split]].
  - intros file_path0 repository0 category0 c_rule rules rules' o Hstep.
    apply sync_rule_shape in Hstep.
    destruct (first_by_path file_path0 rules) as [[i rule]|] eqn:Hfind.
    + destruct Hstep as (rule' & Hupd & ->). exists rule'.
      apply first_by_path_Some in Hfind as (_ & Hp & _).
      split; [exact Hupd|].
      apply update_rule_static in Hupd as [(H1 & _ & H3 & _) _].
      split; [reflexivity|]. split; [exact H1 | congruence].
    + destruct Hstep as (rule' & Hupd & ->). exists rule'.
      split; [exact Hupd|].
      apply update_rule_static in Hupd as [(H1 & _ & H3 & _) _]. simpl in H1, H3.
      split; [reflexivity|]. split; [exact H3|].
      intros Hin. apply list_elem_of_fmap in Hin as (r & Hr & Hin).
      apply fresh_id_above in Hin. lia.
  - intros rules_filenames db db' o Hrun Hclean rules' Hrules'.
    assert (Hok : store_ok db).
    { unfold store_ok. rewrite Hclean. apply keeps_refl. }
    destruct (sync_db_keeps _ _ _ _ Hrun Hok) as (Hc & Hs & _).
    destruct (sync_db_grows _ _ _ _ Hrun Hclean) as [Hgs Hgc].
    assert (Hk : keeps (committed db) rules').
    { destruct Hrules' as [-> | ->]; assumption. }
    assert (Hg : grows (entry_paths rules_filenames) (committed db) rules').
    { destruct Hrules' as [-> | ->]; assumption. }
    destruct Hk as (Hrows & Hpaths & _). split; [|split; [exact Hpaths | exact (proj2 Hg)]].
    intros i r Hl. destruct (Hrows i r Hl) as (r' & Hl' & (H1 & _ & H3 & _)).
    exists r'. auto.
  - intros rules_filenames db db' Hrun p Hp.
    destruct (sync_db_covered _ _ _ Hrun p Hp) as (i & r' & Hi & Hfp & Hsev).
    assert (Hne : rules_filenames ≠ []).
    { intros ->. apply elem_of_nil in Hp. contradiction. }
    rewrite (sync_db_returned_clean _ _ _ Hrun Hne) in Hi.
    exists r'. split; [exact (list_elem_of_lookup_2 _ _ _ Hi)|]. split; [exact Hfp | exact Hsev].
  - intros before c_filename entries c_rule md c db db' Hrun Hmd Hcwe.
    destruct (sync_db_split _ _ _ _ Hrun) as (db1 & _ & Hlast).
    simpl in Hlast.
    destruct (sync_rules supported_languages rule_repositories _ _ _
                (entries ++ [c_rule]) (session db1)) as [[|e] rules] eqn:Hrules;
      [|discriminate].
    injection Hlast as <-. simpl.
    destruct (sync_rules_split _ _ _ _ _ _ _ Hrules) as (rules1 & _ & Hentry).
    simpl in Hentry.
    destruct (sync_rule supported_languages rule_repositories _ _ _ c_rule rules1)
      as [[|e] rules2] eqn:Hturn; [|discriminate].
    injection Hentry as ->.
    destruct (sync_rule_last _ _ _ _ _ _ Hturn) as (i & r0 & r' & Hupd & Hfirst).
    exists i, r'. split; [exact Hfirst|]. exact (update_rule_cwe _ _ _ _ _ Hupd Hmd Hcwe).
Qed.

Lemma resynchronized_same_fields (r1 r2 : Rule) : resynchronized r1 r2 → same_fields r1 r2.
Proof.
  intros (H1 & H2 & H3 & H4 & H5 & H6 & H7 & H8 & extra & Hlang & Hextra).
  repeat split; try assumption.
  - rewrite Hlang, elem_of_app. intros [Hx | Hx]; [exact Hx | exact (Hextra x Hx)].
  - rewrite Hlang, elem_of_app. auto.
Qed.

(** C7. After a run that returns, a second run on the same checkout
    returns too; it creates no rule, the identifiers are the same, and it
    leaves every rule with its title, file path, repository, category,
    CWE, OWASP, severity and associated languages, in the database and in
    the session. *)
Theorem sync_db_twice (rules_filenames : list (string * safe_load_result))
    (db db1 : RuleStore) :
  sync_db supported_languages rule_repositories rules_filenames db = (Returned, db1) →
  ∃ db2,
    sync_db supported_languages rule_repositories rules_filenames db1 = (Returned, db2)
    ∧ rule_id <$> committed db2 = rule_id <$> committed db1
    ∧ Forall2 same_fields (committed db1) (committed db2)
    ∧ Forall2 same_fields (session db1) (session db2).
Proof.
  intros Hrun.
  assert (Hids : ∀ l1 l2 : list Rule,
             Forall2 resynchronized l1 l2 → rule_id <$> l2 = rule_id <$> l1).
  { intros l1 l2 Hall. induction Hall as [|r1 r2 l1 l2 Hr _ IH]; [reflexivity|].
    rewrite !fmap_cons. f_equal; [apply Hr | exact IH]. }
  assert (Hsame : ∀ l1 l2 : list Rule,
             Forall2 resynchronized l1 l2 → Forall2 same_fields l1 l2).
  { intros l1 l2 Hall. eapply Forall2_impl; [exact Hall|].
    intros r1 r2. apply resynchronized_same_fields. }
  destruct rules_filenames as [|f rest].
  - simpl in Hrun. injection Hrun as <-. exists db. split; [reflexivity|].
    split; [reflexivity|]. split; apply Hsame, resynchronized_refl.
  - pose proof (sync_db_returned_clean _ _ _ Hrun ltac:(discriminate)) as Hclean1.
    pose proof (lockstep_start _ _ (sync_db_mono _ _ _ Hrun)) as Hstart.
    destruct (sync_db_lockstep _ (session db1) db db1 db1 Hrun (mono_refl _) Hstart)
      as (db2 & Hrun2 & Hlock).
    pose proof (sync_db_returned_clean _ _ _ Hrun2 ltac:(discriminate)) as Hclean2.
    apply lockstep_end in Hlock.
    exists db2. split; [exact Hrun2|]. rewrite <- Hclean1, <- Hclean2.
    split; [exact (Hids _ _ Hlock)|]. split; exact (Hsame _ _ Hlock).
Qed.

End SyncFacts.

(** The second run on a checkout of two rule files. *)
Lemma sync_db_twice_witness :
  ∃ db2,
    sync_db (Constants0 := Samples.rule_constants)
      Samples.known_languages Samples.known_repositories
      [Samples.xss_file; Samples.sqli_file] Samples.two_rules_store = (Returned, db2)
    ∧ rule_id <$> committed db2 = rule_id <$> committed Samples.two_rules_store
    ∧ Forall2 same_fields (committed Samples.two_rules_store) (committed db2)
    ∧ Forall2 same_fields (session Samples.two_rules_store) (session db2).
Proof.
  apply (sync_db_twice (Constants0 := Samples.rule_constants)
           Samples.known_languages Samples.known_repositories
           [Samples.xss_file; Samples.sqli_file] Samples.empty_store
           Samples.two_rules_store).
  vm_compute. reflexivity.
Defined.

(** A checkout of one rule file followed by a file that does not parse. *)
Lemma sync_db_parse_failure_witness :
  sync_db (Constants0 := Samples.rule_constants)
    Samples.known_languages Samples.known_repositories
    ([Samples.xss_file] ++ [Samples.broken_file]) Samples.empty_store
  = (Raised YAMLError, Samples.xss_store).
Proof.
  destruct (sync_db_parse_failure (Constants0 := Samples.rule_constants)
              Samples.known_languages Samples.known_repositories
              [Samples.xss_file] [] "/data/rules/community/python/broken.yaml"
              Samples.empty_store Samples.xss_store) as (Hrun & _).
  - vm_compute. reflexivity.
  - exact Hrun.
Defined.

(** C3 fails as stated: a file synchronized before the failing one stays
    committed, so the store is not left as it was before the run. *)
Lemma sync_db_parse_failure_keeps_earlier_files :
  sync_db (Constants0 := Samples.rule_constants)
    Samples.known_languages Samples.known_repositories
    [Samples.xss_file; Samples.broken_file] Samples.empty_store
  = (Raised YAMLError, Samples.xss_store)
  ∧ committed Samples.xss_store = [Samples.xss_rule]
  ∧ committed Samples.empty_store = []
  ∧ committed Samples.xss_store ≠ committed Samples.empty_store.
Proof.
  split; [vm_compute; reflexivity|]. split; [reflexivity|]. split; [reflexivity|].
  discriminate.
Qed.

(** An upstream edit of the CWE of a rule, and a second run: the rule is
    found by its file path and updated in its place; it keeps its
    identifier, no rule is added, and its severity is the one of the new
    CWE. *)
Lemma sync_db_keeps_rule_identity_witness :
  ((∀ i r, committed Samples.xss_store !! i = Some r →
           ∃ r', committed Samples.edited_store !! i = Some r'
                 ∧ rule_id r' = rule_id r ∧ file_path r' = file_path r)
   ∧ (NoDup (file_path <$> committed Samples.xss_store) →
      NoDup (file_path <$> committed Samples.edited_store))
   ∧ (∀ j r', committed Samples.edited_store !! j = Some r' →
              (length (committed Samples.xss_store) <= j)%nat →
              file_path r' ∈ entry_paths (Constants0 := Samples.rule_constants)
                               [Samples.xss_file_edited]
              ∧ ∀ r, r ∈ committed Samples.xss_store →
                     file_path r ≠ file_path r' ∧ rule_id r ≠ rule_id r'))
  ∧ (∃ r', r' ∈ committed Samples.edited_store
            ∧ file_path r' = "community/python/xss.yaml"%string
            ∧ severity r'
              = Some (generate_severity (Constants0 := Samples.rule_constants) (cwe r')))
  ∧ (∃ i r',
       first_by_path "community/python/xss.yaml" (committed Samples.edited_store)
       = Some (i, r')
       ∧ cwe r' = Some "CWE-80: Basic XSS"%string
       ∧ severity r'
         = Some (generate_severity (Constants0 := Samples.rule_constants)
                   (Some "CWE-80: Basic XSS"%string)))
  ∧ rule_id <$> committed Samples.xss_store = [1]
  ∧ rule_id <$> committed Samples.edited_store = [1]
  ∧ severity <$> committed Samples.xss_store = [Some "high"%string]
  ∧ severity <$> committed Samples.edited_store = [Some "medium"%string].
Proof.
  pose proof (sync_db_keeps_rule_identity (Constants0 := Samples.rule_constants)
                Samples.known_languages Samples.known_repositories)
    as (_ & Hrun & Hcover & Hlast).
  split; [|split; [|split; [|repeat split; reflexivity]]].
  - apply (Hrun [Samples.xss_file_edited] Samples.xss_store Samples.edited_store Returned).
    + reflexivity.
    + reflexivity.
    + left. reflexivity.
  - apply (Hcover [Samples.xss_file_edited] Samples.xss_store Samples.edited_store).
    + reflexivity.
    + apply list_elem_of_singleton. reflexivity.
  - apply (Hlast [] "/data/rules/community/python/xss.yaml"%string []
             Samples.xss_entry_edited
             {| md_cwe := Some "CWE-80: Basic XSS"%string;
                md_owasp := Some (OwaspList ["A7:2017"%string; "A3:2021"%string]) |}
             "CWE-80: Basic XSS"%string Samples.xss_store Samples.edited_store).
    + reflexivity.
    + reflexivity.
    + reflexivity.
Defined.

End RulesFacts.

(** ** The severity classifier on Unicode text: facts *)
Module RulesTextFacts.
Import PyUnicode RulesText.

Section ClassifierFacts.
Context `{Database} {Severity : Type} `{!Constants Severity}.






Lemma text_search_unfold (s : str) :
  search_cwe s =
  match match_cwe_here s with
  | Some m => Some m
  | None =>
      match s with
      | [] => None
      | _ :: s' => search_cwe s'
      end
  end.
Proof. destruct s; reflexivity. Qed.








End ClassifierFacts.

(** *** The classifier of the synchronizer and the classifier on text

    On a text whose characters are those of a [string], the classifier on
    text is the classifier the model of the synchronizer uses, when the
    database has these characters as ASCII has them and the two tables
    agree. *)
Section Latin1.
Context `{Database} {Severity : Type} {K : Rules.Constants Severity}
  {KT : Constants Severity}.

Hypothesis decimal_latin1 : ∀ c : ascii, isdecimal (of_ascii c) = PyStr.is_digit c.
Hypothesis letters_latin1 :
  ∀ c pat : ascii, pat ∈ ["C"; "W"; "E"]%char →
                   ieq (of_ascii c) (of_ascii pat) = Rules.ieq c pat.
Hypothesis upper_ascii_chars :
  ∀ c : ascii, (nat_of_ascii c < 128)%nat →
               toupper_full (of_ascii c) = [of_ascii (PyStr.upper_ascii c)].
Hypothesis same_low : SEVERITY_LOW = Rules.SEVERITY_LOW.
Hypothesis same_medium : SEVERITY_MEDIUM = Rules.SEVERITY_MEDIUM.
Hypothesis same_table :
  ∀ k : string, TOP40_CWE_SEVERITIES !! of_string k = Rules.TOP40_CWE_SEVERITIES !! k.

Lemma of_string_app (a b : string) : of_string (a +:+ b) = of_string a ++ of_string b.
Proof.
  induction a as [|c a IH]; [reflexivity|].
  change (of_string (String c a +:+ b)) with (of_ascii c :: of_string (a +:+ b)).
  rewrite IH. reflexivity.
Qed.

Lemma of_ascii_eqb (a b : ascii) : N.eqb (of_ascii a) (of_ascii b) = Ascii.eqb a b.
Proof.
  destruct (Ascii.eqb_spec a b) as [->|Hne]; [apply N.eqb_refl|].
  apply N.eqb_neq. intros Heq. apply Hne.
  rewrite <- (ascii_N_embedding a), <- (ascii_N_embedding b).
  unfold of_ascii in Heq. rewrite Heq. reflexivity.
Qed.

Lemma digits_prefix_of_string (s : string) :
  digits_prefix (of_string s) = of_string (Rules.digits_prefix s).
Proof.
  induction s as [|c s IH]; [reflexivity|].
  change (of_string (String c s)) with (of_ascii c :: of_string s).
  cbn [digits_prefix Rules.digits_prefix]. rewrite decimal_latin1.
  destruct (PyStr.is_digit c); [|reflexivity].
  rewrite IH. reflexivity.
Qed.

Lemma match_cwe_here_of_string (s : string) :
  match_cwe_here (of_string s) = option_map of_string (Rules.match_cwe_here s).
Proof.
  destruct s as [|c1 [|c2 [|c3 [|c4 rest]]]]; try reflexivity.
  change (of_string (String c1 (String c2 (String c3 (String c4 rest)))))
    with (of_ascii c1 :: of_ascii c2 :: of_ascii c3 :: of_ascii c4 :: of_string rest).
  unfold match_cwe_here, Rules.match_cwe_here.
  rewrite (letters_latin1 c1 "C"), (letters_latin1 c2 "W"), (letters_latin1 c3 "E"),
    of_ascii_eqb, digits_prefix_of_string;
    [| rewrite !elem_of_cons; auto ..].
  destruct (Rules.ieq c1 "C" && Rules.ieq c2 "W" && Rules.ieq c3 "E" && Ascii.eqb c4 "-");
    [|reflexivity].
  destruct (Rules.digits_prefix rest); reflexivity.
Qed.

Lemma search_cwe_of_string (s : string) :
  search_cwe (of_string s) = option_map of_string (Rules.search_cwe s).
Proof.
  induction s as [|c s IH].
  - reflexivity.
  - rewrite text_search_unfold, RulesFacts.search_cwe_unfold, match_cwe_here_of_string.
    destruct (Rules.match_cwe_here (String c s)); [reflexivity|].
    exact IH.
Qed.

Lemma upper_ascii_below (c : ascii) :
  (nat_of_ascii (PyStr.upper_ascii c) < 128)%nat → (nat_of_ascii c < 128)%nat.
Proof.
  unfold PyStr.upper_ascii, PyStr.is_lower.
  destruct ((97 <=? nat_of_ascii c)%nat && (nat_of_ascii c <=? 122)%nat) eqn:Hlow; [|auto].
  apply andb_true_iff in Hlow as [_ Hle]. apply Nat.leb_le in Hle. lia.
Qed.

Lemma upper_of_string (m : string) :
  Forall (fun c => (nat_of_ascii c < 128)%nat) (list_ascii_of_string m) →
  upper (of_string m) = of_string (PyStr.upper m).
Proof.
  induction m as [|c m IH]; [reflexivity|]. simpl list_ascii_of_string.
  intros Hall. apply Forall_cons in Hall as [Hc Hm].
  change (of_string (String c m)) with (of_ascii c :: of_string m).
  change (upper (of_ascii c :: of_string m))
    with (toupper_full (of_ascii c) ++ upper (of_string m)).
  rewrite (upper_ascii_chars c Hc), (IH Hm). reflexivity.
Qed.

Lemma upper_prefix_below (pfx : string) :
  PyStr.upper pfx = "CWE-"%string →
  Forall (fun c => (nat_of_ascii c < 128)%nat) (list_ascii_of_string pfx).
Proof.
  destruct pfx as [|c1 [|c2 [|c3 [|c4 [|c5 rest]]]]]; simpl; try discriminate.
  intros Heq. injection Heq as H1 H2 H3 H4.
  rewrite !Forall_cons.
  repeat split; try (apply Forall_nil; exact I); apply upper_ascii_below;
    rewrite ?H1, ?H2, ?H3, ?H4; vm_compute; lia.
Qed.

Lemma all_digits_below (ds : string) :
  Rules.all_digits ds = true →
  Forall (fun c => (nat_of_ascii c < 128)%nat) (list_ascii_of_string ds).
Proof.
  induction ds as [|d ds IH]; simpl; [constructor|].
  intros Hd. apply andb_true_iff in Hd as [Hd Hds]. constructor; [|exact (IH Hds)].
  unfold PyStr.is_digit in Hd. apply andb_true_iff in Hd as [_ Hle].
  apply Nat.leb_le in Hle. lia.
Qed.

Lemma list_ascii_of_string_app (a b : string) :
  list_ascii_of_string (a +:+ b) = list_ascii_of_string a ++ list_ascii_of_string b.
Proof. induction a as [|c a IH]; simpl; [reflexivity | rewrite IH; reflexivity]. Qed.

(** The two classifiers agree on the texts of strings. *)
Lemma generate_severity_of_string (cwe_string : option string) :
  generate_severity (option_map of_string cwe_string) = Rules.generate_severity cwe_string.
Proof.
  destruct cwe_string as [s|]; [|exact same_low].
  unfold generate_severity, Rules.generate_severity. cbn [option_map].
  rewrite search_cwe_of_string.
  pose proof (RulesFacts.search_cwe_cases s) as Hcases.
  destruct (Rules.search_cwe s) as [m|]; cbn [option_map]; [|exact same_low].
  destruct Hcases as (pre & pfx & ds & post & -> & (_ & Hp & _ & Hd) & _).
  rewrite upper_of_string, same_table, same_medium; [reflexivity|].
  rewrite list_ascii_of_string_app. apply Forall_app.
  split; [exact (upper_prefix_below pfx Hp) | exact (all_digits_below ds Hd)].
Qed.

End Latin1.

(** The classifier on sample inputs: no input, no identifier, an identifier
    of the table in lower case, an identifier outside the table, and an
    identifier written with Arabic-Indic digits. *)
Example generate_severity_text_samples :
  generate_severity (H := Samples.unicode) (Constants0 := Samples.text_constants) None
  = "low"%string
  ∧ generate_severity (H := Samples.unicode) (Constants0 := Samples.text_constants)
      (Some (of_string "random text")) = "low"%string
  ∧ generate_severity (H := Samples.unicode) (Constants0 := Samples.text_constants)
      (Some (of_string "cwe-79: Cross-site scripting")) = "high"%string
  ∧ generate_severity (H := Samples.unicode) (Constants0 := Samples.text_constants)
      (Some (of_string "see CWE-1234")) = "medium"%string
  ∧ generate_severity (H := Samples.unicode) (Constants0 := Samples.text_constants)
      (Some (of_string "CWE-" ++ [1639; 1641]%N)) = "medium"%string.
Proof. repeat split; vm_compute; reflexivity. Qed.

(** The upper cases of the sample database are the expected ones. *)
Example sample_plain_upper : plain_upper (H := Samples.unicode).
Proof.
  assert (Hcase : ∀ c p : N,
            (65 <= p <= 90)%N →
            N.eqb (tolower (Database := Samples.unicode) c)
                  (tolower (Database := Samples.unicode) p) = true →
            toupper_full (Database := Samples.unicode) c = [p]).
  { intros c p Hp Heq. apply N.eqb_eq in Heq. simpl in Heq |- *.
    destruct (N.leb_spec 65 p), (N.leb_spec p 90); try lia. simpl in Heq.
    destruct (N.leb_spec 65 c), (N.leb_spec c 90), (N.leb_spec 97 c), (N.leb_spec c 122);
      simpl in Heq |- *; f_equal; lia. }
  split; [|split].
  - intros c pat Hpat Heq. apply Hcase; [|exact Heq].
    change (of_string "CWE") with [67; 87; 69]%N in Hpat.
    rewrite !elem_of_cons, elem_of_nil in Hpat. lia.
  - reflexivity.
  - intros d Hd. simpl in Hd |- *. f_equal.
    destruct (N.leb_spec 97 d), (N.leb_spec d 122); simpl; [|reflexivity..].
    destruct (N.leb_spec 48 d), (N.leb_spec d 57), (N.leb_spec 1632 d), (N.leb_spec d 1641);
      simpl in Hd; try discriminate; lia.
Qed.

(** The sample database and tables are as the lemma above asks: the
    classifier on text and the classifier of the synchronizer agree on the
    texts of strings. *)
Example generate_severity_sample_agreement (cwe_string : option string) :
  generate_severity (H := Samples.unicode) (Constants0 := Samples.text_constants)
    (option_map of_string cwe_string)
  = Rules.generate_severity (Constants0 := Samples.rule_constants) cwe_string.
Proof.
  apply (generate_severity_of_string (H := Samples.unicode)
           (K := Samples.rule_constants) (KT := Samples.text_constants)).
  - intros [[] [] [] [] [] [] [] []]; vm_compute; reflexivity.
  - intros c pat Hpat. rewrite !elem_of_cons, elem_of_nil in Hpat.
    destruct Hpat as [->|[->|[->|[]]]];
      destruct c as [[] [] [] [] [] [] [] []]; vm_compute; reflexivity.
  - intros [[] [] [] [] [] [] [] []] Hlt; vm_compute in Hlt |- *;
      first [reflexivity | exfalso; lia].
  - reflexivity.
  - reflexivity.
  - intros k. unfold Samples.text_constants, Samples.rule_constants. simpl.
    destruct (decide (k = "CWE-79"%string)) as [->|Hne].
    + rewrite !lookup_singleton. reflexivity.
    + rewrite !lookup_singleton_ne; [reflexivity | congruence |].
      intros Heq. apply Hne.
      assert (Hinj : ∀ a b : string, of_string a = of_string b → a = b).
      { induction a as [|x a IH]; intros [|y b] Hab; try discriminate; [reflexivity|].
        injection Hab as Hxy Hab. f_equal; [|exact (IH b Hab)].
        rewrite <- (ascii_N_embedding x), <- (ascii_N_embedding y).
        unfold of_ascii in Hxy. rewrite Hxy. reflexivity. }
      symmetry. apply Hinj. exact Heq.
Qed.

End RulesTextFacts.

(** ** More properties of [app/projects/util.py] *)
Module ProjectsExtra.
Import Projects ProjectsRest.

(** *** Severities of an analysis *)

(** X1. [has_vuln_with_severity] is true exactly when some vulnerability of
    the analysis has the severity, and [has_vuln_dep_with_severity] exactly
    when some vulnerable dependency has it. *)
Theorem has_severity_iff (a : Analysis) (severity_level : string) :
  (has_vuln_with_severity a severity_level = true
   ↔ ∃ v, v ∈ vulnerabilities a ∧ vuln_severity v = severity_level)
  ∧ (has_vuln_dep_with_severity a severity_level = true
     ↔ ∃ d, d ∈ vulnerable_dependencies a ∧ dep_severity d = severity_level).
Proof.
  unfold has_vuln_with_severity, has_vuln_dep_with_severity.
  rewrite !ProjectsFacts.has_severity_loop_present. unfold tier_present.
  rewrite !bool_decide_eq_true. split.
  - rewrite list_elem_of_In, in_map_iff. split.
    + intros (v & Hs & Hv). apply list_elem_of_In in Hv. eauto.
    + intros (v & Hv & Hs). apply list_elem_of_In in Hv. eauto.
  - rewrite list_elem_of_In, in_map_iff. split.
    + intros (v & Hs & Hv). apply list_elem_of_In in Hv. eauto.
    + intros (v & Hv & Hs). apply list_elem_of_In in Hv. eauto.
Qed.

(** *** Risk level *)

(** X2. The risk level of every project is within the range the docstring
    gives, 0 to 100. *)
Theorem calculate_risk_level_bounds {K : Constants} (project : Project) :
  distinct_severities → 0 <= calculate_risk_level project <= 100.
Proof. intros Hd. exact (ProjectsFacts.calculate_risk_level_range Hd project). Qed.

Lemma calculate_risk_level_bounds_witness :
  0 <= calculate_risk_level (K := Samples.severities) Samples.scanned <= 100.
Proof.
  apply (calculate_risk_level_bounds (K := Samples.severities) Samples.scanned).
  exact ProjectsFacts.sample_severities_distinct.
Defined.

Section RiskOrder.
Context {K : Constants}.
Hypothesis distinct : distinct_severities.

Lemma tier_present_mono (l l' : list string) (s : string) :
  (∀ x, x ∈ l → x ∈ l') → tier_present l s = true → tier_present l' s = true.
Proof.
  unfold tier_present. rewrite !bool_decide_eq_true. auto.
Qed.

Lemma base_score_mono (a a' : Analysis) :
  (∀ s, s ∈ vuln_severities a → s ∈ vuln_severities a') →
  base_score a <= base_score a'.
Proof.
  intros Hsub. unfold base_score.
  pose proof (tier_present_mono _ _ SEVERITY_CRITICAL Hsub) as H1.
  pose proof (tier_present_mono _ _ SEVERITY_HIGH Hsub) as H2.
  pose proof (tier_present_mono _ _ SEVERITY_MEDIUM Hsub) as H3.
  pose proof (tier_present_mono _ _ SEVERITY_LOW Hsub) as H4.
  destruct (tier_present (vuln_severities a) SEVERITY_CRITICAL);
    [rewrite (H1 eq_refl); lia|].
  destruct (tier_present (vuln_severities a) SEVERITY_HIGH);
    [rewrite (H2 eq_refl); destruct (tier_present _ SEVERITY_CRITICAL); lia|].
  destruct (tier_present (vuln_severities a) SEVERITY_MEDIUM);
    [rewrite (H3 eq_refl);
     destruct (tier_present _ SEVERITY_CRITICAL), (tier_present _ SEVERITY_HIGH); lia|].
  destruct (tier_present (vuln_severities a) SEVERITY_LOW);
    [rewrite (H4 eq_refl)|];
    destruct (tier_present _ SEVERITY_CRITICAL), (tier_present _ SEVERITY_HIGH),
      (tier_present _ SEVERITY_MEDIUM); try lia;
    destruct (tier_present _ SEVERITY_LOW); lia.
Qed.

Lemma summed_increments_mono (a a' : Analysis) :
  (∀ s, s ∈ dep_severities a → s ∈ dep_severities a') →
  summed_increments a <= summed_increments a'.
Proof.
  intros Hsub. unfold summed_increments.
  pose proof (tier_present_mono _ _ SEVERITY_CRITICAL Hsub) as H1.
  pose proof (tier_present_mono _ _ SEVERITY_HIGH Hsub) as H2.
  pose proof (tier_present_mono _ _ SEVERITY_MEDIUM Hsub) as H3.
  pose proof (tier_present_mono _ _ SEVERITY_LOW Hsub) as H4.
  assert (Hone : ∀ (b b' : bool) (v : Z), 0 <= v → (b = true → b' = true) →
                   (if b then v else 0) <= (if b' then v else 0)).
  { intros [] [] v Hv Himp; try lia; specialize (Himp eq_refl); discriminate. }
  pose proof (Hone _ _ 10 ltac:(lia) H1). pose proof (Hone _ _ 8 ltac:(lia) H2).
  pose proof (Hone _ _ 5 ltac:(lia) H3). pose proof (Hone _ _ 2 ltac:(lia) H4).
  lia.
Qed.

(** X3. More findings never lower the risk level: when every severity of
    the vulnerabilities and of the vulnerable dependencies of one analysis
    occurs in another, a project with the second analysis and the same
    lines count has a risk level at least as high. *)
Theorem calculate_risk_level_monotone (n n' : string) (a a' : Analysis)
    (plc : option ProjectLinesCount) :
  (∀ s, s ∈ vuln_severities a → s ∈ vuln_severities a') →
  (∀ s, s ∈ dep_severities a → s ∈ dep_severities a') →
  calculate_risk_level {| name := n; analysis := Some a; project_lines_count := plc |}
  <= calculate_risk_level {| name := n'; analysis := Some a'; project_lines_count := plc |}.
Proof using distinct.
  intros Hv Hd. unfold calculate_risk_level. simpl.
  destruct plc as [plc|]; [|lia].
  destruct (0 <? total_code_count plc); [|lia].
  rewrite !(ProjectsFacts.base_loop_score distinct),
    !(ProjectsFacts.adjust_loop_sum distinct).
  pose proof (base_score_mono a a' Hv). pose proof (summed_increments_mono a a' Hd). lia.
Qed.

(** X4. With an analysis and a strictly positive code count, the risk level
    is 0 exactly when no vulnerability and no vulnerable dependency has one
    of the four severities. *)
Theorem calculate_risk_level_zero (project : Project) (a : Analysis)
    (plc : ProjectLinesCount) :
  analysis project = Some a →
  project_lines_count project = Some plc →
  0 < total_code_count plc →
  (calculate_risk_level project = 0
   ↔ ∀ s, s ∈ [SEVERITY_CRITICAL; SEVERITY_HIGH; SEVERITY_MEDIUM; SEVERITY_LOW] →
          (s ∉ vuln_severities a) ∧ (s ∉ dep_severities a)).
Proof using distinct.
  intros Ha Hp Hpos. unfold calculate_risk_level. rewrite Ha, Hp.
  destruct (Z.ltb_spec 0 (total_code_count plc)); [|lia].
  rewrite (ProjectsFacts.base_loop_score distinct),
    (ProjectsFacts.adjust_loop_sum distinct).
  unfold base_score, summed_increments, tier_present.
  assert (Hall : ∀ P : string → Prop,
    (∀ s, s ∈ [SEVERITY_CRITICAL; SEVERITY_HIGH; SEVERITY_MEDIUM; SEVERITY_LOW] → P s)
    ↔ P SEVERITY_CRITICAL ∧ P SEVERITY_HIGH ∧ P SEVERITY_MEDIUM ∧ P SEVERITY_LOW).
  { intros P. split.
    - intros Hs. repeat split; apply Hs; rewrite !elem_of_cons; auto.
    - intros (H1 & H2 & H3 & H4) s Hs. rewrite !elem_of_cons, elem_of_nil in Hs.
      destruct Hs as [->|[->|[->|[->|[]]]]]; assumption. }
  rewrite Hall.
  repeat match goal with
         | |- context [bool_decide ?P] => destruct (bool_decide_reflect P)
         end; split; try lia; tauto.
Qed.

End RiskOrder.

Lemma calculate_risk_level_monotone_witness :
  calculate_risk_level (K := Samples.severities)
    {| name := "demo"; analysis := Some Samples.one_tier;
       project_lines_count := Some Samples.three_languages |}
  <= calculate_risk_level (K := Samples.severities)
       {| name := "demo"; analysis := Some Samples.more_tiers;
          project_lines_count := Some Samples.three_languages |}
  ∧ calculate_risk_level (K := Samples.severities)
      {| name := "demo"; analysis := Some Samples.one_tier;
         project_lines_count := Some Samples.three_languages |} = 68
  ∧ calculate_risk_level (K := Samples.severities)
      {| name := "demo"; analysis := Some Samples.more_tiers;
         project_lines_count := Some Samples.three_languages |} = 85.
Proof.
  split; [|split; reflexivity].
  apply (calculate_risk_level_monotone (K := Samples.severities)
           ProjectsFacts.sample_severities_distinct).
  - intros s Hs. change (s ∈ ["high"%string]) in Hs.
    change (s ∈ ["critical"; "high"]%string).
    apply list_elem_of_singleton in Hs. subst s.
    apply elem_of_cons. right. apply elem_of_cons. left. reflexivity.
  - intros s Hs. change (s ∈ ["high"%string]) in Hs.
    change (s ∈ ["low"; "high"]%string).
    apply list_elem_of_singleton in Hs. subst s.
    apply elem_of_cons. right. apply elem_of_cons. left. reflexivity.
Defined.

Lemma calculate_risk_level_zero_witness :
  calculate_risk_level (K := Samples.severities) Samples.scanned = 0
  ↔ ∀ s, s ∈ ["critical"; "high"; "medium"; "low"]%string →
         (s ∉ vuln_severities Samples.two_tiers) ∧ (s ∉ dep_severities Samples.two_tiers).
Proof.
  apply (calculate_risk_level_zero (K := Samples.severities)
           ProjectsFacts.sample_severities_distinct Samples.scanned Samples.two_tiers
           Samples.three_languages).
  - reflexivity.
  - reflexivity.
  - reflexivity.
Defined.

(** *** The languages with the most code *)

(** X6. When at least one entry is asked for and the collection is not
    empty, the first entry returned has the greatest code count of the
    collection. *)
Theorem top_language_lines_counts_first (project_lc : ProjectLinesCount)
    (top_number : Z) :
  0 < top_number → language_lines_counts project_lc ≠ [] →
  ∃ first rest,
    top_language_lines_counts project_lc top_number = first :: rest
    ∧ first ∈ language_lines_counts project_lc
    ∧ ∀ x, x ∈ language_lines_counts project_lc → code_count x <= code_count first.
Proof.
  intros Hn Hne. unfold top_language_lines_counts.
  rewrite PyListFacts.slice_to_nonneg by lia.
  pose proof (PyListFacts.sorted_reverse_perm code_count
                (language_lines_counts project_lc)) as Hperm.
  pose proof (PyListFacts.sorted_reverse_descending code_count
                (language_lines_counts project_lc)) as Hdesc.
  destruct (PyList.sorted code_count (language_lines_counts project_lc) true)
    as [|first ranked].
  - apply Permutation_nil_l in Hperm. congruence.
  - destruct (Z.to_nat top_number) as [|k] eqn:Hk; [lia|].
    exists first, (take k ranked). split; [reflexivity|].
    split; [rewrite <- Hperm; apply list_elem_of_here|].
    intros x Hx. rewrite <- Hperm in Hx.
    apply StronglySorted_inv in Hdesc as [_ Hall].
    apply elem_of_cons in Hx as [->|Hx]; [lia|].
    rewrite Forall_forall in Hall. exact (Hall x Hx).
Qed.

Lemma top_language_lines_counts_first_witness :
  ∃ first rest,
    top_language_lines_counts Samples.three_languages 1 = first :: rest
    ∧ first ∈ language_lines_counts Samples.three_languages
    ∧ ∀ x, x ∈ language_lines_counts Samples.three_languages →
           code_count x <= code_count first.
Proof.
  apply (top_language_lines_counts_first Samples.three_languages 1).
  - lia.
  - discriminate.
Defined.

(** X7. When [top_number] is at least the number of entries, every entry of
    the collection is returned, once. *)
Theorem top_language_lines_counts_all (project_lc : ProjectLinesCount) (top_number : Z) :
  Z.of_nat (length (language_lines_counts project_lc)) <= top_number →
  Permutation (top_language_lines_counts project_lc top_number)
    (language_lines_counts project_lc).
Proof.
  intros Hn. unfold top_language_lines_counts.
  rewrite PyListFacts.slice_to_nonneg by lia.
  pose proof (PyListFacts.sorted_reverse_perm code_count
                (language_lines_counts project_lc)) as Hperm.
  rewrite take_ge; [exact Hperm|].
  rewrite (Permutation_length Hperm). lia.
Qed.

Lemma top_language_lines_counts_all_witness :
  Permutation (top_language_lines_counts Samples.three_languages 5)
    (language_lines_counts Samples.three_languages).
Proof.
  apply (top_language_lines_counts_all Samples.three_languages 5).
  simpl. lia.
Defined.

(** *** Supported languages of a project *)

Lemma append_supported_flat_map (supported_languages : list Rules.SupportedLanguage)
    (languages : list LanguageLinesCount) (ret : list Rules.SupportedLanguage) :
  append_supported supported_languages languages ret
  = ret ++ flat_map
             (fun c_lang =>
                List.filter
                  (fun c_sl =>
                     String.eqb (PyStr.lower (Rules.sl_name c_sl))
                       (PyStr.lower (language c_lang)))
                  supported_languages)
             languages.
Proof.
  unfold append_supported.
  assert (Hinner : ∀ (c : LanguageLinesCount) (sl ret0 : list Rules.SupportedLanguage),
    fold_left (fun ret1 c_sl =>
      if String.eqb (PyStr.lower (Rules.sl_name c_sl)) (PyStr.lower (language c))
      then ret1 ++ [c_sl] else ret1) sl ret0
    = ret0 ++ List.filter (fun c_sl =>
        String.eqb (PyStr.lower (Rules.sl_name c_sl)) (PyStr.lower (language c))) sl).
  { intros c sl. induction sl as [|x sl IH]; intros ret0; simpl.
    - rewrite app_nil_r. reflexivity.
    - destruct (String.eqb _ _).
      + rewrite IH, <- app_assoc. reflexivity.
      + apply IH. }
  revert ret. induction languages as [|c languages IH]; intros ret; simpl.
  - rewrite app_nil_r. reflexivity.
  - rewrite IH, Hinner, <- app_assoc. reflexivity.
Qed.

(** X8. [top_supported_language_lines_counts] returns, for each language of
    the project in the order of the ranking, the supported languages with
    the same name up to case, in the order of the table. So a supported
    language is returned exactly when some language of the project has its
    name up to case, and a language without supported counterpart
    contributes nothing. *)
Theorem top_supported_language_lines_counts_spec
    (supported_languages : list Rules.SupportedLanguage) (project_lc : ProjectLinesCount) :
  top_supported_language_lines_counts supported_languages project_lc
  = flat_map
      (fun c_lang =>
         List.filter
           (fun c_sl =>
              String.eqb (PyStr.lower (Rules.sl_name c_sl)) (PyStr.lower (language c_lang)))
           supported_languages)
      (PyList.sorted code_count (language_lines_counts project_lc) true)
  ∧ ∀ c_sl,
      c_sl ∈ top_supported_language_lines_counts supported_languages project_lc
      ↔ c_sl ∈ supported_languages
        ∧ ∃ c_lang, c_lang ∈ language_lines_counts project_lc
                    ∧ PyStr.lower (Rules.sl_name c_sl) = PyStr.lower (language c_lang).
Proof.
  unfold top_supported_language_lines_counts.
  rewrite append_supported_flat_map. simpl. split; [reflexivity|].
  intros c_sl. rewrite list_elem_of_In, in_flat_map.
  pose proof (PyListFacts.sorted_reverse_perm code_count
                (language_lines_counts project_lc)) as Hperm.
  split.
  - intros (c_lang & Hin & Hf). apply filter_In in Hf as [Hsl Heq].
    apply String.eqb_eq in Heq. split; [apply list_elem_of_In; exact Hsl|].
    exists c_lang. split; [|exact Heq].
    rewrite <- Hperm. apply list_elem_of_In. exact Hin.
  - intros (Hsl & c_lang & Hin & Heq). exists c_lang. split.
    + apply list_elem_of_In. rewrite Hperm. exact Hin.
    + apply filter_In. split; [apply list_elem_of_In; exact Hsl|].
      apply String.eqb_eq. exact Heq.
Qed.

(** *** The line-count aggregator on two outputs *)

Lemma load_entries (scc_result : list SccEntry) :
  totals_agree (load_project_lines_count scc_result)
  ∧ language_lines_counts (load_project_lines_count scc_result)
    = List.map new_language_lines_count scc_result.
Proof.
  assert (Hempty : totals_agree empty_project_lines_count).
  { unfold totals_agree. simpl. repeat split; reflexivity. }
  exact (ProjectsFacts.load_fold scc_result empty_project_lines_count Hempty).
Qed.

(** X9. The aggregate of two tool outputs put one after the other has the
    entries of the first aggregate followed by those of the second, and
    each of its six totals is the sum of the two totals. *)
Theorem load_project_lines_count_app (l1 l2 : list SccEntry) :
  let p1 := load_project_lines_count l1 in
  let p2 := load_project_lines_count l2 in
  let p := load_project_lines_count (l1 ++ l2) in
  language_lines_counts p = language_lines_counts p1 ++ language_lines_counts p2
  ∧ total_file_count p = total_file_count p1 + total_file_count p2
  ∧ total_line_count p = total_line_count p1 + total_line_count p2
  ∧ total_blank_count p = total_blank_count p1 + total_blank_count p2
  ∧ total_comment_count p = total_comment_count p1 + total_comment_count p2
  ∧ total_code_count p = total_code_count p1 + total_code_count p2
  ∧ total_complexity_count p = total_complexity_count p1 + total_complexity_count p2.
Proof.
  cbv zeta.
  destruct (load_entries l1) as ((A1 & A2 & A3 & A4 & A5 & A6) & E1).
  destruct (load_entries l2) as ((B1 & B2 & B3 & B4 & B5 & B6) & E2).
  destruct (load_entries (l1 ++ l2)) as ((C1 & C2 & C3 & C4 & C5 & C6) & E).
  assert (Happ : language_lines_counts (load_project_lines_count (l1 ++ l2))
                 = language_lines_counts (load_project_lines_count l1)
                   ++ language_lines_counts (load_project_lines_count l2)).
  { rewrite E, E1, E2. apply map_app. }
  split; [exact Happ|].
  rewrite C1, C2, C3, C4, C5, C6, Happ, !ProjectsFacts.sum_counter_app.
  rewrite <- A1, <- A2, <- A3, <- A4, <- A5, <- A6, <- B1, <- B2, <- B3, <- B4, <- B5, <- B6.
  repeat split; reflexivity.
Qed.

(** *** Archives *)

Lemma land_one_testbit (flag_bits : Z) :
  (Z.land flag_bits 1 =? 0) = negb (Z.testbit flag_bits 0).
Proof.
  rewrite Z.bit0_odd.
  change 1 with (Z.ones 1). rewrite Z.land_ones by lia. change (2 ^ 1) with 2.
  rewrite Zodd_mod. destruct (Z.eqb_spec (flag_bits mod 2) 0) as [Heq|Hne].
  - rewrite Heq. reflexivity.
  - destruct (Z.eqb_spec (flag_bits mod 2) 1) as [_|Hne1]; [reflexivity|].
    pose proof (Z.mod_pos_bound flag_bits 2 ltac:(lia)). lia.
Qed.

Lemma check_entries_clear (infolist : list Z) (error : bool) (msg : string) :
  Forall (fun flag_bits => Z.testbit flag_bits 0 = false) infolist →
  check_entries infolist error msg = (error, msg).
Proof.
  induction 1 as [|f l Hf _ IH]; simpl; [reflexivity|].
  rewrite land_one_testbit, Hf. simpl. exact IH.
Qed.

Lemma check_entries_set (infolist : list Z) (error : bool) (msg : string) :
  Exists (fun flag_bits => Z.testbit flag_bits 0 = true) infolist →
  check_entries infolist error msg = (true, "encrypted zip file"%string).
Proof.
  induction 1 as [f l Hf|f l _ IH]; simpl; rewrite land_one_testbit.
  - rewrite Hf. reflexivity.
  - destruct (Z.testbit f 0); simpl; [reflexivity | exact IH].
Qed.

(** X10. [check_zipfile] reports no error exactly for an archive that can
    be read and of which no entry has bit 0 of its flags set, whatever the
    other bits; it reports "encrypted zip file" as soon as one entry has
    the bit set, and "invalid zip file" for a file that is no archive. The
    first component of the result is the error flag: true for a file that
    is refused. *)
Theorem check_zipfile_spec :
  check_zipfile NotZip = Some (true, "invalid zip file"%string)
  ∧ (∀ infolist,
       Forall (fun flag_bits => Z.testbit flag_bits 0 = false) infolist →
       check_zipfile (Entries infolist) = Some (false, EmptyString))
  ∧ (∀ infolist,
       Exists (fun flag_bits => Z.testbit flag_bits 0 = true) infolist →
       check_zipfile (Entries infolist) = Some (true, "encrypted zip file"%string))
  ∧ (∀ zip, check_zipfile zip = Some (false, EmptyString) →
            ∃ infolist, zip = Entries infolist
                        ∧ Forall (fun flag_bits => Z.testbit flag_bits 0 = false) infolist).
Proof.
  split; [reflexivity|]. split; [|split].
  - intros infolist Hall. unfold check_zipfile. rewrite check_entries_clear by exact Hall.
    reflexivity.
  - intros infolist Hex. unfold check_zipfile. rewrite check_entries_set by exact Hex.
    reflexivity.
  - intros [| |infolist]; simpl; try discriminate.
    intros Heq. exists infolist. split; [reflexivity|].
    destruct (decide (Forall (fun flag_bits => Z.testbit flag_bits 0 = false) infolist))
      as [Hall|Hnot]; [exact Hall|].
    apply not_Forall_Exists in Hnot; [|apply _].
    exfalso. rewrite check_entries_set in Heq; [discriminate|].
    eapply Exists_impl; [exact Hnot|]. intros f Hf.
    destruct (Z.testbit f 0) eqn:Hb; [reflexivity|]. exfalso. apply Hf. exact Hb.
Qed.

(** *** Projects of a user *)

Section UserProjectsFacts.
Context {Role : Type} `{!EqDecision Role} (ROLE_ADMIN : Role).
Variable project_id : Project -> Z.

Lemma elem_of_user_teams_all (table : gmap Z (@Team Role)) (u : @User Role)
    (t : @Team Role) :
  t ∈ user_teams_all table (username u)
  ↔ ∃ k, table !! k = Some t ∧ is_member u t.
Proof.
  unfold user_teams_all. rewrite list_elem_of_fmap. split.
  - intros ([k t'] & -> & Hin). apply elem_of_map_to_list in Hin.
    apply map_lookup_filter_Some in Hin as [Hl Hm]. simpl in *.
    exists k. split; [exact Hl|]. apply ProjectsFacts.members_any_is_member. exact Hm.
  - intros (k & Hl & Hm). exists (k, t). split; [reflexivity|].
    apply elem_of_map_to_list. apply map_lookup_filter_Some. split; [exact Hl|].
    simpl. apply ProjectsFacts.members_any_is_member. exact Hm.
Qed.

Lemma elem_of_get_user_projects_ids (table : gmap Z (@Team Role))
    (current_user : @User Role) (i : Z) :
  i ∈ get_user_projects_ids project_id table current_user
  ↔ ∃ k t p, table !! k = Some t ∧ is_member current_user t
             ∧ p ∈ projects t ∧ project_id p = i.
Proof.
  unfold get_user_projects_ids.
  rewrite elem_of_elements, elem_of_list_to_set, list_elem_of_In, in_flat_map.
  split.
  - intros (t & Ht & Hi). apply in_map_iff in Hi as (p & Hp & Hin).
    apply list_elem_of_In, elem_of_user_teams_all in Ht as (k & Hl & Hm).
    exists k, t, p. split; [exact Hl|]. split; [exact Hm|].
    split; [apply list_elem_of_In; exact Hin | exact Hp].
  - intros (k & t & p & Hl & Hm & Hin & Hp). exists t. split.
    + apply list_elem_of_In, elem_of_user_teams_all. eauto.
    + apply in_map_iff. exists p. split; [exact Hp | apply list_elem_of_In; exact Hin].
Qed.


(** X12. [get_user_projects_ids] and [has_access] agree on the projects of
    the teams: a project of a team that has the user among its members is
    listed, by its identifier, and the user has access to it; and every
    identifier listed is that of a project the user has access to. *)
Theorem listed_projects_accessible (table : gmap Z (@Team Role))
    (current_user : @User Role) :
  (∀ k t p, table !! k = Some t → is_member current_user t → p ∈ projects t →
            project_id p ∈ get_user_projects_ids project_id table current_user
            ∧ has_access ROLE_ADMIN table current_user p = true)
  ∧ (∀ i, i ∈ get_user_projects_ids project_id table current_user →
          ∃ p, project_id p = i ∧ has_access ROLE_ADMIN table current_user p = true).
Proof.
  assert (Hacc : ∀ k t p, table !! k = Some t → is_member current_user t →
                          p ∈ projects t →
                          has_access ROLE_ADMIN table current_user p = true).
  { intros k t p Hl Hm Hin. unfold has_access.
    destruct (decide (role current_user = ROLE_ADMIN)); [reflexivity|].
    match goal with
    | |- context [decide (?X ## ?Y)] => destruct (decide (X ## Y)) as [Hdis|_]
    end; [|reflexivity].
    exfalso. apply (Hdis k).
    - apply ProjectsFacts.elem_of_query_filter_set. exists t. split; [exact Hl|].
      apply ProjectsFacts.members_any_is_member. exact Hm.
    - apply ProjectsFacts.elem_of_query_filter_set. exists t. split; [exact Hl|].
      apply ProjectsFacts.projects_any_named. exists p. split; [exact Hin | reflexivity]. }
  pose proof (elem_of_get_user_projects_ids table current_user) as Hmem.
  split.
  - intros k t p Hl Hm Hin. split; [|exact (Hacc k t p Hl Hm Hin)].
    apply Hmem. exists k, t, p. auto.
  - intros i Hi. apply Hmem in Hi as (k & t & p & Hl & Hm & Hin & Hp).
    exists p. split; [exact Hp | exact (Hacc k t p Hl Hm Hin)].
Qed.

End UserProjectsFacts.

End ProjectsExtra.

(** ** More properties of [grepmarx/rules/util.py] *)
Module RulesExtra.
Import Rules RulesRest.

#[local] Arguments String.append !_ _ / : simpl nomatch.

(** *** The classifier and the case of the letters *)

Lemma upper_ascii_search (c : ascii) :
  ieq (PyStr.upper_ascii c) "C" = ieq c "C"
  ∧ ieq (PyStr.upper_ascii c) "W" = ieq c "W"
  ∧ ieq (PyStr.upper_ascii c) "E" = ieq c "E"
  ∧ Ascii.eqb (PyStr.upper_ascii c) "-" = Ascii.eqb c "-"
  ∧ PyStr.is_digit (PyStr.upper_ascii c) = PyStr.is_digit c
  ∧ PyStr.upper_ascii (PyStr.upper_ascii c) = PyStr.upper_ascii c.
Proof.
  destruct c as [[] [] [] [] [] [] [] []]; vm_compute; repeat split; reflexivity.
Qed.

Lemma lower_ascii_search (c : ascii) :
  ieq (PyStr.lower_ascii c) "C" = ieq c "C"
  ∧ ieq (PyStr.lower_ascii c) "W" = ieq c "W"
  ∧ ieq (PyStr.lower_ascii c) "E" = ieq c "E"
  ∧ Ascii.eqb (PyStr.lower_ascii c) "-" = Ascii.eqb c "-"
  ∧ PyStr.is_digit (PyStr.lower_ascii c) = PyStr.is_digit c
  ∧ PyStr.upper_ascii (PyStr.lower_ascii c) = PyStr.upper_ascii c.
Proof.
  destruct c as [[] [] [] [] [] [] [] []]; vm_compute; repeat split; reflexivity.
Qed.

Section CaseChange.
(** A change of the characters that the search does not see and that the
    upper case undoes. *)
Variable g : ascii -> ascii.
Variable G : string -> string.
Hypothesis G_nil : G EmptyString = EmptyString.
Hypothesis G_cons : ∀ c s, G (String c s) = String (g c) (G s).
Hypothesis g_search : ∀ c,
  ieq (g c) "C" = ieq c "C"
  ∧ ieq (g c) "W" = ieq c "W"
  ∧ ieq (g c) "E" = ieq c "E"
  ∧ Ascii.eqb (g c) "-" = Ascii.eqb c "-"
  ∧ PyStr.is_digit (g c) = PyStr.is_digit c
  ∧ PyStr.upper_ascii (g c) = PyStr.upper_ascii c.

Lemma digits_prefix_change (s : string) : digits_prefix (G s) = G (digits_prefix s).
Proof using G_nil G_cons g_search.
  induction s as [|c s IH]; [rewrite G_nil; simpl; rewrite G_nil; reflexivity|].
  rewrite G_cons. simpl. destruct (g_search c) as (_ & _ & _ & _ & Hd & _).
  rewrite Hd. destruct (PyStr.is_digit c); [rewrite IH, G_cons | rewrite G_nil]; reflexivity.
Qed.

Lemma match_cwe_here_change (s : string) : match_cwe_here (G s) = G <$> match_cwe_here s.
Proof using G_nil G_cons g_search.
  destruct s as [|c1 [|c2 [|c3 [|c4 rest]]]];
    rewrite ?G_cons, ?G_nil; try reflexivity.
  unfold match_cwe_here.
  destruct (g_search c1) as (H1 & _). destruct (g_search c2) as (_ & H2 & _).
  destruct (g_search c3) as (_ & _ & H3 & _). destruct (g_search c4) as (_ & _ & _ & H4 & _).
  rewrite H1, H2, H3, H4, digits_prefix_change.
  destruct (ieq c1 "C" && ieq c2 "W" && ieq c3 "E" && Ascii.eqb c4 "-"); [|reflexivity].
  destruct (digits_prefix rest) as [|d ds]; [rewrite G_nil; reflexivity|].
  rewrite G_cons. simpl. rewrite !G_cons. reflexivity.
Qed.

Lemma search_cwe_change (s : string) : search_cwe (G s) = G <$> search_cwe s.
Proof using G_nil G_cons g_search.
  induction s as [|c s IH].
  - rewrite G_nil. reflexivity.
  - rewrite (RulesFacts.search_cwe_unfold (String c s)), (RulesFacts.search_cwe_unfold (G (String c s))).
    rewrite match_cwe_here_change.
    destruct (match_cwe_here (String c s)) as [m|]; [reflexivity|].
    simpl. rewrite G_cons. exact IH.
Qed.

Lemma upper_change (s : string) : PyStr.upper (G s) = PyStr.upper s.
Proof using G_nil G_cons g_search.
  induction s as [|c s IH]; [rewrite G_nil; reflexivity|].
  rewrite G_cons. simpl. destruct (g_search c) as (_ & _ & _ & _ & _ & Hu).
  rewrite Hu, IH. reflexivity.
Qed.

Lemma generate_severity_change {Severity : Type} `{!Constants Severity} (s : string) :
  generate_severity (Some (G s)) = generate_severity (Some s).
Proof using G_nil G_cons g_search.
  unfold generate_severity. rewrite search_cwe_change.
  destruct (search_cwe s) as [m|]; [|reflexivity].
  simpl. rewrite upper_change. reflexivity.
Qed.

End CaseChange.

(** X13. The classification does not depend on the case of the letters of
    the CWE full name: the name in upper case and the name in lower case get
    the severity of the name itself. *)
Theorem generate_severity_case {Severity : Type} `{!Constants Severity} (s : string) :
  generate_severity (Some (PyStr.upper s)) = generate_severity (Some s)
  ∧ generate_severity (Some (PyStr.lower s)) = generate_severity (Some s).
Proof.
  split.
  - apply (generate_severity_change PyStr.upper_ascii PyStr.upper);
      [reflexivity | reflexivity | exact upper_ascii_search].
  - apply (generate_severity_change PyStr.lower_ascii PyStr.lower);
      [reflexivity | reflexivity | exact lower_ascii_search].
Qed.

(** *** Rule pack forms *)

Lemma void_not_nullable (r : regex) : void r = true → nullable r = false.
Proof.
  induction r as [| | | |r1 IH1 r2 IH2|r1 IH1 r2 IH2|r IH]; simpl; try discriminate.
  - reflexivity.
  - intros H. apply orb_true_iff in H as [H|H].
    + rewrite (IH1 H). reflexivity.
    + rewrite (IH2 H). apply andb_false_r.
  - intros H. apply andb_true_iff in H as [H1 H2]. rewrite (IH1 H1), (IH2 H2). reflexivity.
Qed.

Section FormsFacts.
Context `{PyUnicode.Database}.

Lemma void_deriv (r : regex) (c : N) : void r = true → void (deriv r c) = true.
Proof.
  induction r as [| | | |r1 IH1 r2 IH2|r1 IH1 r2 IH2|r IH]; simpl; try discriminate.
  - reflexivity.
  - intros Hv. apply orb_true_iff in Hv as [Hv|Hv].
    + rewrite (void_not_nullable r1 Hv). simpl. rewrite (IH1 Hv). reflexivity.
    + destruct (nullable r1); simpl; rewrite Hv, ?(IH2 Hv), ?orb_true_r; reflexivity.
  - intros Hv. apply andb_true_iff in Hv as [H1 H2]. rewrite (IH1 H1), (IH2 H2). reflexivity.
Qed.

Lemma void_match_prefix (s : PyUnicode.str) (r : regex) :
  void r = true → match_prefix r s = false.
Proof.
  revert r. induction s as [|c s IH]; intros r Hv; simpl.
  - rewrite (void_not_nullable r Hv). reflexivity.
  - rewrite (void_not_nullable r Hv). simpl. apply IH, void_deriv, Hv.
Qed.

(** The pattern matches at a position exactly when a decimal digit is
    there. *)
Lemma rules_pattern_here (c : N) (s : PyUnicode.str) :
  match_prefix rules_pattern (c :: s) = PyUnicode.isdecimal c.
Proof.
  cbn [match_prefix]. change (nullable rules_pattern) with false. simpl.
  destruct (PyUnicode.isdecimal c).
  - destruct s; reflexivity.
  - apply void_match_prefix. reflexivity.
Qed.

Lemma has_digit_cons (c : N) (s : PyUnicode.str) :
  has_digit (c :: s) ↔ PyUnicode.isdecimal c = true ∨ has_digit s.
Proof.
  unfold has_digit. split.
  - intros ([|c' pre] & d & post & Hs & Hd); simpl in Hs; injection Hs as -> ->.
    + left. exact Hd.
    + right. eauto.
  - intros [Hd | (pre & d & post & -> & Hd)].
    + exists [], c, s. split; [reflexivity | exact Hd].
    + exists (c :: pre), d, post. split; [reflexivity | exact Hd].
Qed.

Lemma search_rules_pattern (s : PyUnicode.str) :
  search rules_pattern s = true ↔ has_digit s.
Proof.
  induction s as [|c s IH].
  - simpl. split; [discriminate|].
    intros ([|c pre] & d & post & Hs & _); discriminate Hs.
  - cbn [search]. rewrite rules_pattern_here, has_digit_cons, orb_true_iff, IH.
    reflexivity.
Qed.

(** X14. [validate_languages_rules] accepts a form exactly when at least
    one language is selected and the rules field, a text of any
    characters, has a decimal digit somewhere, whatever else the field
    holds. A rules field without decimal digit gives the message about the
    rules, also when no language is selected; the message about the
    languages is given only when the rules field has a decimal digit. *)
Theorem validate_languages_rules_spec {A : Type} (languages : list A)
    (rules : PyUnicode.str) :
  (validate_languages_rules languages rules = None
   ↔ languages ≠ [] ∧ has_digit rules)
  ∧ (validate_languages_rules languages rules = Some no_rule_message
     ↔ ¬ has_digit rules)
  ∧ (validate_languages_rules languages rules = Some no_language_message
     ↔ languages = [] ∧ has_digit rules).
Proof.
  unfold validate_languages_rules.
  pose proof (search_rules_pattern rules) as Hsearch.
  assert (Hmsg : no_language_message ≠ no_rule_message) by discriminate.
  destruct (search rules_pattern rules); simpl.
  - assert (Hd : has_digit rules) by (apply Hsearch; reflexivity).
    destruct languages as [|x languages]; simpl.
    + split; [split; [discriminate | intros [Hl _]; congruence]|].
      split; [split; [congruence | tauto] | split; [auto | reflexivity]].
    + split; [split; [intros _; split; [discriminate | exact Hd] | reflexivity]|].
      split; [split; [discriminate | tauto] | split; [discriminate | intros [Hl _]; discriminate]].
  - assert (Hd : ¬ has_digit rules).
    { intros Hh. apply Hsearch in Hh. discriminate. }
    split; [split; [discriminate | tauto]|].
    split; [split; [auto | reflexivity]|].
    split; [intros Hh; injection Hh as Hh; congruence | tauto].
Qed.

End FormsFacts.

(** The form check on sample fields: a list of identifiers, a field with
    one Arabic-Indic digit, and a field without digit. *)
Example validate_languages_rules_samples :
  validate_languages_rules (H := Samples.unicode) ["Python"%string]
    (PyUnicode.of_string "12,7") = None
  ∧ validate_languages_rules (H := Samples.unicode) ["Python"%string] [1635%N] = None
  ∧ validate_languages_rules (H := Samples.unicode) ["Python"%string]
      (PyUnicode.of_string "a,b") = Some no_rule_message
  ∧ validate_languages_rules (H := Samples.unicode) ([] : list string)
      (PyUnicode.of_string "12,7") = Some no_language_message.
Proof. repeat split; vm_compute; reflexivity. Qed.

(** *** Splitting and joining *)

Lemma split_nonempty (c : ascii) (s : string) : ∃ y ys, PyStr.split c s = y :: ys.
Proof.
  induction s as [|x s (y & ys & IH)]; simpl; [eauto|].
  destruct (Ascii.eqb x c); [eauto|]. rewrite IH. eauto.
Qed.

Lemma split_app (c : ascii) (a b : string) :
  PyStr.split c (a +:+ String c b) = PyStr.split c a ++ PyStr.split c b.
Proof.
  induction a as [|x a IH]; simpl.
  - rewrite Ascii.eqb_refl. reflexivity.
  - destruct (Ascii.eqb x c); [rewrite IH; reflexivity|].
    rewrite IH. destruct (split_nonempty c a) as (y & ys & ->). reflexivity.
Qed.

Lemma split_no_sep (c : ascii) (s : string) :
  c ∉ list_ascii_of_string s → PyStr.split c s = [s].
Proof.
  induction s as [|x s IH]; simpl; [reflexivity|].
  intros Hnot. apply not_elem_of_cons in Hnot as [Hne Hnot].
  destruct (Ascii.eqb_spec x c) as [->|_]; [congruence|].
  rewrite (IH Hnot). reflexivity.
Qed.

Lemma join_cons_char (sep : string) (x : ascii) (y : string) (ys : list string) :
  PyStr.join sep (String x y :: ys) = String x (PyStr.join sep (y :: ys)).
Proof. destruct ys; reflexivity. Qed.

(** Joining the parts of a split with the separator gives the string back;
    and splitting the join of parts that have no separator gives the parts
    back. *)
Lemma split_join_round_trip (c : ascii) :
  (∀ s, PyStr.join (String c EmptyString) (PyStr.split c s) = s)
  ∧ (∀ l, l ≠ [] → Forall (fun x => c ∉ list_ascii_of_string x) l →
          PyStr.split c (PyStr.join (String c EmptyString) l) = l).
Proof.
  split.
  - induction s as [|x s IH]; [reflexivity|]. simpl.
    destruct (split_nonempty c s) as (y & ys & Hs). rewrite Hs in IH |- *.
    destruct (Ascii.eqb_spec x c) as [->|_].
    + change (PyStr.join (String c EmptyString) (EmptyString :: y :: ys))
        with (String c (PyStr.join (String c EmptyString) (y :: ys))).
      rewrite IH. reflexivity.
    + rewrite join_cons_char, IH. reflexivity.
  - induction l as [|x l IH]; [congruence|]. intros _ Hall.
    apply Forall_cons in Hall as [Hx Hl]. destruct l as [|y l].
    + simpl. apply split_no_sep. exact Hx.
    + specialize (IH ltac:(congruence) Hl).
      change (PyStr.join (String c EmptyString) (x :: y :: l))
        with (x +:+ String c (PyStr.join (String c EmptyString) (y :: l))).
      rewrite split_app, (split_no_sep c x Hx), IH. reflexivity.
Qed.

(** *** Paths of the rule files *)

Section Paths.
Context {Severity : Type} `{!Constants Severity}.

(** X15. For a file path made of a repository name, directory names and a
    file name, none with a separator in it, [sync_db] takes the repository
    name as the repository and the directory names, joined with dots, as
    the category. A path of one part, a file at the root, gives that part
    as the repository and an empty category. *)
Theorem repository_and_category (repo file : string) (dirs : list string) :
  Forall (fun x => os_path_sep ∉ list_ascii_of_string x) (repo :: dirs ++ [file]) →
  let file_path0 := PyStr.join (String os_path_sep EmptyString) (repo :: dirs ++ [file]) in
  repository_of file_path0 = repo
  ∧ category_of file_path0 = PyStr.join "." dirs
  ∧ repository_of file = file
  ∧ category_of file = EmptyString.
Proof.
  intros Hall file_path0. unfold repository_of, category_of, file_path0.
  destruct (split_join_round_trip os_path_sep) as [_ Hsplit].
  rewrite (Hsplit (repo :: dirs ++ [file])) by (congruence || exact Hall).
  assert (Hfile : os_path_sep ∉ list_ascii_of_string file).
  { rewrite Forall_cons, Forall_app, Forall_singleton in Hall. apply Hall. }
  rewrite (split_no_sep _ file Hfile). simpl List.hd. simpl List.tl.
  rewrite removelast_last. repeat split; reflexivity.
Qed.

Lemma prefix_app (old r : string) : String.prefix old (old +:+ r) = true.
Proof.
  induction old as [|c old IH]; simpl; [destruct r; reflexivity|].
  destruct (ascii_dec c c); [exact IH | congruence].
Qed.

Lemma remove_scan_skip (old t r : string) :
  PyStr.remove_scan old (String.length t) (t +:+ r) = PyStr.remove_scan old 0 r.
Proof. induction t as [|x t IH]; simpl; [reflexivity | destruct r; exact IH]. Qed.

Lemma remove_scan_none (old r : string) :
  occurs old r = false → PyStr.remove_scan old 0 r = r.
Proof.
  induction r as [|x r IH]; [reflexivity|]. cbn [occurs PyStr.remove_scan].
  intros Hocc. apply orb_false_iff in Hocc as [Hpre Hrest].
  rewrite Hpre, (IH Hrest). reflexivity.
Qed.

(** X16. [sync_db] takes as the file path of a rule the part of the file
    name after the rules root, when the root is at the start of the name and
    does not occur in the rest of it. *)
Theorem file_path_of_relative (rel : string) :
  RULES_PATH ≠ EmptyString → occurs RULES_PATH rel = false →
  file_path_of (RULES_PATH +:+ rel) = rel.
Proof.
  intros Hne Hocc. unfold file_path_of, PyStr.replace_by_empty.
  destruct RULES_PATH as [|c old] eqn:Hroot; [congruence|].
  change (String c old +:+ rel) with (String c (old +:+ rel)).
  cbn [PyStr.remove_scan].
  change (String c (old +:+ rel)) with (String c old +:+ rel).
  rewrite prefix_app.
  replace (String.length (String c old) - 1)%nat with (String.length old)
    by (simpl; lia).
  rewrite remove_scan_skip. apply remove_scan_none. exact Hocc.
Qed.

End Paths.

Lemma repository_and_category_witness :
  repository_of (Constants0 := Samples.rule_constants) "community/python/lang/xss.yaml"
  = "community"%string
  ∧ category_of (Constants0 := Samples.rule_constants) "community/python/lang/xss.yaml"
    = "python.lang"%string
  ∧ repository_of (Constants0 := Samples.rule_constants) "xss.yaml" = "xss.yaml"%string
  ∧ category_of (Constants0 := Samples.rule_constants) "xss.yaml" = EmptyString.
Proof.
  apply (repository_and_category (Constants0 := Samples.rule_constants)
           "community" "xss.yaml" ["python"; "lang"]%string).
  apply (bool_decide_unpack _). vm_compute. exact I.
Defined.

Lemma file_path_of_relative_witness :
  file_path_of (Constants0 := Samples.rule_constants)
    "/data/rules/community/python/xss.yaml"
  = "community/python/xss.yaml"%string.
Proof.
  apply (file_path_of_relative (Constants0 := Samples.rule_constants)
           "community/python/xss.yaml").
  - discriminate.
  - reflexivity.
Defined.

(** *** Lists of identifiers *)

Lemma keys_setitem {V : Type} (k : string) (v : V) (d : PyDict.t V) :
  PyDict.keys (PyDict.setitem k v d)
  = if decide (k ∈ PyDict.keys d) then PyDict.keys d else PyDict.keys d ++ [k].
Proof.
  unfold PyDict.keys. induction d as [|[k' v'] d IH]; cbn [PyDict.setitem map fst].
  - destruct (decide (k ∈ [])) as [Hk|_]; [|reflexivity].
    apply elem_of_nil in Hk. contradiction.
  - destruct (String.eqb_spec k' k) as [->|Hne]; cbn [map fst].
    + destruct (decide (k ∈ k :: map fst d)) as [_|Hk]; [reflexivity|].
      exfalso. apply Hk, elem_of_cons. left. reflexivity.
    + rewrite IH. destruct (decide (k ∈ map fst d)) as [Hk|Hk];
        destruct (decide (k ∈ k' :: map fst d)) as [Hk'|Hk']; try reflexivity.
      * exfalso. apply Hk', elem_of_cons. right. exact Hk.
      * exfalso. apply elem_of_cons in Hk' as [->|Hin]; [congruence | contradiction].
Qed.

Lemma setitem_present (k : string) (d : PyDict.t unit) :
  k ∈ PyDict.keys d → PyDict.setitem k tt d = d.
Proof.
  unfold PyDict.keys. induction d as [|[k' []] d IH]; simpl.
  - intros Hin. apply elem_of_nil in Hin. contradiction.
  - intros Hin. destruct (String.eqb_spec k' k) as [->|Hne]; [reflexivity|].
    apply elem_of_cons in Hin as [->|Hin]; [congruence|].
    rewrite (IH Hin). reflexivity.
Qed.

Lemma fromkeys_fold (l : list string) (d : PyDict.t unit) :
  NoDup (PyDict.keys d) →
  NoDup (PyDict.keys (fold_left (fun d k => PyDict.setitem k tt d) l d))
  ∧ ∀ x, x ∈ PyDict.keys (fold_left (fun d k => PyDict.setitem k tt d) l d)
         ↔ x ∈ PyDict.keys d ∨ x ∈ l.
Proof.
  revert d. induction l as [|k l IH]; intros d Hd; simpl.
  - split; [exact Hd|]. intros x. rewrite elem_of_nil. tauto.
  - destruct (IH (PyDict.setitem k tt d)) as [Hnd Hin].
    { rewrite keys_setitem. destruct (decide (k ∈ PyDict.keys d)) as [Hk|Hk]; [exact Hd|].
      apply NoDup_app. split; [exact Hd|]. split; [|apply NoDup_singleton].
      intros x Hx Hx'. apply list_elem_of_singleton in Hx'. subst x. contradiction. }
    split; [exact Hnd|]. intros x. rewrite Hin, keys_setitem, elem_of_cons.
    destruct (decide (k ∈ PyDict.keys d)) as [Hk|Hk].
    + split; [tauto|]. intros [Hx|[->|Hx]]; tauto.
    + rewrite elem_of_app, list_elem_of_singleton. tauto.
Qed.

Lemma fromkeys_keys (l : list string) :
  NoDup (PyDict.keys (fromkeys l)) ∧ ∀ x, x ∈ PyDict.keys (fromkeys l) ↔ x ∈ l.
Proof.
  destruct (fromkeys_fold l []) as [Hnd Hin]; [apply NoDup_nil_2|].
  split; [exact Hnd|]. intros x. unfold fromkeys. rewrite Hin.
  unfold PyDict.keys. simpl. rewrite elem_of_nil. tauto.
Qed.

Lemma fromkeys_snoc (l : list string) (x : string) :
  PyDict.keys (fromkeys (l ++ [x]))
  = if decide (x ∈ l) then PyDict.keys (fromkeys l) else PyDict.keys (fromkeys l) ++ [x].
Proof.
  unfold fromkeys. rewrite fold_left_app. simpl. rewrite keys_setitem.
  destruct (fromkeys_keys l) as [_ Hin]. unfold fromkeys in Hin.
  destruct (decide (x ∈ l)) as [Hx|Hx].
  - rewrite decide_True by (apply Hin; exact Hx). reflexivity.
  - rewrite decide_False by (rewrite Hin; exact Hx). reflexivity.
Qed.

Lemma elem_of_filter_none (l : list string) (x : string) :
  x ∈ filter_none l ↔ x ∈ l ∧ x ≠ EmptyString.
Proof.
  unfold filter_none. rewrite !list_elem_of_In, filter_In.
  destruct (String.eqb_spec x EmptyString) as [->|Hne]; simpl; split.
  - intros [_ Hf]. discriminate.
  - intros [_ Hf]. congruence.
  - tauto.
  - tauto.
Qed.

Section Integers.
Variable int : string → option Z.

Lemma to_integers_None (l : list string) :
  to_integers int l = None ↔ ∃ x, x ∈ l ∧ int x = None.
Proof.
  induction l as [|y l IH]; simpl.
  - split; [discriminate|]. intros (x & Hx & _). apply elem_of_nil in Hx. contradiction.
  - destruct (int y) as [n|] eqn:Hy.
    + destruct (to_integers int l) as [ns|] eqn:Hl.
      * split; [discriminate|]. intros (x & Hx & Hnone).
        apply elem_of_cons in Hx as [->|Hx]; [congruence|].
        assert (Hex : ∃ x, x ∈ l ∧ int x = None) by eauto.
        apply IH in Hex. discriminate.
      * split; [|reflexivity]. intros _.
        destruct (proj1 IH eq_refl) as (x & Hx & Hnone).
        exists x. split; [apply elem_of_cons; right; exact Hx | exact Hnone].
    + split; [|reflexivity]. intros _. exists y.
      split; [apply elem_of_cons; left; reflexivity | exact Hy].
Qed.

Lemma to_integers_Some (l : list string) (ns : list Z) :
  to_integers int l = Some ns → Forall2 (fun x n => int x = Some n) l ns.
Proof.
  revert ns. induction l as [|y l IH]; simpl; intros ns Hns.
  - injection Hns as <-. constructor.
  - destruct (int y) as [n|] eqn:Hy; [|discriminate].
    destruct (to_integers int l) as [ns'|]; [|discriminate].
    injection Hns as <-. constructor; [exact Hy | apply IH; reflexivity].
Qed.

Lemma to_integers_snoc (l : list string) (x : string) :
  to_integers int (l ++ [x])
  = match to_integers int l, int x with
    | Some ns, Some n => Some (ns ++ [n])
    | _, _ => None
    end.
Proof.
  induction l as [|y l IH]; simpl.
  - destruct (int x); reflexivity.
  - destruct (int y) as [m|]; [|reflexivity]. rewrite IH.
    destruct (to_integers int l) as [ns|]; [|reflexivity].
    destruct (int x); reflexivity.
Qed.

(** X17. [comma_separated_to_list] raises exactly when an element that is
    not empty is not the text of an integer. When it returns, the integers
    of the list are those of the elements that are not empty, and no integer
    is twice in the list when no two different elements are texts of the
    same integer. *)
Theorem comma_separated_to_list_spec (comma_separated : string) :
  let elements := PyStr.split "," comma_separated in
  (comma_separated_to_list int comma_separated = None
   ↔ ∃ x, x ∈ elements ∧ x ≠ EmptyString ∧ int x = None)
  ∧ ∀ r_list, comma_separated_to_list int comma_separated = Some r_list →
      (∀ n, n ∈ r_list ↔ ∃ x, x ∈ elements ∧ x ≠ EmptyString ∧ int x = Some n)
      ∧ ((∀ x y, x ∈ elements → y ∈ elements → x ≠ EmptyString → y ≠ EmptyString →
                 int x = int y → x = y)
         → NoDup r_list).
Proof.
  intros elements. unfold comma_separated_to_list. fold elements.
  destruct (fromkeys_keys (filter_none elements)) as [Hnd Hin].
  set (keys := PyDict.keys (fromkeys (filter_none elements))) in *.
  assert (Hkeys : ∀ x, x ∈ keys ↔ x ∈ elements ∧ x ≠ EmptyString).
  { intros x. rewrite Hin. apply elem_of_filter_none. }
  split.
  - rewrite to_integers_None. split; intros (x & Hx & Hnone).
    + apply Hkeys in Hx as [Hx Hne]. eauto.
    + destruct Hnone as [Hne Hnone]. exists x. split; [apply Hkeys; tauto | exact Hnone].
  - intros r_list Hret. apply to_integers_Some in Hret. split.
    + intros n. split.
      * intros Hn. apply list_elem_of_lookup in Hn as [i Hi].
        destruct (Forall2_lookup_r _ _ _ _ _ Hret Hi) as (x & Hx & Hint).
        apply list_elem_of_lookup_2 in Hx. apply Hkeys in Hx as [Hx Hne]. eauto.
      * intros (x & Hx & Hne & Hint).
        assert (Hk : x ∈ keys) by (apply Hkeys; tauto).
        apply list_elem_of_lookup in Hk as [i Hi].
        destruct (Forall2_lookup_l _ _ _ _ _ Hret Hi) as (m & Hm & Hint').
        assert (m = n) by congruence. subst m.
        apply list_elem_of_lookup_2 in Hm. exact Hm.
    + intros Hinj. apply NoDup_alt. intros i j n Hi Hj.
      destruct (Forall2_lookup_r _ _ _ _ _ Hret Hi) as (x & Hx & Hintx).
      destruct (Forall2_lookup_r _ _ _ _ _ Hret Hj) as (y & Hy & Hinty).
      assert (Hxy : x = y).
      { pose proof (list_elem_of_lookup_2 _ _ _ Hx) as Hx'.
        pose proof (list_elem_of_lookup_2 _ _ _ Hy) as Hy'.
        apply Hkeys in Hx' as [Hx' Hnx]. apply Hkeys in Hy' as [Hy' Hny].
        apply Hinj; [assumption..|congruence]. }
      subst y. exact (proj1 (NoDup_alt _) Hnd i j x Hx Hy).
Qed.

(** X18. Reading one element more, at the end of the string: an element
    that is empty or is one of the elements before it changes nothing; any
    other element adds its integer at the end of the list, and raises when
    it is not the text of an integer. *)
Theorem comma_separated_to_list_step (comma_separated x : string) :
  ","%char ∉ list_ascii_of_string x →
  comma_separated_to_list int (comma_separated +:+ "," +:+ x)
  = if decide (x = EmptyString ∨ x ∈ PyStr.split "," comma_separated)
    then comma_separated_to_list int comma_separated
    else match comma_separated_to_list int comma_separated, int x with
         | Some r_list, Some n => Some (r_list ++ [n])
         | _, _ => None
         end.
Proof.
  intros Hx. unfold comma_separated_to_list.
  change (comma_separated +:+ "," +:+ x) with (comma_separated +:+ String "," x).
  rewrite split_app, (split_no_sep _ x Hx).
  unfold filter_none at 1. rewrite List.filter_app. fold (filter_none (PyStr.split "," comma_separated)).
  simpl List.filter. destruct (String.eqb_spec x EmptyString) as [->|Hne]; simpl negb; cbv iota.
  - rewrite app_nil_r. rewrite decide_True by (left; reflexivity). reflexivity.
  - rewrite fromkeys_snoc.
    destruct (decide (x ∈ filter_none (PyStr.split "," comma_separated))) as [Hin|Hin].
    + rewrite decide_True; [reflexivity|]. right. apply elem_of_filter_none in Hin. tauto.
    + rewrite decide_False.
      * apply to_integers_snoc.
      * intros [Heq|Hin']; [congruence|]. apply Hin. apply elem_of_filter_none. tauto.
Qed.

End Integers.

Lemma comma_separated_to_list_step_witness :
  comma_separated_to_list Samples.decimal "3,1,,3,01"
  = match comma_separated_to_list Samples.decimal "3,1,,3", Samples.decimal "01" with
    | Some r_list, Some n => Some (r_list ++ [n])
    | _, _ => None
    end
  ∧ comma_separated_to_list Samples.decimal "3,1,,3,01" = Some [3; 1; 1].
Proof.
  split; [|reflexivity].
  apply (comma_separated_to_list_step Samples.decimal "3,1,,3" "01").
  apply (bool_decide_unpack _). vm_compute. exact I.
Defined.

(** *** The synchronization of the rules *)

Section SyncExtra.
Context {Severity : Type} `{!Constants Severity}.
Variable supported_languages : list SupportedLanguage.
Variable rule_repositories : list RuleRepository.

Abbreviation Rule := (@Rule Severity).
Abbreviation RuleStore := (@RuleStore Severity).

Lemma matching_languages (test : SupportedLanguage → bool)
    (table ls : list SupportedLanguage) :
  fold_left (fun ls c_sl => if test c_sl then ls ++ [c_sl] else ls) table ls
  = ls ++ List.filter test table.
Proof.
  revert ls. induction table as [|c_sl table IH]; intros ls; simpl.
  - rewrite app_nil_r. reflexivity.
  - rewrite IH. destruct (test c_sl); [|reflexivity].
    rewrite <- app_assoc. reflexivity.
Qed.

(** X19. The languages the two loops append for the language names of an
    entry: for each name in turn, the supported languages whose name is the
    same up to case, in the order of the table. A name of no supported
    language adds nothing, and a name written twice adds its languages
    twice. *)
Theorem append_languages_spec (tokens : list string) (ls : list SupportedLanguage) :
  append_languages supported_languages tokens ls
  = ls ++ flat_map
            (fun c_language =>
               List.filter
                 (fun c_sl => String.eqb (PyStr.lower (sl_name c_sl)) (PyStr.lower c_language))
                 supported_languages)
            tokens.
Proof.
  unfold append_languages. revert ls.
  induction tokens as [|c_language tokens IH]; intros ls; simpl.
  - rewrite app_nil_r. reflexivity.
  - rewrite IH, matching_languages, <- app_assoc. reflexivity.
Qed.

Lemma sync_rules_found (file_path0 repository0 category0 : string)
    (entries : list RuleEntry) (rules rules' : list Rule) (i : nat) (rule : Rule) :
  first_by_path file_path0 rules = Some (i, rule) →
  sync_rules supported_languages rule_repositories file_path0 repository0 category0
    entries rules = (Returned, rules') →
  ∃ rule', rules' = <[i := rule']> rules ∧ static_eq rule rule'
           ∧ languages rule'
             = languages rule
               ++ flat_map (entry_languages_matched supported_languages) entries.
Proof.
  revert rules rule. induction entries as [|c_rule entries IH]; intros rules rule Hfound; simpl.
  - intros [= <-]. exists rule. split; [|split].
    + symmetry. apply list_insert_id.
      apply RulesFacts.first_by_path_Some in Hfound. apply Hfound.
    + apply RulesFacts.static_eq_refl.
    + rewrite app_nil_r. reflexivity.
  - destruct (sync_rule supported_languages rule_repositories file_path0 repository0
                category0 c_rule rules) as [[|e] rules1] eqn:Hturn; [|discriminate].
    intros Hrest. pose proof (RulesFacts.sync_rule_shape _ _ _ _ _ _ _ _ _ Hturn) as Hshape.
    rewrite Hfound in Hshape. destruct Hshape as (rule1 & Hupd & ->).
    destruct (RulesFacts.update_rule_static _ _ _ _ _ Hupd) as [Hstatic Hlangs].
    assert (Hpath : file_path rule1 = file_path0).
    { apply RulesFacts.first_by_path_Some in Hfound as (_ & Hp & _).
      destruct Hstatic as (_ & _ & Hfp & _). congruence. }
    destruct (IH _ _ (RulesFacts.first_by_path_insert _ _ _ _ _ Hfound Hpath) Hrest)
      as (rule' & -> & Hstatic' & Hlangs').
    exists rule'. split; [|split].
    + apply list_insert_insert_eq.
    + eapply RulesFacts.static_eq_trans; eassumption.
    + rewrite Hlangs', Hlangs, <- app_assoc. reflexivity.
Qed.

(** X21. The rules of one file are one rule of the table. When the table
    has a rule for the file, every entry of the file updates that rule,
    which keeps its identifier and its title. When it has none, the first
    entry adds a rule with its [id] as the title and the other entries
    update that same rule. In both cases the rule gets the languages of all
    the entries, one after the other. *)
Theorem sync_rules_one_rule_per_file (file_path0 repository0 category0 : string)
    (entries : list RuleEntry) (rules rules' : list Rule) :
  sync_rules supported_languages rule_repositories file_path0 repository0 category0
    entries rules = (Returned, rules') →
  match first_by_path file_path0 rules, entries with
  | Some (i, rule), _ =>
      ∃ rule', rules' = <[i := rule']> rules
               ∧ rule_id rule' = rule_id rule ∧ title rule' = title rule
               ∧ languages rule'
                 = languages rule
                   ++ flat_map (entry_languages_matched supported_languages) entries
  | None, [] => rules' = rules
  | None, c_rule :: _ =>
      ∃ rule', rules' = rules ++ [rule']
               ∧ file_path rule' = file_path0 ∧ title rule' = entry_id c_rule
               ∧ languages rule'
                 = flat_map (entry_languages_matched supported_languages) entries
  end.
Proof.
  intros Hrun. destruct (first_by_path file_path0 rules) as [[i rule]|] eqn:Hfound.
  - destruct (sync_rules_found _ _ _ _ _ _ _ _ Hfound Hrun) as (rule' & -> & Hstatic & Hlangs).
    exists rule'. destruct Hstatic as (Hid & Htitle & _). auto.
  - destruct entries as [|c_rule entries]; simpl in Hrun; [congruence|].
    destruct (sync_rule supported_languages rule_repositories file_path0 repository0
                category0 c_rule rules) as [[|e] rules1] eqn:Hturn; [|discriminate].
    pose proof (RulesFacts.sync_rule_shape _ _ _ _ _ _ _ _ _ Hturn) as Hshape.
    rewrite Hfound in Hshape. destruct Hshape as (rule1 & Hupd & ->).
    destruct (RulesFacts.update_rule_static _ _ _ _ _ Hupd)
      as [(Hid & Htitle & Hpath & _) Hlangs].
    simpl in Htitle, Hpath, Hlangs.
    destruct (sync_rules_found _ _ _ _ _ _ _ _
                (RulesFacts.first_by_path_snoc _ _ _ Hfound Hpath) Hrun)
      as (rule' & -> & (_ & Htitle' & Hpath' & _) & Hlangs').
    exists rule'. split; [|split; [congruence | split; [congruence|]]].
    + rewrite insert_app_r_alt by lia. rewrite Nat.sub_diag. reflexivity.
    + rewrite Hlangs', Hlangs. reflexivity.
Qed.

Lemma sync_rule_severity (file_path0 repository0 category0 : string) (c_rule : RuleEntry)
    (rules rules' : list Rule) :
  sync_rule supported_languages rule_repositories file_path0 repository0 category0
    c_rule rules = (Returned, rules') →
  Forall sev_ok rules → Forall sev_ok rules'.
Proof.
  intros Hturn Hall. pose proof (RulesFacts.sync_rule_shape _ _ _ _ _ _ _ _ _ Hturn) as Hshape.
  destruct (first_by_path file_path0 rules) as [[i rule]|];
    destruct Hshape as (rule' & Hupd & ->);
    apply RulesFacts.update_rule_evolves in Hupd as [_ Hsev].
  - apply Forall_insert; assumption.
  - apply Forall_app. split; [exact Hall|]. apply Forall_singleton. exact Hsev.
Qed.

Lemma sync_rules_severity (file_path0 repository0 category0 : string)
    (entries : list RuleEntry) (rules rules' : list Rule) :
  sync_rules supported_languages rule_repositories file_path0 repository0 category0
    entries rules = (Returned, rules') →
  Forall sev_ok rules → Forall sev_ok rules'.
Proof.
  revert rules. induction entries as [|c_rule entries IH]; intros rules; simpl.
  - intros [= <-]. auto.
  - destruct (sync_rule supported_languages rule_repositories file_path0 repository0
                category0 c_rule rules) as [[|e] rules1] eqn:Hturn; [|discriminate].
    intros Hrest Hall. apply (IH _ Hrest). eapply sync_rule_severity; eassumption.
Qed.

Lemma sync_file_severity (f : string * safe_load_result) (db db' : RuleStore) :
  sync_file supported_languages rule_repositories f db = (Returned, db') →
  Forall sev_ok (session db) → Forall sev_ok (session db').
Proof.
  destruct f as [c_filename [|[entries|]]]; simpl; [discriminate| |].
  - destruct (sync_rules supported_languages rule_repositories _ _ _ entries (session db))
      as [[|e] rules] eqn:Hrules; [|discriminate].
    intros [= <-]. simpl. eapply sync_rules_severity. exact Hrules.
  - intros [= <-]. simpl. auto.
Qed.

(** X22. A run that returns keeps the severities in line with the CWE:
    when the severity of every rule of the session is the one
    [generate_severity] gives for its CWE, the same holds after the run,
    for the rules of the session and, when the run had a file, for the
    rules in the database. *)
Theorem sync_db_severity_invariant (rules_filenames : list (string * safe_load_result))
    (db db' : RuleStore) :
  sync_db supported_languages rule_repositories rules_filenames db = (Returned, db') →
  Forall sev_ok (session db) →
  Forall sev_ok (session db') ∧ (rules_filenames ≠ [] → Forall sev_ok (committed db')).
Proof.
  intros Hrun Hall.
  assert (Hsession : Forall sev_ok (session db')).
  { revert db Hrun Hall. induction rules_filenames as [|f files IH]; intros db; simpl.
    - intros [= <-]. auto.
    - destruct (sync_file supported_languages rule_repositories f db)
        as [[|e] db1] eqn:Hfile; [|discriminate].
      intros Hrest Hall. apply (IH _ Hrest). eapply sync_file_severity; eassumption. }
  split; [exact Hsession|]. intros Hne.
  rewrite <- (RulesFacts.sync_db_returned_clean _ _ _ _ _ Hrun Hne). exact Hsession.
Qed.

Lemma update_rule_no_repository (c_rule : RuleEntry) (rule : Rule) :
  repository rule = None →
  ∃ rule',
    update_rule supported_languages c_rule rule
    = (Raised
         match entry_metadata c_rule with
         | Some md =>
             match md_owasp md with
             | Some (OwaspList []) => IndexError
             | _ => AttributeError
             end
         | None => AttributeError
         end, rule').
Proof.
  intros Hrepo. unfold update_rule, apply_metadata, after_languages.
  destruct (entry_languages c_rule) as [tokens|], (entry_metadata c_rule) as [md|];
    [destruct (md_cwe md) as [c|], (md_owasp md) as [[o|[|o os]]|] | |
     destruct (md_cwe md) as [c|], (md_owasp md) as [[o|[|o os]]|] | ];
    simpl; rewrite ?Hrepo; eauto.
Qed.

(** X23. A rule file of a repository that is not in the table of the
    repositories, with no rule yet in the session, stops the run at its
    first entry: the log line raises [AttributeError] (or the empty [owasp]
    list of the entry raises [IndexError] before it), nothing is committed
    or rolled back, and the new rule, without repository, stays in the
    session. *)
Theorem sync_db_unknown_repository (c_filename : string) (c_rule : RuleEntry)
    (rest : list RuleEntry) (after : list (string * safe_load_result)) (db : RuleStore) :
  let file_path0 := file_path_of c_filename in
  first_by_path file_path0 (session db) = None →
  List.find (fun r => String.eqb (repo_name r) (repository_of file_path0))
    rule_repositories = None →
  ∃ rule,
    sync_db supported_languages rule_repositories
      ((c_filename, Parsed (Some (c_rule :: rest))) :: after) db
    = (Raised
         match entry_metadata c_rule with
         | Some md =>
             match md_owasp md with
             | Some (OwaspList []) => IndexError
             | _ => AttributeError
             end
         | None => AttributeError
         end,
       {| committed := committed db; session := session db ++ [rule] |})
    ∧ file_path rule = file_path0 ∧ title rule = entry_id c_rule
    ∧ repository rule = None.
Proof.
  intros file_path0 Hnone Hrepo.
  destruct (update_rule_no_repository c_rule
              (new_rule rule_repositories file_path0 (repository_of file_path0)
                 (category_of file_path0) c_rule (session db)) Hrepo)
    as (rule & Hupd).
  destruct (RulesFacts.update_rule_static _ _ _ _ _ Hupd)
    as [(_ & Htitle & Hpath & Hrep & _) _].
  simpl in Htitle, Hpath, Hrep.
  exists rule. split; [|split; [exact Hpath | split; [exact Htitle | congruence]]].
  cbn [sync_db sync_file sync_rules]. fold file_path0.
  unfold sync_rule. rewrite Hnone, Hupd.
  rewrite insert_app_r_alt by lia. rewrite Nat.sub_diag. reflexivity.
Qed.

(** X24. A run, whether it returns or raises, deletes no rule and gives
    no identifier twice: the rules in the database and those of the session
    are at least as many as before, and their identifiers are distinct when
    they were before. *)
Theorem sync_db_identifiers (rules_filenames : list (string * safe_load_result))
    (db db' : RuleStore) (o : outcome) :
  sync_db supported_languages rule_repositories rules_filenames db = (o, db') →
  session db = committed db →
  NoDup (rule_id <$> committed db) →
  NoDup (rule_id <$> committed db') ∧ NoDup (rule_id <$> session db')
  ∧ (length (committed db) <= length (committed db'))%nat
  ∧ (length (committed db) <= length (session db'))%nat.
Proof.
  intros Hrun Hclean Hnd.
  assert (Hok : store_ok db).
  { unfold store_ok. rewrite Hclean. apply RulesFacts.keeps_refl. }
  destruct (RulesFacts.sync_db_keeps _ _ _ _ _ _ Hrun Hok)
    as ((Hpos & _ & Hids) & (Hpos' & _ & Hids') & _).
  assert (Hlen : ∀ new : list Rule,
            (∀ i r, committed db !! i = Some r → ∃ r', new !! i = Some r' ∧ static_eq r r') →
            (length (committed db) <= length new)%nat).
  { intros new Hkeep.
    destruct (decide (length (committed db) <= length new)%nat) as [|Hgt]; [assumption|].
    exfalso. destruct (lookup_lt_is_Some_2 (committed db) (length new)) as [r Hr]; [lia|].
    destruct (Hkeep _ _ Hr) as (r' & Hr' & _). apply lookup_lt_Some in Hr'. lia. }
  repeat split; auto.
Qed.

End SyncExtra.

Lemma sync_db_severity_invariant_witness :
  Forall (sev_ok (Constants0 := Samples.rule_constants)) (session Samples.xss_store)
  ∧ (([Samples.xss_file] : list (string * safe_load_result)) ≠ [] →
     Forall (sev_ok (Constants0 := Samples.rule_constants)) (committed Samples.xss_store)).
Proof.
  apply (sync_db_severity_invariant (Constants0 := Samples.rule_constants)
           Samples.known_languages Samples.known_repositories
           [Samples.xss_file] Samples.empty_store Samples.xss_store).
  - reflexivity.
  - constructor.
Defined.

Lemma sync_rules_one_rule_per_file_witness :
  ∃ rule' : @Rules.Rule string,
    [set_languages Samples.xss_rule [ {| sl_name := "Python" |}; {| sl_name := "Python" |} ]]
    = [] ++ [rule']
    ∧ file_path rule' = "community/python/xss.yaml"%string
    ∧ title rule' = entry_id Samples.xss_entry
    ∧ languages rule'
      = flat_map (entry_languages_matched Samples.known_languages)
          [Samples.xss_entry; Samples.xss_entry].
Proof.
  apply (sync_rules_one_rule_per_file (Constants0 := Samples.rule_constants)
           Samples.known_languages Samples.known_repositories
           "community/python/xss.yaml" "community" "python"
           [Samples.xss_entry; Samples.xss_entry] []
           [set_languages Samples.xss_rule
              [ {| sl_name := "Python" |}; {| sl_name := "Python" |} ]]).
  reflexivity.
Defined.

Lemma sync_db_unknown_repository_witness :
  ∃ rule,
    sync_db (Constants0 := Samples.rule_constants)
      Samples.known_languages Samples.known_repositories
      [("/data/rules/elsewhere/python/xss.yaml"%string, Parsed (Some [Samples.xss_entry]));
       Samples.xss_file]
      Samples.empty_store
    = (Raised AttributeError,
       {| committed := committed Samples.empty_store;
          session := session Samples.empty_store ++ [rule] |})
    ∧ file_path rule = "elsewhere/python/xss.yaml"%string
    ∧ title rule = entry_id Samples.xss_entry
    ∧ repository rule = None.
Proof.
  apply (sync_db_unknown_repository (Constants0 := Samples.rule_constants)
           Samples.known_languages Samples.known_repositories
           "/data/rules/elsewhere/python/xss.yaml" Samples.xss_entry []
           [Samples.xss_file] Samples.empty_store).
  - reflexivity.
  - reflexivity.
Defined.

Lemma sync_db_identifiers_witness :
  (NoDup (rule_id <$> committed Samples.two_rules_store)
   ∧ NoDup (rule_id <$> session Samples.two_rules_store)
   ∧ (length (committed Samples.xss_store) <= length (committed Samples.two_rules_store))%nat
   ∧ (length (committed Samples.xss_store) <= length (session Samples.two_rules_store))%nat)
  ∧ rule_id <$> committed Samples.xss_store = [1]
  ∧ rule_id <$> committed Samples.two_rules_store = [1; 2].
Proof.
  split; [|split; reflexivity].
  apply (sync_db_identifiers (Constants0 := Samples.rule_constants)
           Samples.known_languages Samples.known_repositories
           [Samples.sqli_file] Samples.xss_store Samples.two_rules_store Returned).
  - reflexivity.
  - reflexivity.
  - apply NoDup_singleton.
Defined.

End RulesExtra.
